(** * Vacanalyzer: the ingestion and reconciliation pipeline

    A shallow embedding of [functions/database.py] (the technology
    classifier [extract_tech] and the importer [import_jobs_from_json]) and
    of [functions/data_import.py] (the paginated fetcher [fetch_jobs]),
    with the properties of the pipeline proved over it.

    Conventions.
    - A Python [str] is a [string]; each character is a code point below
      256 (the Latin-1 range, which holds the German letters of the
      postings).  [str.lower], [str.split] and [str.strip] are written out
      for that range.
    - A value parsed by [json.load] is a [json].
    - The tables of the SQLite store are lists of rows in insertion order;
      a primary key is one more than the largest key of the table. *)

From Stdlib Require Import String Ascii List ZArith Lia Bool Arith Permutation.
From Stdlib Require Import DecimalString.
Import ListNotations.
Local Open Scope string_scope.
Local Open Scope list_scope.
Local Open Scope nat_scope.

Set Implicit Arguments.
Set Warnings "-register-all".

(** ** Python strings *)

Module PyStr.

Definition code (c : ascii) : nat := nat_of_ascii c.

(** [str.isspace] on one character of the Latin-1 range. *)
Definition is_space (c : ascii) : bool :=
  let n := code c in
  ((9 <=? n) && (n <=? 13)) || ((28 <=? n) && (n <=? 32))
  || (n =? 133) || (n =? 160).

(** [str.lower] on one character: A-Z, and the capital letters
    U+00C0-U+00DE except the multiplication sign U+00D7. *)
Definition lower_char (c : ascii) : ascii :=
  let n := code c in
  if ((65 <=? n) && (n <=? 90))
     || ((192 <=? n) && (n <=? 222) && negb (n =? 215))
  then ascii_of_nat (n + 32) else c.

Fixpoint lower (s : string) : string :=
  match s with
  | EmptyString => EmptyString
  | String c s' => String (lower_char c) (lower s')
  end.

(** [s.split()]: the maximal runs of characters that are not white
    space.  [acc] is the word being read, reversed. *)
Fixpoint rev_string (acc s : string) : string :=
  match s with
  | EmptyString => acc
  | String c s' => rev_string (String c acc) s'
  end.

Definition flush (acc : string) (ws : list string) : list string :=
  match acc with
  | EmptyString => ws
  | _ => rev_string EmptyString acc :: ws
  end.

Fixpoint split_ws_aux (acc s : string) : list string :=
  match s with
  | EmptyString => flush acc []
  | String c s' =>
      if is_space c then flush acc (split_ws_aux EmptyString s')
      else split_ws_aux (String c acc) s'
  end.

Definition split_ws (s : string) : list string := split_ws_aux EmptyString s.

(** [s.split(sep)] for a one-character separator: never empty. *)
Fixpoint split_on (sep : ascii) (s : string) : list string :=
  match s with
  | EmptyString => [EmptyString]
  | String c s' =>
      if Ascii.eqb c sep then EmptyString :: split_on sep s'
      else match split_on sep s' with
           | [] => [String c EmptyString]
           | p :: ps => String c p :: ps
           end
  end.

(** [s.lstrip()], [s.rstrip()] and [s.strip()]. *)
Fixpoint lstrip (s : string) : string :=
  match s with
  | EmptyString => EmptyString
  | String c s' => if is_space c then lstrip s' else s
  end.

Fixpoint rstrip (s : string) : string :=
  match s with
  | EmptyString => EmptyString
  | String c s' =>
      match rstrip s' with
      | EmptyString => if is_space c then EmptyString else String c EmptyString
      | r => String c r
      end
  end.

Definition strip (s : string) : string := rstrip (lstrip s).

(** [c in s] for a character. *)
Fixpoint mem_char (c : ascii) (s : string) : bool :=
  match s with
  | EmptyString => false
  | String d s' => Ascii.eqb c d || mem_char c s'
  end.

Definition mem_string (w : string) (ws : list string) : bool :=
  existsb (String.eqb w) ws.

End PyStr.

(** ** The fragment of Python's [re] the program uses

    A backtracking matcher with ordered alternation and the lazy star of a
    one-character class, in continuation-passing style: [rmatch r k s]
    matches [r] at the start of [s] and hands the rest to [k]; the first
    success in priority order is the match, as in [re]. *)

Module Re.

Inductive cset : Type :=
| CChar (c : ascii)          (* a literal character *)
| CDot                       (* [.]: anything but a newline *)
| CSet (cs : string)         (* [[...]] *)
| CDigit.                    (* [\d] *)

Definition is_digit (c : ascii) : bool :=
  let n := nat_of_ascii c in (48 <=? n) && (n <=? 57).

Definition cset_mem (p : cset) (c : ascii) : bool :=
  match p with
  | CChar d => Ascii.eqb c d
  | CDot => negb (Ascii.eqb c "010"%char)
  | CSet cs => PyStr.mem_char c cs
  | CDigit => is_digit c
  end.

Inductive regex : Type :=
| RAtom (p : cset)
| RLazyStar (p : cset)       (* [p*?] *)
| RSeq (r1 r2 : regex)
| RAlt (r1 r2 : regex).

Fixpoint lazy_star (p : cset) (k : string -> option string) (s : string)
  : option string :=
  match k s with
  | Some rest => Some rest
  | None =>
      match s with
      | String c s' => if cset_mem p c then lazy_star p k s' else None
      | EmptyString => None
      end
  end.

Fixpoint rmatch (r : regex) (k : string -> option string) (s : string)
  : option string :=
  match r with
  | RAtom p =>
      match s with
      | String c s' => if cset_mem p c then k s' else None
      | EmptyString => None
      end
  | RLazyStar p => lazy_star p k s
  | RSeq r1 r2 => rmatch r1 (rmatch r2 k) s
  | RAlt r1 r2 =>
      match rmatch r1 k s with
      | Some rest => Some rest
      | None => rmatch r2 k s
      end
  end.

(** [pattern.match(s)]: what is left of [s] after the match. *)
Definition match_at (r : regex) (s : string) : option string :=
  rmatch r Some s.

(** [re.sub(r, repl, s)].  After a match that consumed something the
    scan goes on behind it; an empty match is replaced and the next
    character copied.  The fuel is the number of scan positions. *)
Fixpoint sub_from (fuel : nat) (r : regex) (repl s : string) : string :=
  match fuel with
  | O => s
  | S fuel' =>
      match match_at r s with
      | Some rest =>
          if String.length rest <? String.length s
          then (repl ++ sub_from fuel' r repl rest)%string
          else match s with
               | String c s' => (repl ++ String c (sub_from fuel' r repl s'))%string
               | EmptyString => repl
               end
      | None =>
          match s with
          | String c s' => String c (sub_from fuel' r repl s')
          | EmptyString => EmptyString
          end
      end
  end.

Definition sub (r : regex) (repl s : string) : string :=
  sub_from (S (String.length s)) r repl s.

(** The text of the match: the prefix of [s] that [rest] leaves. *)
Fixpoint take (n : nat) (s : string) : string :=
  match n, s with
  | S n', String c s' => String c (take n' s')
  | _, _ => EmptyString
  end.

(** [re.search(r, s)]: the leftmost match, as its text. *)
Fixpoint search (r : regex) (s : string) : option string :=
  match match_at r s with
  | Some rest => Some (take (String.length s - String.length rest) s)
  | None =>
      match s with
      | String _ s' => search r s'
      | EmptyString => None
      end
  end.

End Re.

(** ** [extract_tech] *)

Definition KNOWN_TECHS : list string :=
  [ "SAP"; "Clojure"; "C#"; "Java"; "C++"; "PHP"; "Python"; "JavaScript";
    "AWS"; "VHDL"; "COBOL"; "RPG"; "Delphi"; "Angular"; "TypeScript"; "Go";
    "Ruby"; "SQL"; "PL/SQL"; "ABAP"; "NodeJS"; "Flutter"; "Scala"; "Kotlin";
    "Rust"; ".NET"; "iOS"; "Android" ].

Definition IGNORE_WORDS : list string :=
  [ "softwareentwickler"; "entwickler"; "entwicklerin"; "entwickler/in";
    "software"; "programmierer"; "m/w/d"; "mwd"; ":in"; "leiter";
    "teamleitung"; "projektleiter"; "senior"; "junior"; "fullstack";
    "praktikum"; "student"; "werkstudent"; "trainee"; "dual"; "mit"; "in";
    "als" ].

(** The pattern [\(.*?\)|/.*?|[-,]] of the cleaning step. *)
Definition paren_alt : Re.regex :=
  Re.RSeq (Re.RAtom (Re.CChar "("%char))
          (Re.RSeq (Re.RLazyStar Re.CDot) (Re.RAtom (Re.CChar ")"%char))).

Definition slash_alt : Re.regex :=
  Re.RSeq (Re.RAtom (Re.CChar "/"%char)) (Re.RLazyStar Re.CDot).

Definition sep_alt : Re.regex := Re.RAtom (Re.CSet "-,").

Definition title_noise : Re.regex :=
  Re.RAlt paren_alt (Re.RAlt slash_alt sep_alt).

Definition clean_title (title : string) : string :=
  Re.sub title_noise " " title.

(** The two loops of [extract_tech].  [techs] is the order in which the
    set [KNOWN_TECHS] is enumerated, which Python leaves open. *)
Fixpoint scan_words (techs : list string) (words : list string) : string :=
  match words with
  | [] => "Other"
  | word :: rest =>
      if PyStr.mem_string word IGNORE_WORDS then scan_words techs rest
      else match find (fun tech => String.eqb word (PyStr.lower tech)) techs with
           | Some tech => tech
           | None => scan_words techs rest
           end
  end.

Definition extract_tech_in (techs : list string) (title : string) : string :=
  let words := PyStr.split_ws (PyStr.lower (clean_title title)) in
  scan_words techs words.

Definition extract_tech (title : string) : string :=
  extract_tech_in KNOWN_TECHS title.

(** ** Values read by [json.load] *)

(** A number is named by an integer, zero by 0: the importer stores and
    compares numbers and never computes with them (NaN, which compares
    unequal to itself, is left out).  A mapping keeps its pairs in file
    order; a key occurs once. *)
Inductive json : Type :=
| JNull
| JBool (b : bool)
| JNum (x : Z)
| JStr (s : string)
| JList (l : list json)
| JDict (kvs : list (string * json)).

(** [d.get(key)]: [None] of the option is the absent key. *)
Fixpoint dict_lookup (kvs : list (string * json)) (key : string) : option json :=
  match kvs with
  | [] => None
  | (k, v) :: rest => if String.eqb k key then Some v else dict_lookup rest key
  end.

(** [d.get(key, default)]. *)
Definition dict_get (kvs : list (string * json)) (key : string) (default : json)
  : json :=
  match dict_lookup kvs key with
  | Some v => v
  | None => default
  end.

(** [bool(v)]. *)
Definition truthy (v : json) : bool :=
  match v with
  | JNull => false
  | JBool b => b
  | JNum x => negb (Z.eqb x 0)
  | JStr s => negb (String.eqb s "")
  | JList l => match l with [] => false | _ => true end
  | JDict kvs => match kvs with [] => false | _ => true end
  end.

(** [v == s] for a string literal [s]: only an equal [str] is equal. *)
Definition eq_str (v : json) (s : string) : bool :=
  match v with
  | JStr t => String.eqb t s
  | _ => false
  end.

Fixpoint chars (s : string) : list json :=
  match s with
  | EmptyString => []
  | String c s' => JStr (String c EmptyString) :: chars s'
  end.

(** [iter(v)]: the elements a [for] loop or [list.extend] sees; [None]
    when [v] is not iterable (TypeError). *)
Definition iter_items (v : json) : option (list json) :=
  match v with
  | JList l => Some l
  | JDict kvs => Some (map (fun kv => JStr (fst kv)) kvs)
  | JStr s => Some (chars s)
  | _ => None
  end.

(** ** Dates: [datetime.strptime(s, "%Y-%m-%d").date()] *)

Record date : Type := mkDate { year : nat; month : nat; day : nat }.

Definition digit_val (c : ascii) : nat := nat_of_ascii c - 48.

Definition is_leap (y : nat) : bool :=
  ((y mod 4 =? 0) && negb (y mod 100 =? 0)) || (y mod 400 =? 0).

Definition days_in_month (y m : nat) : nat :=
  match m with
  | 2 => if is_leap y then 29 else 28
  | 4 | 6 | 9 | 11 => 30
  | _ => 31
  end.

(** The pattern [(\d{4}-\d{2}-\d{2})]. *)
Definition date_re : Re.regex :=
  let d := Re.RAtom Re.CDigit in
  let dash := Re.RAtom (Re.CChar "-"%char) in
  Re.RSeq d (Re.RSeq d (Re.RSeq d (Re.RSeq d (Re.RSeq dash
    (Re.RSeq d (Re.RSeq d (Re.RSeq dash (Re.RSeq d d)))))))).

(** [strptime] on a text that [date_re] matched: the year is 1..9999, the
    month 01..12 and the day one of that month; anything else raises
    ValueError ([None]). *)
Definition strptime (s : string) : option date :=
  match s with
  | String y1 (String y2 (String y3 (String y4 (String _
      (String m1 (String m2 (String _ (String d1 (String d2 EmptyString))))))))) =>
      let y := digit_val y1 * 1000 + digit_val y2 * 100
               + digit_val y3 * 10 + digit_val y4 in
      let m := digit_val m1 * 10 + digit_val m2 in
      let d := digit_val d1 * 10 + digit_val d2 in
      if (1 <=? y) && (1 <=? m) && (m <=? 12) && (1 <=? d)
         && (d <=? days_in_month y m)
      then Some (mkDate y m d) else None
  | _ => None
  end.

(** ** The store *)

(** Modelled from the spec: [models/Tech.py], [models/Location.py] and
    [models/BaseModel.py] are not in the source tree.  The spec has Tech
    deduplicated by name and Location by display name, and the importer
    and [data_loader.py] use exactly the fields [Tech.name] and
    [Location.display_name]; the primary key is peewee's implicit [id]. *)
Record Tech : Type := mkTech { tech_pk : nat; tech_name : string }.

Record Location : Type := mkLocation { loc_pk : nat; loc_display_name : string }.

(** [models/Job.py]: every column is NOT NULL but [date]. *)
Record Job : Type := mkJob {
  job_pk : nat;
  job_id : string;
  job_title : string;
  job_description : string;
  job_salary_is_predicted : bool;
  job_redirect_url : string;
  job_company : string;
  job_tech : nat;
  job_date : option date
}.

(** [models/JobLocation.py]: [district], [latitude] and [longitude] are
    nullable; no uniqueness constraint is declared. *)
Record JobLocation : Type := mkJobLocation {
  jl_pk : nat;
  jl_job : nat;
  jl_location : nat;
  jl_district : option string;
  jl_latitude : option Z;
  jl_longitude : option Z
}.

Record DB : Type := mkDB {
  techs : list Tech;
  locations : list Location;
  jobs : list Job;
  job_locations : list JobLocation
}.

Definition empty_db : DB := mkDB [] [] [] [].

(** SQLite's rowid for an INTEGER PRIMARY KEY: the largest one plus one. *)
Definition next_pk (pks : list nat) : nat := S (fold_right Nat.max 0 pks).

(** The row counts of the four tables: Job, Tech, Location, JobLocation. *)
Definition row_counts (db : DB) : nat * nat * nat * nat :=
  (length (jobs db), length (techs db), length (locations db),
   length (job_locations db)).

(** ** Exceptions and the store monad *)

Inductive exn : Type :=
| IntegrityError      (* peewee: a NOT NULL constraint failed *)
| AttributeError      (* [.get] or [.split] on a value that has none *)
| ValueError.         (* [float(v)] refused [v] (ValueError or TypeError) *)

Inductive res (A : Type) : Type :=
| Ret (a : A)
| Raise (e : exn).

Arguments Ret {A} a.
Arguments Raise {A} e.

(** A statement sequence over the store: what was written before an
    exception stays written (peewee runs in autocommit). *)
Definition M (A : Type) : Type := DB -> DB * res A.

Definition ret {A} (a : A) : M A := fun db => (db, Ret a).

Definition raise {A} (e : exn) : M A := fun db => (db, Raise e).

Definition bind {A B} (m : M A) (f : A -> M B) : M B :=
  fun db =>
    match m db with
    | (db', Ret a) => f a db'
    | (db', Raise e) => (db', Raise e)
    end.

Notation "x <- m ;; k" := (bind m (fun x => k))
  (at level 61, m at next level, right associativity).
Notation "' pat <- m ;; k" := (bind m (fun x => match x with pat => k end))
  (at level 61, pat pattern, m at next level, right associativity).

(** ** The importer: [import_jobs_from_json] *)

Inductive log_entry : Type :=
| WarnNoDate (json_path : string)       (* "Failed to extract date from ..." *)
| WarnIntegrity (id : option json)      (* "IntegrityError for job ..." *)
| ExcRecord (id : option json)          (* "Error processing job ..." *)
| InfoCompleted                         (* "Job import completed successfully." *)
| ErrNotFound (json_path : string)      (* "JSON file not found: ..." *)
| ErrDecode (json_path : string)        (* "Failed to decode JSON: ..." *)
| ExcUnexpected (json_path : string).   (* "Unexpected error while importing ..." *)

(** What [open] and [json.load] find at a path. *)
Inductive file : Type :=
| NoFile                                (* FileNotFoundError *)
| Unreadable                            (* another OSError, or UnicodeDecodeError *)
| NotJson                               (* json.JSONDecodeError *)
| Json (v : json).

(** The report the specification asks [import_snapshot] to return. *)
Record ImportReport : Type := mkReport {
  records_seen : nat;
  jobs_created : nat;
  jobs_updated : nat;
  job_locations_created : nat;
  job_locations_updated : nat;
  records_skipped : list (option json * exn)
}.

(** The attributes set on a [Job] object before it is written. *)
Record job_args : Type := mkArgs {
  a_title : json;
  a_description : json;
  a_salary_is_predicted : bool;
  a_redirect_url : json;
  a_company : json;
  a_tech : Tech
}.

(** [display_name.split(",")], each part stripped, and the choice of
    district and city (lines 141-145). *)
Definition split_location (display_name : string) : option string * string :=
  let parts := map PyStr.strip (PyStr.split_on ","%char display_name) in
  match parts with
  | [district_name; city_name] => (Some district_name, city_name)
  | _ => (None, hd EmptyString parts)
  end.

Section Importer.

(** Two conversions of Python that peewee applies when a value is bound
    to a column, left open: [str(v)] of a value that is not a [str]
    (CharField, TextField), and [float(v)] of a value that is neither
    [None] nor a number (FloatField), [None] when it raises.  The payload
    has strings in the text fields and numbers in the coordinates; the
    conversions make the importer total on every other value, too.  (One
    case is left aside: a list bound in a WHERE clause, which peewee
    expands to a row of values.) *)
Variable text_of : json -> string.
Variable float_of : json -> option Z.

(** The value bound to a text column; [None] is SQL NULL. *)
Definition char_value (v : json) : option string :=
  match v with
  | JNull => None
  | JStr s => Some s
  | _ => Some (text_of v)
  end.

(** The value bound to a float column. *)
Definition float_value (v : json) : res (option Z) :=
  match v with
  | JNull => Ret None
  | JNum x => Ret (Some x)
  | _ => match float_of v with
         | Some x => Ret (Some x)
         | None => Raise ValueError
         end
  end.

(** [stored != v] for a stored coordinate and an incoming value. *)
Definition differs (stored : option Z) (v : json) : bool :=
  match stored, v with
  | None, JNull => false
  | None, _ => true
  | Some a, JNum b => negb (Z.eqb a b)
  | Some a, JBool _ =>
      match float_of v with
      | Some b => negb (Z.eqb a b)
      | None => true
      end
  | Some _, _ => true
  end.

(** [Tech.get_or_create(name=name)]. *)
Definition Tech_get_or_create (name : string) : M (Tech * bool) :=
  fun db =>
    match find (fun t => String.eqb (tech_name t) name) (techs db) with
    | Some t => (db, Ret (t, false))
    | None =>
        let t := mkTech (next_pk (map tech_pk (techs db))) name in
        (mkDB (techs db ++ [t]) (locations db) (jobs db) (job_locations db),
         Ret (t, true))
    end.

(** [Location.get_or_create(display_name=name)]. *)
Definition Location_get_or_create (name : string) : M (Location * bool) :=
  fun db =>
    match find (fun l => String.eqb (loc_display_name l) name) (locations db) with
    | Some l => (db, Ret (l, false))
    | None =>
        let l := mkLocation (next_pk (map loc_pk (locations db))) name in
        (mkDB (techs db) (locations db ++ [l]) (jobs db) (job_locations db),
         Ret (l, true))
    end.

(** [Job.select().where(Job.job_id == v).get()]: [== None] is IS NULL,
    which no row of a NOT NULL column meets. *)
Definition Job_get (v : json) (db : DB) : option Job :=
  match char_value v with
  | Some k => find (fun j => String.eqb (job_id j) k) (jobs db)
  | None => None
  end.

(** The row an INSERT or UPDATE binds, or the NOT NULL violation. *)
Definition job_row (pk : nat) (id : option string) (a : job_args)
           (d : option date) : option Job :=
  match id, char_value (a_title a), char_value (a_description a),
        char_value (a_redirect_url a), char_value (a_company a) with
  | Some i, Some t, Some de, Some u, Some c =>
      Some (mkJob pk i t de (a_salary_is_predicted a) u c
                  (tech_pk (a_tech a)) d)
  | _, _, _, _, _ => None
  end.

(** [Job.get_or_create(job_id=v, defaults={...})].  When the INSERT
    fails peewee looks the key up once more and, as it is still not
    there, re-raises. *)
Definition Job_get_or_create (v : json) (a : job_args) (d : option date)
  : M (Job * bool) :=
  fun db =>
    match Job_get v db with
    | Some j => (db, Ret (j, false))
    | None =>
        match job_row (next_pk (map job_pk (jobs db))) (char_value v) a d with
        | Some j =>
            (mkDB (techs db) (locations db) (jobs db ++ [j]) (job_locations db),
             Ret (j, true))
        | None => (db, Raise IntegrityError)
        end
    end.

(** Lines 127-133: the six assignments and [job.save()], an UPDATE of
    every column of the row with the object's primary key.  [job_id]
    and [date] are written back as they were loaded. *)
Definition Job_update (job : Job) (a : job_args) : M unit :=
  fun db =>
    match job_row (job_pk job) (Some (job_id job)) a (job_date job) with
    | Some j' =>
        (mkDB (techs db) (locations db)
              (map (fun j => if job_pk j =? job_pk job then j' else j) (jobs db))
              (job_locations db),
         Ret tt)
    | None => (db, Raise IntegrityError)
    end.

(** The WHERE clause of lines 150-153. *)
Definition district_matches (stored district_name : option string) : bool :=
  match stored, district_name with
  | Some s, Some d => String.eqb s d
  | None, None => true
  | _, _ => false
  end.

Definition job_loc_matches (job : Job) (city : Location)
           (district_name : option string) (jl : JobLocation) : bool :=
  (jl_job jl =? job_pk job) && (jl_location jl =? loc_pk city)
  && district_matches (jl_district jl) district_name.

Definition JobLocation_first (job : Job) (city : Location)
           (district_name : option string) (db : DB) : option JobLocation :=
  find (job_loc_matches job city district_name) (job_locations db).

Definition is_none (v : json) : bool :=
  match v with JNull => true | _ => false end.

(** Lines 157-165: the two guarded assignments and the [save()], which
    binds an assigned coordinate through the float column. *)
Definition JobLocation_update (jl : JobLocation) (latitude longitude : json)
  : M bool :=
  fun db =>
    let set_lat := negb (is_none latitude) && differs (jl_latitude jl) latitude in
    let set_lon := negb (is_none longitude) && differs (jl_longitude jl) longitude in
    if set_lat || set_lon then
      match (if set_lat then float_value latitude else Ret (jl_latitude jl)),
            (if set_lon then float_value longitude else Ret (jl_longitude jl)) with
      | Ret la, Ret lo =>
          let jl' := mkJobLocation (jl_pk jl) (jl_job jl) (jl_location jl)
                                   (jl_district jl) la lo in
          (mkDB (techs db) (locations db) (jobs db)
                (map (fun r => if jl_pk r =? jl_pk jl then jl' else r)
                     (job_locations db)),
           Ret true)
      | _, _ => (db, Raise ValueError)
      end
    else (db, Ret false).

(** [JobLocation.create(...)], lines 167-173. *)
Definition JobLocation_create (job : Job) (city : Location)
           (district_name : option string) (latitude longitude : json)
  : M unit :=
  fun db =>
    match float_value latitude, float_value longitude with
    | Ret la, Ret lo =>
        let jl := mkJobLocation (next_pk (map jl_pk (job_locations db)))
                                (job_pk job) (loc_pk city) district_name la lo in
        (mkDB (techs db) (locations db) (jobs db) (job_locations db ++ [jl]),
         Ret tt)
    | _, _ => (db, Raise ValueError)
    end.

(** [v.get(key, default)] on a value that may not be a mapping. *)
Definition attr_get (v : json) (key : string) (default : json) : M json :=
  match v with
  | JDict kvs => ret (dict_get kvs key default)
  | _ => raise AttributeError
  end.

(** [extract_tech] on whatever [job_data.get("title", "")] gave: on a
    value that is not a [str], [re.sub] raises TypeError, which the
    function catches. *)
Definition extract_tech_value (title : json) : string :=
  match title with
  | JStr s => extract_tech s
  | _ => "Other"
  end.

(** Lines 104-133 of the loop body, on a mapping: the fields, the Tech
    and the Job.  Only the primary key of the [job] it hands on is read
    afterwards. *)
Definition upsert_job (job_date : option date)
           (job_data : list (string * json)) : M Job :=
  let job_id := dict_get job_data "id" JNull in
  let title := dict_get job_data "title" (JStr "") in
  let description := dict_get job_data "description" (JStr "") in
  let salary_is_predicted :=
    eq_str (dict_get job_data "salary_is_predicted" JNull) "1" in
  let redirect_url := dict_get job_data "redirect_url" (JStr "") in
  company <- attr_get (dict_get job_data "company" (JDict [])) "display_name"
                      (JStr "") ;;
  let tech_name :=
    let t := extract_tech_value title in
    if String.eqb t "" then "Other" else t in
  '(tech, _) <- Tech_get_or_create tech_name ;;
  let args := mkArgs title description salary_is_predicted redirect_url
                     company tech in
  '(job, created) <- Job_get_or_create job_id args job_date ;;
  _ <- (if created then ret tt else Job_update job args) ;;
  ret job.

(** Lines 135-173: the Location and the JobLocation of [job]. *)
Definition upsert_location (job : Job) (job_data : list (string * json))
  : M unit :=
  display_name <- attr_get (dict_get job_data "location" (JDict []))
                           "display_name" JNull ;;
  let latitude := dict_get job_data "latitude" JNull in
  let longitude := dict_get job_data "longitude" JNull in
  if truthy display_name && negb (eq_str display_name "Deutschland") then
    match display_name with
    | JStr s =>
        let '(district_name, city_name) := split_location s in
        '(city_location, _) <- Location_get_or_create city_name ;;
        fun db =>
          match JobLocation_first job city_location district_name db with
          | Some job_loc_query =>
              (_ <- JobLocation_update job_loc_query latitude longitude ;;
               ret tt) db
          | None =>
              JobLocation_create job city_location district_name
                                 latitude longitude db
          end
    | _ => raise AttributeError
    end
  else ret tt.

(** The body of the [for] loop, lines 104-173, on a mapping. *)
Definition process_record (job_date : option date)
           (job_data : list (string * json)) : M unit :=
  job <- upsert_job job_date job_data ;;
  upsert_location job job_data.

(** The [for] loop with its two handlers.  An element that is not a
    mapping raises AttributeError at [job_data.get("id")], and once more
    inside the handler that formats the message: that one leaves the
    loop ([false]). *)
Fixpoint import_loop (job_date : option date) (jobs_data : list json)
         (db : DB) (log : list log_entry) : DB * list log_entry * bool :=
  match jobs_data with
  | [] => (db, log, true)
  | JDict job_data :: rest =>
      match process_record job_date job_data db with
      | (db', Ret _) => import_loop job_date rest db' log
      | (db', Raise IntegrityError) =>
          import_loop job_date rest db'
                      (log ++ [WarnIntegrity (dict_lookup job_data "id")])
      | (db', Raise _) =>
          import_loop job_date rest db'
                      (log ++ [ExcRecord (dict_lookup job_data "id")])
      end
  | _ :: _ => (db, log, false)
  end.

(** [import_jobs_from_json(json_path)] over the files [fs] and the
    store [db]: the store, the log and the value returned, which is
    Python's [None] on every path (the function has no [return]). *)
Definition import_jobs_from_json (fs : string -> file) (json_path : string)
           (db : DB) : DB * list log_entry * option ImportReport :=
  match
    match Re.search date_re json_path with
    | Some text =>
        match strptime text with
        | Some d => Ret (Some d)
        | None => Raise ValueError
        end
    | None => Ret None
    end
  with
  | Raise _ => (db, [ExcUnexpected json_path], None)
  | Ret job_date =>
      let log :=
        match job_date with
        | None => [WarnNoDate json_path]
        | Some _ => []
        end in
      match fs json_path with
      | NoFile => (db, log ++ [ErrNotFound json_path], None)
      | Unreadable => (db, log ++ [ExcUnexpected json_path], None)
      | NotJson => (db, log ++ [ErrDecode json_path], None)
      | Json jobs_data =>
          match iter_items jobs_data with
          | None => (db, log ++ [ExcUnexpected json_path], None)
          | Some items =>
              match import_loop job_date items db log with
              | (db', log', true) => (db', log' ++ [InfoCompleted], None)
              | (db', log', false) =>
                  (db', log' ++ [ExcUnexpected json_path], None)
              end
          end
      end
  end.

End Importer.

(** ** The fetcher: [fetch_jobs] *)

(** What one [requests.get] of a page comes to. *)
Inductive response : Type :=
| RequestException        (* raised by [get] or by [raise_for_status] *)
| BadBody                 (* [response.json()] raises: the body is not JSON *)
| Body (data : json).

Inductive event : Type :=
| Get (page : nat)                       (* requests.get(url.format(page)) *)
| Sleep (seconds : nat)                  (* sleep_func(1) *)
| LogRequestError                        (* logger.error("Request Error: ...") *)
| LogNoMoreJobs                          (* logger.info("No more jobs found ...") *)
| LogPageLoaded (page count : nat)       (* logger.info("Page loaded ...") *)
| PrintTotal (count : nat)               (* print("Total vacancies loaded: ...") *)
| LogWriteError                          (* logger.error("Error writing file: ...") *)
| LogException.                          (* logger.exception("An error occurred: ...") *)

Record fetch_env : Type := mkEnv {
  app_id : option string;                (* os.getenv("ADZUNA_APP_ID") *)
  app_key : option string;
  api : nat -> response;                 (* the search endpoint, by page *)
  current_date : string;                 (* datetime.now().strftime("%Y-%m-%d") *)
  can_write : bool                       (* [open(filename, "w")] and the dump succeed *)
}.

Inductive loop_exit : Type :=
| Break (all_jobs : list json)           (* one of the two [break]s *)
| Crash.                                 (* an exception left the loop *)

(** The [while True] loop, lines 50-77.  [None] is the loop still running
    when the fuel is spent. *)
Fixpoint fetch_pages (fuel : nat) (api : nat -> response) (page : nat)
         (all_jobs : list json) (tr : list event)
  : option (loop_exit * list event) :=
  match fuel with
  | O => None
  | S fuel' =>
      match api page with
      | RequestException => Some (Break all_jobs, tr ++ [Get page; LogRequestError])
      | BadBody => Some (Crash, tr ++ [Get page])
      | Body (JDict data) =>
          let jobs := dict_get data "results" (JList []) in
          if negb (truthy jobs)
          then Some (Break all_jobs, tr ++ [Get page; LogNoMoreJobs])
          else match iter_items jobs with
               | Some items =>
                   fetch_pages fuel' api (S page) (all_jobs ++ items)
                     (tr ++ [Get page; LogPageLoaded page (length items); Sleep 1])
               | None => Some (Crash, tr ++ [Get page])
               end
      | Body _ => Some (Crash, tr ++ [Get page])
      end
  end.

Record fetch_result : Type := mkResult {
  returned : option string;                    (* the filename, or None *)
  written : option (string * list json);       (* the artifact and its content *)
  events : list event
}.

Definition falsy_str (v : option string) : bool :=
  match v with
  | None => true
  | Some s => String.eqb s ""
  end.

Definition fetch_jobs (fuel : nat) (env : fetch_env) : option fetch_result :=
  if falsy_str (app_id env) || falsy_str (app_key env)
  then Some (mkResult None None [LogException])
  else
    match fetch_pages fuel (api env) 1 [] [] with
    | None => None
    | Some (Crash, tr) => Some (mkResult None None (tr ++ [LogException]))
    | Some (Break all_jobs, tr) =>
        let filename := ("all_jobs_" ++ current_date env ++ ".json")%string in
        if can_write env
        then Some (mkResult (Some filename) (Some (filename, all_jobs))
                            (tr ++ [PrintTotal (length all_jobs)]))
        else Some (mkResult None None
                            (tr ++ [PrintTotal (length all_jobs); LogWriteError]))
    end.

(** The pages requested, in order. *)
Definition requests (tr : list event) : list nat :=
  flat_map (fun e => match e with Get p => [p] | _ => [] end) tr.


(** ** Notions the statements use *)

(** The tokens of a title: steps 1 and 2 of the classifier. *)
Definition title_tokens (title : string) : list string :=
  PyStr.split_ws (PyStr.lower (clean_title title)).

(** A token names a vocabulary member when it is its lower-cased form. *)
Definition names_tech (word tech : string) : Prop :=
  In tech KNOWN_TECHS /\ word = PyStr.lower tech.

Definition no_tech (word : string) : Prop :=
  forall tech, ~ names_tech word tech.

Fixpoint map_chars (f : ascii -> ascii) (s : string) : string :=
  match s with
  | EmptyString => EmptyString
  | String c s' => String (f c) (map_chars f s')
  end.

(** A slash, a hyphen or a comma becomes one space. *)
Definition noise_to_space (c : ascii) : ascii :=
  if PyStr.mem_char c "/-," then " "%char else c.

(** The identity of a Job row and of a JobLocation row. *)
Definition job_key (j : Job) : nat * string := (job_pk j, job_id j).

Definition jl_key (jl : JobLocation) : nat * nat * option string :=
  (jl_job jl, jl_location jl, jl_district jl).

(** The primary keys SQLite keeps unique. *)
Definition wf (db : DB) : Prop :=
  NoDup (map job_pk (jobs db)) /\ NoDup (map jl_pk (job_locations db)).

(** At most one JobLocation per (job, location, district). *)
Definition distinct_job_locations (db : DB) : Prop :=
  NoDup (map jl_key (job_locations db)).

(** [db'] holds the rows of [db], in place and with their identity, and
    new rows behind them. *)
Definition ext (db db' : DB) : Prop :=
  (exists x, techs db' = techs db ++ x)
  /\ (exists x, locations db' = locations db ++ x)
  /\ (exists x, map job_key (jobs db') = map job_key (jobs db) ++ x)
  /\ (exists x, map jl_key (job_locations db') = map jl_key (job_locations db) ++ x).

Section Notions.

Variable text_of : json -> string.
Variable float_of : json -> option Z.

Definition rec_id (job_data : list (string * json)) : json :=
  dict_get job_data "id" JNull.

Definition rec_company (job_data : list (string * json)) : json :=
  dict_get job_data "company" (JDict []).

Definition rec_tech_name (job_data : list (string * json)) : string :=
  let t := extract_tech_value (dict_get job_data "title" (JStr "")) in
  if String.eqb t "" then "Other" else t.

Definition rec_args (job_data : list (string * json)) (company : json)
           (tech : Tech) : job_args :=
  mkArgs (dict_get job_data "title" (JStr ""))
         (dict_get job_data "description" (JStr ""))
         (eq_str (dict_get job_data "salary_is_predicted" JNull) "1")
         (dict_get job_data "redirect_url" (JStr ""))
         company tech.

Definition rec_display_name (job_data : list (string * json)) : option json :=
  match dict_get job_data "location" (JDict []) with
  | JDict loc => Some (dict_get loc "display_name" JNull)
  | _ => None
  end.

(** The Job of the record can be written: the company is a mapping and
    no NOT NULL column would get a null. *)
Definition storable (job_data : list (string * json)) : bool :=
  match rec_company job_data with
  | JDict c =>
      negb (is_none (rec_id job_data))
      && negb (is_none (dict_get job_data "title" (JStr "")))
      && negb (is_none (dict_get job_data "description" (JStr "")))
      && negb (is_none (dict_get job_data "redirect_url" (JStr "")))
      && negb (is_none (dict_get c "display_name" (JStr "")))
  | _ => false
  end.

(** The coordinates of the record can be bound to the float columns. *)
Definition coords_ok (job_data : list (string * json)) : bool :=
  match float_value float_of (dict_get job_data "latitude" JNull),
        float_value float_of (dict_get job_data "longitude" JNull) with
  | Ret _, Ret _ => true
  | _, _ => false
  end.

(** The record has a location to store: a [str] that is neither empty
    nor "Deutschland". *)
Definition rec_location (job_data : list (string * json)) : option string :=
  match rec_display_name job_data with
  | Some (JStr s) =>
      if negb (String.eqb s "") && negb (String.eqb s "Deutschland")
      then Some s else None
  | _ => None
  end.

(** Nothing is left to create for the location of the record. *)
Definition location_sat (job : Job) (job_data : list (string * json))
           (db : DB) : Prop :=
  match rec_location job_data with
  | Some s =>
      exists city,
        find (fun l => String.eqb (loc_display_name l) (snd (split_location s)))
             (locations db) = Some city
        /\ (coords_ok job_data = false
            \/ exists jl,
                JobLocation_first job city (fst (split_location s)) db = Some jl)
  | None => True
  end.

(** Nothing is left to create for the record. *)
Definition sat (db : DB) (job_data : list (string * json)) : Prop :=
  (forall c, rec_company job_data = JDict c ->
             exists t, find (fun t => String.eqb (tech_name t) (rec_tech_name job_data))
                            (techs db) = Some t)
  /\ (storable job_data = false
      \/ exists j, Job_get text_of (rec_id job_data) db = Some j
                   /\ location_sat j job_data db).

(** The store after the loop of the importer. *)
Definition loop_db (job_date : option date) (jobs_data : list json) (db : DB)
  : DB :=
  fst (fst (import_loop text_of float_of job_date jobs_data db [])).

(** The store after [import_jobs_from_json]. *)
Definition imported (fs : string -> file) (json_path : string) (db : DB) : DB :=
  fst (fst (import_jobs_from_json text_of float_of fs json_path db)).

End Notions.


(** The row of the record's Job as its fields bind it: the text columns,
    the flag and the Tech. *)
Definition stored_from (text_of : json -> string) (a : job_args) (j : Job) : Prop :=
  char_value text_of (a_title a) = Some (job_title j)
  /\ char_value text_of (a_description a) = Some (job_description j)
  /\ job_salary_is_predicted j = a_salary_is_predicted a
  /\ char_value text_of (a_redirect_url a) = Some (job_redirect_url j)
  /\ char_value text_of (a_company a) = Some (job_company j)
  /\ job_tech j = tech_pk (a_tech a).


Section Coordinates.

Variable float_of : json -> option Z.

(** The two guards of lines 158 and 161. *)
Definition set_coord (stored : option Z) (incoming : json) : bool :=
  negb (is_none incoming) && differs float_of stored incoming.

(** The coordinate a re-import leaves in a row that exists. *)
Definition new_coord (stored : option Z) (incoming : json) : res (option Z) :=
  if set_coord stored incoming then float_value float_of incoming
  else Ret stored.

End Coordinates.


(** The records the loop of the importer processes: the mappings in front
    of the first element that is none. *)
Fixpoint processed (jobs_data : list json) : list (list (string * json)) :=
  match jobs_data with
  | JDict job_data :: rest => job_data :: processed rest
  | _ => []
  end.


(** ** A sample snapshot *)

(** An instance of the two conversions for the examples: the numbers are
    named by themselves, [True] and [False] are the numbers 1 and 0 and no
    string is taken for a number; the text of a list or of a mapping is
    abridged. *)
Definition sample_text_of (v : json) : string :=
  match v with
  | JNull => "None"
  | JBool true => "True"
  | JBool false => "False"
  | JNum x => NilZero.string_of_int (Z.to_int x)
  | JStr s => s
  | JList _ => "[...]"
  | JDict _ => "{...}"
  end.

Definition sample_float_of (v : json) : option Z :=
  match v with
  | JBool true => Some 1%Z
  | JBool false => Some 0%Z
  | _ => None
  end.

Definition posting (id title flag : json) (place : string) (lat lon : json)
  : json :=
  JDict [ ("id", id); ("title", title); ("description", JStr "Test job");
          ("salary_is_predicted", flag);
          ("redirect_url", JStr "http://example.com");
          ("company", JDict [("display_name", JStr "ExampleCo")]);
          ("location", JDict [("display_name", JStr place)]);
          ("latitude", lat); ("longitude", lon) ].

(** Four postings: two sightings of job_1 in two districts of Berlin, one
    posting without an identifier, one placed in "Deutschland". *)
Definition sample_snapshot : json :=
  JList [ posting (JStr "job_1") (JStr "Python Developer") (JStr "0")
                  "Mitte, Berlin" (JNum 5252) (JNum 13405);
          posting (JStr "job_1") (JStr "Senior Python Entwickler") (JStr "1")
                  "Berlin" (JNum 5250) JNull;
          posting JNull (JStr "Java Developer") (JStr "0")
                  "Hamburg" JNull JNull;
          posting (JNum 7) (JStr "Unknown Role") (JBool true)
                  "Deutschland" JNull JNull ].

Definition sample_fs (snapshot : json) (json_path : string) : file :=
  if String.eqb json_path "missing.json" then NoFile else Json snapshot.

Definition sample_path : string := "all_jobs_2025-09-08.json".

(** The store after the sample snapshot was imported into an empty one. *)
Definition sample_db : DB :=
  imported sample_text_of sample_float_of (sample_fs sample_snapshot)
           sample_path empty_db.


(** ** Pages of the search endpoint *)

(** The postings of a page that keeps the loop going: the body is a
    mapping and its "results" are truthy and iterable. *)
Definition page_jobs (r : response) : option (list json) :=
  match r with
  | Body (JDict data) =>
      let jobs := dict_get data "results" (JList []) in
      if truthy jobs then iter_items jobs else None
  | _ => None
  end.

(** A page whose result list is empty, or absent. *)
Definition page_empty (r : response) : bool :=
  match r with
  | Body (JDict data) => negb (truthy (dict_get data "results" (JList [])))
  | _ => false
  end.

(** A page that stops the pagination: its result list is empty or its
    request failed; and what the loop logs there. *)
Definition page_stops (r : response) : option event :=
  match r with
  | RequestException => Some LogRequestError
  | _ => if page_empty r then Some LogNoMoreJobs else None
  end.

(** The postings of the [n] pages from [first] on. *)
Definition collect (api : nat -> response) (first n : nat) : list json :=
  flat_map (fun q => match page_jobs (api q) with
                     | Some items => items
                     | None => []
                     end) (seq first n).

(** What the loop does on the [n] pages from [first] on when each keeps it
    going: the request, the log entry and the pause. *)
Definition page_events (api : nat -> response) (first n : nat) : list event :=
  flat_map (fun q => match page_jobs (api q) with
                     | Some items => [Get q; LogPageLoaded q (length items); Sleep 1]
                     | None => []
                     end) (seq first n).

(** The fake endpoint of the test: two postings on page 1, none after. *)
Definition fake_api (page : nat) : response :=
  if page =? 1
  then Body (JDict [("results",
               JList [JDict [("title", JStr "Softwareentwickler");
                             ("company", JDict [("display_name", JStr "ABC GmbH")])];
                      JDict [("title", JStr "Junior Developer");
                             ("company", JDict [("display_name", JStr "XYZ AG")])]])])
  else Body (JDict [("results", JList [])]).

Definition fake_env : fetch_env :=
  mkEnv (Some "fake_id") (Some "fake_key") fake_api "2025-09-08" true.


(** No string occurs twice in the list. *)
Fixpoint nodupb (l : list string) : bool :=
  match l with
  | [] => true
  | x :: l' => negb (PyStr.mem_string x l') && nodupb l'
  end.

(** The character map [f] leaves every character class of [r] as it is. *)
Fixpoint atoms_respected (f : ascii -> ascii) (r : Re.regex) : Prop :=
  match r with
  | Re.RAtom p | Re.RLazyStar p => forall c, Re.cset_mem p (f c) = Re.cset_mem p c
  | Re.RSeq r1 r2 | Re.RAlt r1 r2 => atoms_respected f r1 /\ atoms_respected f r2
  end.


(** ** Consistency of the store *)

(** No two Techs of a name, no two Locations of a name, no two Jobs of an
    external identifier. *)
Definition tech_names_unique (db : DB) : Prop :=
  NoDup (map tech_name (techs db)).

Definition location_names_unique (db : DB) : Prop :=
  NoDup (map loc_display_name (locations db)).

Definition job_ids_unique (db : DB) : Prop :=
  NoDup (map job_id (jobs db)).

(** Every foreign key names a row: the Tech of a Job, the Job and the
    Location of a JobLocation. *)
Definition fk_valid (db : DB) : Prop :=
  (forall j, In j (jobs db) -> In (job_tech j) (map tech_pk (techs db)))
  /\ (forall jl, In jl (job_locations db) ->
                 In (jl_job jl) (map job_pk (jobs db))
                 /\ In (jl_location jl) (map loc_pk (locations db))).

(** Every Tech carries a label of the classifier. *)
Definition labels_closed (db : DB) : Prop :=
  forall t, In t (techs db) -> In (tech_name t) ("Other" :: KNOWN_TECHS).

(** The date [import_jobs_from_json] gives the Jobs it creates: the one
    the path holds, when it holds one. *)
Definition path_date (json_path : string) : option date :=
  match Re.search date_re json_path with
  | Some text => strptime text
  | None => None
  end.


(** ** The date in the name of the artifact *)

Definition digit_char (n : nat) : ascii := ascii_of_nat (48 + n mod 10).

Definition two_digits (n : nat) : string :=
  String (digit_char (n / 10)) (String (digit_char n) EmptyString).

Definition four_digits (n : nat) : string :=
  String (digit_char (n / 1000)) (String (digit_char (n / 100))
    (String (digit_char (n / 10)) (String (digit_char n) EmptyString))).

(** [d.strftime("%Y-%m-%d")] for a year of four digits. *)
Definition strftime (d : date) : string :=
  (four_digits (year d) ++ String "-" (two_digits (month d))
   ++ String "-" (two_digits (day d)))%string.

(** A date of the calendar with a year of four digits. *)
Definition calendar_date (d : date) : Prop :=
  1000 <= year d <= 9999 /\ 1 <= month d <= 12
  /\ 1 <= day d <= days_in_month (year d) (month d).

(** The name [fetch_jobs] gives its artifact (lines 82-83). *)
Definition artifact_name (current_date : string) : string :=
  ("all_jobs_" ++ current_date ++ ".json")%string.


(** A page that ends [fetch_jobs] with an exception: its body is not JSON
    or not a mapping, or its "results" are truthy and not iterable. *)
Definition page_crashes (r : response) : bool :=
  match r with
  | RequestException => false
  | BadBody => true
  | Body (JDict data) =>
      let jobs := dict_get data "results" (JList []) in
      truthy jobs && match iter_items jobs with Some _ => false | None => true end
  | Body _ => true
  end.

(** ** The scheduled job: [scheduler.job] *)

Inductive sched_entry : Type :=
| InfoStarted            (* "Vacancy import started..." *)
| ErrFetchFailed         (* "Job fetching failed. Skipping import." *)
| InfoTablesCreated      (* "Tables created successfully." *)
| InfoFinished.          (* "Vacancy import finished successfully!" *)

(** The files once [fetch_jobs] has written its artifact: [json.load]
    reads back the list [json.dump] wrote. *)
Definition write_artifact (fs : string -> file)
           (w : option (string * list json)) : string -> file :=
  match w with
  | Some (name, all_jobs) =>
      fun p => if String.eqb p name then Json (JList all_jobs) else fs p
  | None => fs
  end.

(** What one run of [job] leaves: the store, the files, and the three
    logs. *)
Record job_run : Type := mkRun {
  run_db : DB;
  run_files : string -> file;
  run_fetch : list event;
  run_import : list log_entry;
  run_sched : list sched_entry
}.

(** [create_tables()] on a store that is open: [safe=True] creates a
    table only if it is missing, and no row changes. *)
Definition create_tables (db : DB) : DB * list sched_entry :=
  (db, [InfoTablesCreated]).

Section Scheduler.

Variable text_of : json -> string.
Variable float_of : json -> option Z.

(** [job()], lines 8-24.  [None] is the pagination still running when the
    fuel is spent. *)
Definition job (fuel : nat) (env : fetch_env) (fs : string -> file) (db : DB)
  : option job_run :=
  match fetch_jobs fuel env with
  | None => None
  | Some res =>
      let fs' := write_artifact fs (written res) in
      match returned res with
      | Some filename =>
          if String.eqb filename ""
          then Some (mkRun db fs' (events res) [] [InfoStarted; ErrFetchFailed])
          else
            let '(db1, l1) := create_tables db in
            let '(db2, log, _) :=
              import_jobs_from_json text_of float_of fs' filename db1 in
            Some (mkRun db2 fs' (events res) log
                        ([InfoStarted] ++ l1 ++ [InfoFinished]))
      | None => Some (mkRun db fs' (events res) [] [InfoStarted; ErrFetchFailed])
      end
  end.

End Scheduler.


(** ** The loader of the dashboard: [load_jobs] *)

(** A row of the query: the ten columns it selects. *)
Record frame_row : Type := mkRow {
  r_date : option date;
  r_title : string;
  r_company : string;
  r_salary_is_predicted : bool;
  r_redirect_url : string;
  r_latitude : option Z;
  r_longitude : option Z;
  r_city : string;
  r_district : option string;
  r_tech : string
}.

Definition joined_row (j : Job) (jl : JobLocation) (l : Location) (t : Tech)
  : frame_row :=
  mkRow (job_date j) (job_title j) (job_company j) (job_salary_is_predicted j)
        (job_redirect_url j) (jl_latitude jl) (jl_longitude jl)
        (loc_display_name l) (jl_district jl) (tech_name t).

(** The WHERE clause: [Tech.name != "Other"] and
    [Location.display_name != "Deutschland"]. *)
Definition shown (t : Tech) (l : Location) : bool :=
  negb (String.eqb (tech_name t) "Other")
  && negb (String.eqb (loc_display_name l) "Deutschland").

(** The rows of the query, lines 34-56: Job joined to JobLocation on the
    Job, that to Location on the Location, and Job to Tech on the Tech,
    behind the WHERE clause.  The query has no ORDER BY: the order of the
    list is the one of nested scans, and SQLite is free to give another. *)
Definition query_rows (db : DB) : list frame_row :=
  flat_map (fun j =>
    flat_map (fun jl =>
      if jl_job jl =? job_pk j then
        flat_map (fun l =>
          if jl_location jl =? loc_pk l then
            flat_map (fun t =>
              if job_tech j =? tech_pk t then
                if shown t l then [joined_row j jl l t] else []
              else []) (techs db)
          else []) (locations db)
      else []) (job_locations db)) (jobs db).

Inductive load_exn : Type :=
| KeyError               (* [df['date']] on a frame without columns *)
| ConversionError.       (* raised by [pd.to_datetime] *)

Section Loader.

(** [pd.to_datetime] on one value of the [date] column, [None] where it
    raises; what it accepts is the affair of pandas. *)
Variable stamp : Type.
Variable to_datetime : option date -> option stamp.

Fixpoint convert_dates (rows : list frame_row)
  : option (list (stamp * frame_row)) :=
  match rows with
  | [] => Some []
  | r :: rows' =>
      match to_datetime (r_date r), convert_dates rows' with
      | Some s, Some rest => Some ((s, r) :: rest)
      | _, _ => None
      end
  end.

(** [load_jobs()], lines 58-64: [pd.DataFrame] of an empty list has no
    column, and [df['date']] raises KeyError on it. *)
Definition load_jobs (db : DB) : load_exn + list (stamp * frame_row) :=
  match query_rows db with
  | [] => inl KeyError
  | rows =>
      match convert_dates rows with
      | Some frame => inr frame
      | None => inl ConversionError
      end
  end.

End Loader.

(** The row a JobLocation gives when its Job, its Location and the Tech
    of its Job are looked up by primary key. *)
Definition row_of (db : DB) (jl : JobLocation) : list frame_row :=
  match find (fun j => jl_job jl =? job_pk j) (jobs db) with
  | Some j =>
      match find (fun l => jl_location jl =? loc_pk l) (locations db) with
      | Some l =>
          match find (fun t => job_tech j =? tech_pk t) (techs db) with
          | Some t => if shown t l then [joined_row j jl l t] else []
          | None => []
          end
      | None => []
      end
  | None => []
  end.


(** * Properties *)

(** ** The classifier *)

Lemma NoDup_map_inj {A B} (f : A -> B) (l : list A) (a b : A) :
  NoDup (map f l) -> In a l -> In b l -> f a = f b -> a = b.
Proof.
  induction l as [|x l IH]; simpl; intros Hnd Ha Hb Hf; [contradiction|].
  inversion Hnd as [|? ? Hx Hl]; subst.
  destruct Ha as [<-|Ha], Hb as [<-|Hb]; auto.
  - exfalso. apply Hx. rewrite Hf. now apply in_map.
  - exfalso. apply Hx. rewrite <- Hf. now apply in_map.
Qed.

Lemma mem_string_In w ws : PyStr.mem_string w ws = true <-> In w ws.
Proof.
  unfold PyStr.mem_string. rewrite existsb_exists. split.
  - intros [x [Hx Heq]]. apply String.eqb_eq in Heq. now subst.
  - intros H. exists w. split; [assumption | apply String.eqb_refl].
Qed.

Lemma nodupb_NoDup l : nodupb l = true -> NoDup l.
Proof.
  induction l as [|x l IH]; simpl; intros H; constructor.
  - apply andb_prop in H. destruct H as [H _].
    intros Hin. apply mem_string_In in Hin. rewrite Hin in H. discriminate.
  - apply IH. apply andb_prop in H. tauto.
Qed.

(** The lower-cased forms of the vocabulary are pairwise distinct. *)
Lemma lower_vocabulary_NoDup : NoDup (map PyStr.lower KNOWN_TECHS).
Proof. apply nodupb_NoDup. vm_compute. reflexivity. Qed.

(** No stop word is the lower-cased form of a vocabulary member. *)
Lemma ignore_word_no_tech word :
  PyStr.mem_string word IGNORE_WORDS = true -> no_tech word.
Proof.
  intros Hw tech [Hin ->].
  assert (Hall : forallb (fun t => negb (PyStr.mem_string (PyStr.lower t) IGNORE_WORDS))
                         KNOWN_TECHS = true) by (vm_compute; reflexivity).
  rewrite forallb_forall in Hall. specialize (Hall _ Hin).
  rewrite Hw in Hall. discriminate.
Qed.

Lemma scan_words_cons techs word rest :
  scan_words techs (word :: rest) =
  if PyStr.mem_string word IGNORE_WORDS then scan_words techs rest
  else match find (fun tech => String.eqb word (PyStr.lower tech)) techs with
       | Some tech => tech
       | None => scan_words techs rest
       end.
Proof. reflexivity. Qed.

Section Enumeration.

Variable techs : list string.
Hypothesis techs_perm : Permutation techs KNOWN_TECHS.

Let lookup (word : string) : option string :=
  find (fun tech => String.eqb word (PyStr.lower tech)) techs.

Lemma lookup_names word tech : lookup word = Some tech -> names_tech word tech.
Proof.
  unfold lookup. intros H. apply find_some in H. destruct H as [Hin Heq].
  apply String.eqb_eq in Heq. split; [|assumption].
  eapply Permutation_in; eassumption.
Qed.

Lemma lookup_found word tech : names_tech word tech -> lookup word = Some tech.
Proof.
  intros [Hin ->]. unfold lookup.
  assert (Hin' : In tech techs)
    by (eapply Permutation_in; [apply Permutation_sym|]; eassumption).
  destruct (find _ techs) as [t|] eqn:Hf.
  - f_equal. pose proof Hf as Hf'. apply find_some in Hf'.
    destruct Hf' as [Ht Heq]. apply String.eqb_eq in Heq.
    apply (NoDup_map_inj PyStr.lower techs); auto.
    eapply Permutation_NoDup; [|apply lower_vocabulary_NoDup].
    apply Permutation_map, Permutation_sym, techs_perm.
  - exfalso. eapply find_none in Hf; [|exact Hin'].
    rewrite String.eqb_refl in Hf. discriminate.
Qed.

Lemma lookup_none word : no_tech word -> lookup word = None.
Proof.
  intros Hno. destruct (lookup word) as [t|] eqn:Hl; [|reflexivity].
  exfalso. apply (Hno t). now apply lookup_names.
Qed.

Lemma scan_words_skip pre rest :
  Forall no_tech pre -> scan_words techs (pre ++ rest) = scan_words techs rest.
Proof.
  induction 1 as [|w pre Hw _ IH]; [reflexivity|].
  rewrite <- app_comm_cons, scan_words_cons.
  destruct (PyStr.mem_string w IGNORE_WORDS); [exact IH|].
  fold (lookup w). now rewrite (lookup_none Hw).
Qed.

Lemma scan_words_hit word tech rest :
  names_tech word tech -> scan_words techs (word :: rest) = tech.
Proof.
  intros Hn. rewrite scan_words_cons.
  destruct (PyStr.mem_string word IGNORE_WORDS) eqn:Hig.
  - exfalso. exact (ignore_word_no_tech Hig Hn).
  - fold (lookup word). now rewrite (lookup_found Hn).
Qed.

Lemma scan_words_first pre word tech post :
  Forall no_tech pre -> names_tech word tech ->
  scan_words techs (pre ++ word :: post) = tech.
Proof.
  intros Hpre Hn. rewrite scan_words_skip by assumption.
  now apply scan_words_hit.
Qed.

Lemma scan_words_other words :
  Forall no_tech words -> scan_words techs words = "Other".
Proof.
  intros H. rewrite <- (app_nil_r words). now rewrite scan_words_skip.
Qed.

End Enumeration.

(** C4. In whatever order the set KNOWN_TECHS is enumerated, the
    classifier scans the tokens of the cleaned, lower-cased title from left
    to right and returns the vocabulary member whose lower-cased form is
    the first token that names one, "Other" when no token names one; so
    "Senior Python Entwickler" gives "Python", "JavaScript Developer" gives
    "JavaScript", "Unknown Role" gives "Other" and
    "Fullstack Java / Python Developer" gives "Java". *)
Theorem extract_tech_first_matching_token (techs : list string) :
  Permutation techs KNOWN_TECHS ->
  (forall title pre word post tech,
      title_tokens title = pre ++ word :: post ->
      Forall no_tech pre -> names_tech word tech ->
      extract_tech_in techs title = tech)
  /\ (forall title,
         Forall no_tech (title_tokens title) ->
         extract_tech_in techs title = "Other")
  /\ extract_tech_in techs "Senior Python Entwickler" = "Python"
  /\ extract_tech_in techs "JavaScript Developer" = "JavaScript"
  /\ extract_tech_in techs "Unknown Role" = "Other"
  /\ extract_tech_in techs "Fullstack Java / Python Developer" = "Java".
Proof.
  intros Hperm.
  assert (Hfirst : forall title pre word post tech,
             title_tokens title = pre ++ word :: post ->
             Forall no_tech pre -> names_tech word tech ->
             extract_tech_in techs title = tech).
  { intros title pre word post tech Htok Hpre Hn.
    unfold extract_tech_in. fold (title_tokens title). rewrite Htok.
    now apply scan_words_first. }
  assert (Hnone : forall title,
             Forall no_tech (title_tokens title) ->
             extract_tech_in techs title = "Other").
  { intros title Hall. unfold extract_tech_in. fold (title_tokens title).
    now apply scan_words_other. }
  assert (Hig : forall w, PyStr.mem_string w IGNORE_WORDS = true -> no_tech w)
    by exact ignore_word_no_tech.
  assert (Hmiss : forall w,
             forallb (fun t => negb (String.eqb w (PyStr.lower t))) KNOWN_TECHS = true ->
             no_tech w).
  { intros w Hall t [Hin Heq]. rewrite forallb_forall in Hall.
    specialize (Hall _ Hin). subst w. rewrite String.eqb_refl in Hall.
    discriminate. }
  repeat split; try assumption.
  - apply (Hfirst _ ["senior"] "python" ["entwickler"]);
      [reflexivity | | split; [simpl; tauto | reflexivity]].
    repeat constructor. apply Hig. reflexivity.
  - apply (Hfirst _ [] "javascript" ["developer"]);
      [reflexivity | constructor | split; [simpl; tauto | reflexivity]].
  - apply Hnone. repeat constructor; apply Hmiss; vm_compute; reflexivity.
  - apply (Hfirst _ ["fullstack"] "java" ["python"; "developer"]);
      [reflexivity | | split; [simpl; tauto | reflexivity]].
    repeat constructor. apply Hig. reflexivity.
Qed.

(** The same four titles in the order the vocabulary is written in. *)
Example extract_tech_examples :
  map extract_tech
      [ "Senior Python Entwickler"; "JavaScript Developer"; "Unknown Role";
        "Fullstack Java / Python Developer" ]
  = [ "Python"; "JavaScript"; "Other"; "Java" ].
Proof. reflexivity. Qed.

(** An exact match of the token: "JavaScripting" names no technology. *)
Example extract_tech_exact_token :
  extract_tech "JavaScripting Developer" = "Other".
Proof. reflexivity. Qed.

Lemma extract_tech_first_matching_token_witness :
  Permutation (rev KNOWN_TECHS) KNOWN_TECHS
  /\ extract_tech_in (rev KNOWN_TECHS) "Softwareentwickler (m/w/d) Kotlin, Java" = "Kotlin".
Proof.
  assert (Hperm : Permutation (rev KNOWN_TECHS) KNOWN_TECHS)
    by (apply Permutation_sym, Permutation_rev).
  split; [exact Hperm|].
  destruct (extract_tech_first_matching_token Hperm) as [Hfirst _].
  apply (Hfirst _ ["softwareentwickler"] "kotlin" ["java"]).
  - reflexivity.
  - repeat constructor. apply ignore_word_no_tech. reflexivity.
  - split; [simpl; tauto | reflexivity].
Defined.

(** ** The cleaning step *)

Lemma lazy_star_stops_at_once p s : Re.lazy_star p Some s = Some s.
Proof. destruct s; reflexivity. Qed.

Lemma slash_alt_one_character s :
  Re.match_at slash_alt (String "/" s) = Some s.
Proof.
  unfold Re.match_at, slash_alt. cbn [Re.rmatch Re.cset_mem].
  rewrite Ascii.eqb_refl. apply lazy_star_stops_at_once.
Qed.

Lemma title_noise_outside_parens c s :
  Ascii.eqb c "("%char = false ->
  Re.match_at title_noise (String c s) =
  if PyStr.mem_char c "/-," then Some s else None.
Proof.
  intros Hc. unfold Re.match_at, title_noise, paren_alt, slash_alt, sep_alt.
  cbn [Re.rmatch Re.cset_mem PyStr.mem_char]. rewrite Hc.
  destruct (Ascii.eqb c "/") eqn:Hs; cbn [orb].
  - now rewrite lazy_star_stops_at_once.
  - destruct (Ascii.eqb c "-" || (Ascii.eqb c "," || false)); reflexivity.
Qed.

Lemma sub_from_outside_parens s :
  forall fuel,
    String.length s < fuel ->
    PyStr.mem_char "("%char s = false ->
    Re.sub_from fuel title_noise " " s = map_chars noise_to_space s.
Proof.
  induction s as [|c s IH]; intros fuel Hfuel Hno.
  - destruct fuel; [inversion Hfuel | reflexivity].
  - destruct fuel as [|fuel]; [inversion Hfuel|].
    cbn [PyStr.mem_char] in Hno. apply orb_false_elim in Hno.
    destruct Hno as [Hc Hs]. rewrite Ascii.eqb_sym in Hc.
    cbn [Re.sub_from map_chars]. rewrite title_noise_outside_parens by exact Hc.
    cbn [String.length] in Hfuel. unfold noise_to_space at 1.
    destruct (PyStr.mem_char c "/-,").
    + assert (Hlt : (String.length s <? String.length (String c s)) = true)
        by (apply Nat.ltb_lt; cbn [String.length]; lia).
      rewrite Hlt. cbn [String.append]. f_equal. apply IH; [lia | assumption].
    + f_equal. apply IH; [lia | assumption].
Qed.

(** C9, as the code has it.  The alternative [/.*?] matches the slash and
    nothing more, its lazy star stopping at once; the cleaning step
    replaces a slash by one space and keeps the text behind it.  On a
    title without an opening parenthesis it replaces each slash, hyphen
    and comma by a space and keeps every other character. *)
Theorem clean_title_keeps_text_after_slash :
  (forall s, Re.match_at slash_alt (String "/" s) = Some s)
  /\ (forall title,
         PyStr.mem_char "("%char title = false ->
         clean_title title = map_chars noise_to_space title).
Proof.
  split; [exact slash_alt_one_character|].
  intros title Hno. unfold clean_title, Re.sub.
  apply sub_from_outside_parens; [lia | assumption].
Qed.

Lemma clean_title_keeps_text_after_slash_witness :
  PyStr.mem_char "("%char "Frontend/Backend Rust" = false
  /\ clean_title "Frontend/Backend Rust" = "Frontend Backend Rust".
Proof.
  split; [reflexivity|].
  exact (proj2 clean_title_keeps_text_after_slash "Frontend/Backend Rust" eq_refl).
Defined.

(** C9 as stated fails: behind no slash does [/.*?] take a character with
    it, and the text after the slash of "Backend / Python" reaches the
    tokens. *)
Lemma slash_alt_deletes_no_text :
  ~ (exists s rest,
        Re.match_at slash_alt (String "/" s) = Some rest /\ rest <> s)
  /\ clean_title "Backend / Python" = "Backend   Python"
  /\ extract_tech "Backend / Python" = "Python".
Proof.
  split; [|split; reflexivity].
  intros [s [rest [Hm Hne]]]. rewrite slash_alt_one_character in Hm.
  inversion Hm. congruence.
Qed.

(** ** Splitting a location name *)

Lemma split_on_nonempty sep s : PyStr.split_on sep s <> [].
Proof.
  destruct s as [|c s]; simpl; [discriminate|].
  destruct (Ascii.eqb c sep); [discriminate|].
  destruct (PyStr.split_on sep s); discriminate.
Qed.

Lemma split_on_no_sep sep s :
  PyStr.mem_char sep s = false -> PyStr.split_on sep s = [s].
Proof.
  induction s as [|c s IH]; simpl; intros H; [reflexivity|].
  apply orb_false_elim in H. destruct H as [Hc Hs].
  rewrite Ascii.eqb_sym in Hc. rewrite Hc, (IH Hs). reflexivity.
Qed.

Lemma split_on_first_sep sep a b :
  PyStr.mem_char sep a = false ->
  PyStr.split_on sep (a ++ String sep b) = a :: PyStr.split_on sep b.
Proof.
  induction a as [|c a IH]; simpl; intros H.
  - now rewrite Ascii.eqb_refl.
  - apply orb_false_elim in H. destruct H as [Hc Ha].
    rewrite Ascii.eqb_sym in Hc. rewrite Hc, (IH Ha). reflexivity.
Qed.

Lemma split_on_with_sep sep b :
  PyStr.mem_char sep b = true ->
  exists p q r, PyStr.split_on sep b = p :: q :: r.
Proof.
  induction b as [|c b IH]; simpl; intros H; [discriminate|].
  rewrite Ascii.eqb_sym in H. destruct (Ascii.eqb c sep); simpl in H.
  - destruct (PyStr.split_on sep b) as [|q r] eqn:Hb.
    + now apply split_on_nonempty in Hb.
    + now exists EmptyString, q, r.
  - destruct (IH H) as [p [q [r ->]]]. now exists (String c p), q, r.
Qed.

(** The three cases of lines 141-145, by the commas of the name: none,
    exactly one, or more. *)
Lemma split_location_parts (s : string) :
  (PyStr.mem_char ","%char s = false ->
   split_location s = (None, PyStr.strip s))
  /\ (forall a b,
         s = (a ++ String "," b)%string ->
         PyStr.mem_char ","%char a = false ->
         PyStr.mem_char ","%char b = false ->
         split_location s = (Some (PyStr.strip a), PyStr.strip b))
  /\ (forall a b,
         s = (a ++ String "," b)%string ->
         PyStr.mem_char ","%char a = false ->
         PyStr.mem_char ","%char b = true ->
         split_location s = (None, PyStr.strip a)).
Proof.
  unfold split_location. repeat split.
  - intros H. now rewrite (split_on_no_sep _ _ H).
  - intros a b -> Ha Hb.
    now rewrite (split_on_first_sep _ _ b Ha), (split_on_no_sep _ _ Hb).
  - intros a b -> Ha Hb. rewrite (split_on_first_sep _ _ b Ha).
    destruct (split_on_with_sep _ _ Hb) as [p [q [r ->]]]. reflexivity.
Qed.

(** ** Lists of rows *)

Lemma find_app_some {A} (p : A -> bool) l x a :
  find p l = Some a -> find p (l ++ x) = Some a.
Proof.
  induction l as [|b l IH]; simpl; [discriminate|].
  destruct (p b); auto.
Qed.

Lemma find_app_none {A} (p : A -> bool) l x :
  find p l = None -> find p (l ++ x) = find p x.
Proof.
  induction l as [|b l IH]; simpl; [reflexivity|].
  destruct (p b); [discriminate | auto].
Qed.

(** A lookup by identity finds, in a table that keeps the identities of
    another as a prefix, a row of the same identity. *)
Lemma find_key_prefix {A K} (key : A -> K) (p : K -> bool) :
  forall l l' x a,
    map key l' = map key l ++ x ->
    find (fun r => p (key r)) l = Some a ->
    exists a', find (fun r => p (key r)) l' = Some a' /\ key a' = key a.
Proof.
  induction l as [|b l IH]; intros l' x a Hmap Hfind; [discriminate|].
  destruct l' as [|b' l']; [discriminate|].
  simpl in Hmap. injection Hmap as Hb Hl. simpl in Hfind |- *.
  rewrite Hb. destruct (p (key b)).
  - injection Hfind as <-. now exists b'.
  - eapply IH; eassumption.
Qed.

Lemma next_pk_above pks x : In x pks -> x < next_pk pks.
Proof.
  unfold next_pk. induction pks as [|y pks IH]; simpl; [contradiction|].
  intros [->|H]; [lia|]. specialize (IH H). lia.
Qed.

Lemma next_pk_fresh pks : ~ In (next_pk pks) pks.
Proof. intros H. apply next_pk_above in H. lia. Qed.

Lemma NoDup_snoc {A} (l : list A) a : NoDup l -> ~ In a l -> NoDup (l ++ [a]).
Proof.
  intros Hl Ha. apply NoDup_app; [assumption | repeat constructor; auto |].
  intros x Hx [<-|[]]. contradiction.
Qed.

(** An UPDATE by primary key that keeps the identity of the row keeps the
    identities of the table, the keys being unique. *)
Lemma map_update_key {A K} (pk : A -> nat) (key : A -> K) (l : list A) (a a' : A) :
  NoDup (map pk l) -> In a l -> key a' = key a ->
  map key (map (fun r => if pk r =? pk a then a' else r) l) = map key l.
Proof.
  intros Hnd Hin Hkey. rewrite map_map. apply map_ext_in.
  intros r Hr. destruct (pk r =? pk a) eqn:Hpk; [|reflexivity].
  apply Nat.eqb_eq in Hpk.
  now rewrite (NoDup_map_inj pk l r a Hnd Hr Hin Hpk).
Qed.

(** The row a lookup found is found again after the UPDATE, as written. *)
Lemma find_update {A} (pk : A -> nat) (p : A -> bool) (l : list A) (a a' : A) :
  find p l = Some a -> p a' = true ->
  find p (map (fun r => if pk r =? pk a then a' else r) l) = Some a'.
Proof.
  induction l as [|b l IH]; simpl; intros Hf Hp; [discriminate|].
  destruct (p b) eqn:Hb.
  - injection Hf as ->. now rewrite Nat.eqb_refl, Hp.
  - destruct (pk b =? pk a); [now rewrite Hp|]. rewrite Hb. auto.
Qed.

(** ** The relation [ext] *)

Lemma ext_refl db : ext db db.
Proof. repeat split; exists []; now rewrite app_nil_r. Qed.

Lemma ext_trans db1 db2 db3 : ext db1 db2 -> ext db2 db3 -> ext db1 db3.
Proof.
  intros (Ht & Hl & Hj & Hk) (Ht' & Hl' & Hj' & Hk').
  destruct Ht as [x1 Ht], Hl as [x2 Hl], Hj as [x3 Hj], Hk as [x4 Hk].
  destruct Ht' as [y1 Ht'], Hl' as [y2 Hl'], Hj' as [y3 Hj'], Hk' as [y4 Hk'].
  repeat split.
  - exists (x1 ++ y1). now rewrite Ht', Ht, app_assoc.
  - exists (x2 ++ y2). now rewrite Hl', Hl, app_assoc.
  - exists (x3 ++ y3). now rewrite Hj', Hj, app_assoc.
  - exists (x4 ++ y4). now rewrite Hk', Hk, app_assoc.
Qed.

(** ** The Job of a record *)

Section ImporterFacts.

Variable text_of : json -> string.
Variable float_of : json -> option Z.

Local Abbreviation char_value := (char_value text_of).
Local Abbreviation Job_get := (Job_get text_of).
Local Abbreviation job_row := (job_row text_of).
Local Abbreviation Job_get_or_create := (Job_get_or_create text_of).
Local Abbreviation Job_update := (Job_update text_of).
Local Abbreviation float_value := (float_value float_of).
Local Abbreviation upsert_job := (upsert_job text_of).
Local Abbreviation upsert_location := (upsert_location float_of).
Local Abbreviation process_record := (process_record text_of float_of).
Local Abbreviation import_loop := (import_loop text_of float_of).
Local Abbreviation stored_from := (stored_from text_of).
Local Abbreviation sat := (sat text_of float_of).
Local Abbreviation location_sat := (location_sat float_of).
Local Abbreviation coords_ok := (coords_ok float_of).
Local Abbreviation loop_db := (loop_db text_of float_of).
Local Abbreviation imported := (imported text_of float_of).

Lemma char_value_none v : char_value v = None <-> is_none v = true.
Proof. destruct v; simpl; split; intros H; congruence. Qed.

Lemma char_value_some v : is_none v = false -> exists s, char_value v = Some s.
Proof. destruct v; simpl; intros H; try discriminate; eauto. Qed.

Lemma job_row_some pk id a d j :
  job_row pk id a d = Some j ->
  job_pk j = pk /\ id = Some (job_id j) /\ job_date j = d /\ stored_from a j.
Proof.
  unfold job_row, stored_from. intros H.
  destruct id; [|discriminate].
  destruct (char_value (a_title a)); [|discriminate].
  destruct (char_value (a_description a)); [|discriminate].
  destruct (char_value (a_redirect_url a)); [|discriminate].
  destruct (char_value (a_company a)); [|discriminate].
  injection H as <-. simpl. tauto.
Qed.

Lemma upsert_job_eq job_date job_data :
  upsert_job job_date job_data =
  (company <- attr_get (rec_company job_data) "display_name" (JStr "") ;;
   '(tech, _) <- Tech_get_or_create (rec_tech_name job_data) ;;
   '(job, created) <- Job_get_or_create (rec_id job_data)
                        (rec_args job_data company tech) job_date ;;
   _ <- (if created then ret tt else Job_update job (rec_args job_data company tech)) ;;
   ret job).
Proof. reflexivity. Qed.

(** With a storable record every row binds. *)
Lemma storable_row job_data c tech pk i d :
  rec_company job_data = JDict c ->
  storable job_data = true ->
  (exists k, char_value (rec_id job_data) = Some k)
  /\ exists j, job_row pk (Some i)
                 (rec_args job_data (dict_get c "display_name" (JStr "")) tech) d
               = Some j.
Proof.
  unfold storable. intros -> H.
  repeat (apply andb_prop in H; destruct H as [H ?]).
  repeat match goal with
         | Hn : negb (is_none _) = true |- _ =>
             apply negb_true_iff, char_value_some in Hn; destruct Hn as [? Hn]
         end.
  split; [eauto|]. unfold job_row, rec_args. simpl.
  repeat match goal with Hc : char_value _ = Some _ |- _ => rewrite Hc; clear Hc end.
  eauto.
Qed.

(** With a record that is not storable no row binds: the identifier is
    null, or no identifier makes the rest bind. *)
Lemma not_storable_row job_data c tech :
  rec_company job_data = JDict c ->
  storable job_data = false ->
  let args := rec_args job_data (dict_get c "display_name" (JStr "")) tech in
  char_value (rec_id job_data) = None
  \/ forall pk id d, job_row pk id args d = None.
Proof.
  unfold storable. intros -> H. simpl.
  destruct (is_none (rec_id job_data)) eqn:Hid.
  { left. now apply char_value_none. }
  right. intros pk id d. unfold job_row, rec_args. simpl in *.
  destruct id; [|reflexivity].
  destruct (is_none (dict_get job_data "title" (JStr ""))) eqn:H1.
  { apply char_value_none in H1. now rewrite H1. }
  destruct (is_none (dict_get job_data "description" (JStr ""))) eqn:H2.
  { apply char_value_none in H2. rewrite H2.
    now destruct (char_value (dict_get job_data "title" (JStr ""))). }
  destruct (is_none (dict_get job_data "redirect_url" (JStr ""))) eqn:H3.
  { apply char_value_none in H3. rewrite H3.
    destruct (char_value (dict_get job_data "title" (JStr ""))); [|reflexivity].
    now destruct (char_value (dict_get job_data "description" (JStr ""))). }
  destruct (is_none (dict_get c "display_name" (JStr ""))) eqn:H4; [|discriminate].
  apply char_value_none in H4. rewrite H4.
  destruct (char_value (dict_get job_data "title" (JStr ""))); [|reflexivity].
  destruct (char_value (dict_get job_data "description" (JStr ""))); [|reflexivity].
  now destruct (char_value (dict_get job_data "redirect_url" (JStr ""))).
Qed.

Lemma Job_get_jobs v db db' : jobs db' = jobs db -> Job_get v db' = Job_get v db.
Proof. unfold Job_get. now intros ->. Qed.

(** The Job written by [Job.get_or_create] and the update behind it. *)
Lemma job_write_spec v a d db db' r :
  ('(job, created) <- Job_get_or_create v a d ;;
   _ <- (if created then ret tt else Job_update job a) ;;
   ret job) db = (db', r) ->
  techs db' = techs db /\ locations db' = locations db
  /\ job_locations db' = job_locations db
  /\ match Job_get v db with
     | Some j0 =>
         match job_row (job_pk j0) (Some (job_id j0)) a (job_date j0) with
         | Some j' =>
             r = Ret j0 /\ Job_get v db' = Some j'
             /\ jobs db' = map (fun x => if job_pk x =? job_pk j0 then j' else x)
                               (jobs db)
         | None => r = Raise IntegrityError /\ db' = db
         end
     | None =>
         match job_row (next_pk (map job_pk (jobs db))) (char_value v) a d with
         | Some j' =>
             r = Ret j' /\ Job_get v db' = Some j' /\ jobs db' = jobs db ++ [j']
         | None => r = Raise IntegrityError /\ db' = db
         end
     end.
Proof.
  unfold bind, Job_get_or_create, Job_update, ret.
  destruct (Job_get v db) as [j0|] eqn:Hget.
  - destruct (job_row (job_pk j0) _ a _) as [j'|] eqn:Hrow; intros H;
      injection H as <- <-; simpl; repeat split; auto.
    unfold Job_get in *. destruct (char_value v) as [k|]; [|discriminate].
    simpl. apply find_update with (pk := job_pk); [assumption|].
    apply job_row_some in Hrow. destruct Hrow as (_ & Hid & _).
    injection Hid as Hid. rewrite <- Hid.
    apply find_some in Hget. tauto.
  - destruct (job_row (next_pk _) _ a d) as [j'|] eqn:Hrow; intros H;
      injection H as <- <-; simpl; repeat split; auto.
    unfold Job_get in *. apply job_row_some in Hrow.
    destruct Hrow as (_ & Hid & _). rewrite Hid in *. simpl.
    rewrite find_app_none by assumption. simpl.
    now rewrite String.eqb_refl.
Qed.

(** The same, by whether the record is storable. *)
Lemma job_write_storable job_data c tech d db db' r :
  rec_company job_data = JDict c ->
  let args := rec_args job_data (dict_get c "display_name" (JStr "")) tech in
  ('(job, created) <- Job_get_or_create (rec_id job_data) args d ;;
   _ <- (if created then ret tt else Job_update job args) ;;
   ret job) db = (db', r) ->
  techs db' = techs db /\ locations db' = locations db
  /\ job_locations db' = job_locations db
  /\ if storable job_data then
       exists job j',
         r = Ret job
         /\ Job_get (rec_id job_data) db' = Some j'
         /\ job_key j' = job_key job
         /\ stored_from args j'
         /\ match Job_get (rec_id job_data) db with
            | Some j0 =>
                job = j0 /\ job_date j' = job_date j0
                /\ jobs db' =
                   map (fun x => if job_pk x =? job_pk j0 then j' else x) (jobs db)
            | None =>
                job_date j' = d
                /\ jobs db' = jobs db ++ [j']
                /\ job_pk j' = next_pk (map job_pk (jobs db))
            end
     else r = Raise IntegrityError /\ jobs db' = jobs db.
Proof.
  intros Hc args H. apply job_write_spec in H.
  destruct H as (Ht & Hl & Hk & H). repeat split; auto.
  destruct (storable job_data) eqn:Hst.
  - destruct (Job_get (rec_id job_data) db) as [j0|] eqn:Hget.
    + destruct (@storable_row job_data c tech (job_pk j0) (job_id j0)
                              (job_date j0) Hc Hst) as [_ [j Hrow]].
      fold args in Hrow. rewrite Hrow in H. destruct H as (-> & Hget' & Hjobs).
      apply job_row_some in Hrow. destruct Hrow as (Hpk & Hid & Hd & Hsf).
      exists j0, j. repeat split; auto; try apply Hsf.
      unfold job_key. injection Hid as Hid. now rewrite Hpk, <- Hid.
    + destruct (@storable_row job_data c tech 0 "" d Hc Hst) as [[k Hk'] _].
      destruct (@storable_row job_data c tech (next_pk (map job_pk (jobs db)))
                              k d Hc Hst) as [_ [j Hrow]].
      fold args in Hrow. rewrite Hk', Hrow in H.
      destruct H as (-> & Hget' & Hjobs).
      apply job_row_some in Hrow. destruct Hrow as (Hpk & Hid & Hd & Hsf).
      exists j, j. repeat split; auto; apply Hsf.
  - destruct (@not_storable_row job_data c tech Hc Hst) as [Hnone|Hnone];
      fold args in Hnone.
    + unfold Job_get in H. rewrite Hnone in H.
      unfold job_row in H. destruct H as [-> ->]. auto.
    + destruct (Job_get (rec_id job_data) db) as [j0|];
        rewrite Hnone in H; destruct H as [-> ->]; auto.
Qed.

(** What lines 104-133 leave in the store and hand on. *)
Lemma upsert_job_spec d job_data db db' r :
  upsert_job d job_data db = (db', r) ->
  locations db' = locations db
  /\ job_locations db' = job_locations db
  /\ (exists x, techs db' = techs db ++ x
                /\ ((exists t, find (fun t => String.eqb (tech_name t) (rec_tech_name job_data))
                                    (techs db) = Some t) -> x = []))
  /\ match rec_company job_data with
     | JDict c =>
         exists tech,
           find (fun t => String.eqb (tech_name t) (rec_tech_name job_data))
                (techs db') = Some tech
           /\ if storable job_data then
                exists job j',
                  r = Ret job
                  /\ Job_get (rec_id job_data) db' = Some j'
                  /\ job_key j' = job_key job
                  /\ stored_from
                       (rec_args job_data (dict_get c "display_name" (JStr "")) tech) j'
                  /\ match Job_get (rec_id job_data) db with
                     | Some j0 =>
                         job = j0 /\ job_date j' = job_date j0
                         /\ jobs db' =
                            map (fun x => if job_pk x =? job_pk j0 then j' else x)
                                (jobs db)
                     | None =>
                         job_date j' = d
                         /\ jobs db' = jobs db ++ [j']
                         /\ job_pk j' = next_pk (map job_pk (jobs db))
                     end
              else r = Raise IntegrityError /\ jobs db' = jobs db
     | _ => db' = db /\ r = Raise AttributeError
     end.
Proof.
  rewrite upsert_job_eq. unfold bind at 1, attr_get.
  destruct (rec_company job_data) as [| | | | |c] eqn:Hc;
    try (unfold raise; intros H; injection H as <- <-;
         repeat split; auto; exists []; rewrite app_nil_r; auto).
  unfold ret at 1. unfold bind at 1, Tech_get_or_create.
  destruct (find _ (techs db)) as [t|] eqn:Ht; cbv beta iota; intros H;
    apply (@job_write_storable job_data c _ _ _ _ _ Hc) in H;
    destruct H as (Htechs & Hlocs & Hjls & H).
  - repeat split; auto.
    + exists []. rewrite app_nil_r. auto.
    + exists t. rewrite Htechs. auto.
  - simpl in Htechs, Hlocs, Hjls. repeat split; auto.
    + eexists. split; [exact Htechs|]. intros [t Hsome]. discriminate.
    + eexists. split.
      * rewrite Htechs. rewrite find_app_none by assumption.
        simpl. rewrite String.eqb_refl. reflexivity.
      * exact H.
Qed.

(** ** The Location and the JobLocation of a record *)

Local Abbreviation set_coord := (set_coord float_of).
Local Abbreviation new_coord := (new_coord float_of).
Local Abbreviation JobLocation_update := (JobLocation_update float_of).
Local Abbreviation JobLocation_create := (JobLocation_create float_of).

Lemma JobLocation_first_pks job job' city city' d db db' :
  job_pk job' = job_pk job -> loc_pk city' = loc_pk city ->
  job_locations db' = job_locations db ->
  JobLocation_first job' city' d db' = JobLocation_first job city d db.
Proof.
  unfold JobLocation_first, job_loc_matches. now intros -> -> ->.
Qed.

Lemma district_matches_eq s d : district_matches s d = true <-> s = d.
Proof.
  destruct s as [s|], d as [d|]; simpl; split; intros H;
    try discriminate; try reflexivity.
  - apply String.eqb_eq in H. now subst.
  - injection H as ->. apply String.eqb_refl.
Qed.

(** The WHERE clause holds of a row exactly when the row has the
    identity asked for. *)
Lemma job_loc_matches_key job city d jl :
  job_loc_matches job city d jl = true <-> jl_key jl = (job_pk job, loc_pk city, d).
Proof.
  unfold job_loc_matches, jl_key. rewrite !andb_true_iff, !Nat.eqb_eq.
  rewrite district_matches_eq. split.
  - intros [[-> ->] ->]. reflexivity.
  - intros H. injection H as -> -> ->. auto.
Qed.

Lemma upsert_location_none job job_data db :
  rec_location job_data = None ->
  exists r, upsert_location job job_data db = (db, r).
Proof.
  unfold rec_location, rec_display_name, upsert_location, bind, attr_get.
  destruct (dict_get job_data "location" (JDict [])) as [| | | | |loc];
    try (intros _; eexists; reflexivity).
  unfold ret.
  destruct (dict_get loc "display_name" JNull) as [|b|x|s|l|kvs].
  - intros _. eexists. reflexivity.
  - intros _. destruct b; eexists; reflexivity.
  - intros _. simpl. destruct (negb (Z.eqb x 0)); eexists; reflexivity.
  - simpl. destruct (negb (String.eqb s "") && negb (String.eqb s "Deutschland"));
      [discriminate|]. intros _. eexists. reflexivity.
  - intros _. destruct l; eexists; reflexivity.
  - intros _. destruct kvs; eexists; reflexivity.
Qed.

Lemma upsert_location_some job job_data s db :
  rec_location job_data = Some s ->
  upsert_location job job_data db =
  ('(city_location, _) <- Location_get_or_create (snd (split_location s)) ;;
   fun db =>
     match JobLocation_first job city_location (fst (split_location s)) db with
     | Some job_loc_query =>
         (_ <- JobLocation_update job_loc_query
                 (dict_get job_data "latitude" JNull)
                 (dict_get job_data "longitude" JNull) ;;
          ret tt) db
     | None =>
         JobLocation_create job city_location (fst (split_location s))
                            (dict_get job_data "latitude" JNull)
                            (dict_get job_data "longitude" JNull) db
     end) db.
Proof.
  unfold rec_location, rec_display_name, upsert_location, attr_get.
  unfold bind at 1.
  destruct (dict_get job_data "location" (JDict [])) as [| | | | |loc];
    try discriminate.
  unfold ret at 1.
  destruct (dict_get loc "display_name" JNull) as [|b|x|t|l|kvs];
    try discriminate.
  cbn [truthy eq_str].
  destruct (negb (String.eqb t "") && negb (String.eqb t "Deutschland"));
    [|discriminate].
  intros H. injection H as ->. destruct (split_location s). reflexivity.
Qed.

(** The JobLocation written by lines 149-173. *)
Lemma job_location_write_spec job city d lat lon db db' r :
  match JobLocation_first job city d db with
  | Some job_loc_query =>
      (_ <- JobLocation_update job_loc_query lat lon ;; ret tt) db
  | None => JobLocation_create job city d lat lon db
  end = (db', r) ->
  techs db' = techs db /\ jobs db' = jobs db /\ locations db' = locations db
  /\ match JobLocation_first job city d db with
         | Some jl =>
             if set_coord (jl_latitude jl) lat || set_coord (jl_longitude jl) lon
             then
               match new_coord (jl_latitude jl) lat,
                     new_coord (jl_longitude jl) lon with
               | Ret la, Ret lo =>
                   r = Ret tt
                   /\ job_locations db' =
                      map (fun x => if jl_pk x =? jl_pk jl
                                    then mkJobLocation (jl_pk jl) (jl_job jl)
                                           (jl_location jl) (jl_district jl) la lo
                                    else x)
                          (job_locations db)
               | _, _ => r = Raise ValueError /\ job_locations db' = job_locations db
               end
             else r = Ret tt /\ job_locations db' = job_locations db
         | None =>
             match float_value lat, float_value lon with
             | Ret la, Ret lo =>
                 r = Ret tt
                 /\ job_locations db' =
                    job_locations db
                    ++ [mkJobLocation (next_pk (map jl_pk (job_locations db)))
                                      (job_pk job) (loc_pk city) d la lo]
             | _, _ => r = Raise ValueError /\ job_locations db' = job_locations db
             end
         end.
Proof.
  destruct (JobLocation_first job city d db) as [jl|].
  - unfold bind, JobLocation_update, new_coord, ret.
    change (negb (is_none lat) && differs float_of (jl_latitude jl) lat)
      with (set_coord (jl_latitude jl) lat).
    change (negb (is_none lon) && differs float_of (jl_longitude jl) lon)
      with (set_coord (jl_longitude jl) lon).
    destruct (set_coord (jl_latitude jl) lat || set_coord (jl_longitude jl) lon).
    + destruct (if set_coord (jl_latitude jl) lat then float_value lat else _)
        as [la|e1];
        [destruct (if set_coord (jl_longitude jl) lon then float_value lon else _)
          as [lo|e2]|];
        intros H; injection H as <- <-; auto.
    + intros H; injection H as <- <-; auto.
  - unfold JobLocation_create.
    destruct (float_value lat) as [la|e1];
      [destruct (float_value lon) as [lo|e2]|];
      intros H; injection H as <- <-; auto.
Qed.

(** What lines 135-173 leave in the store, for a record with a location
    to store. *)
Lemma upsert_location_spec job job_data s db db' r :
  rec_location job_data = Some s ->
  upsert_location job job_data db = (db', r) ->
  let d := fst (split_location s) in
  let c := snd (split_location s) in
  let lat := dict_get job_data "latitude" JNull in
  let lon := dict_get job_data "longitude" JNull in
  techs db' = techs db /\ jobs db' = jobs db
  /\ exists city,
      find (fun l => String.eqb (loc_display_name l) c) (locations db') = Some city
      /\ (exists x, locations db' = locations db ++ x
                    /\ (forall l, find (fun l => String.eqb (loc_display_name l) c)
                                       (locations db) = Some l -> x = [] /\ l = city))
      /\ match JobLocation_first job city d db with
         | Some jl =>
             if set_coord (jl_latitude jl) lat || set_coord (jl_longitude jl) lon
             then
               match new_coord (jl_latitude jl) lat,
                     new_coord (jl_longitude jl) lon with
               | Ret la, Ret lo =>
                   r = Ret tt
                   /\ job_locations db' =
                      map (fun x => if jl_pk x =? jl_pk jl
                                    then mkJobLocation (jl_pk jl) (jl_job jl)
                                           (jl_location jl) (jl_district jl) la lo
                                    else x)
                          (job_locations db)
               | _, _ => r = Raise ValueError /\ job_locations db' = job_locations db
               end
             else r = Ret tt /\ job_locations db' = job_locations db
         | None =>
             match float_value lat, float_value lon with
             | Ret la, Ret lo =>
                 r = Ret tt
                 /\ job_locations db' =
                    job_locations db
                    ++ [mkJobLocation (next_pk (map jl_pk (job_locations db)))
                                      (job_pk job) (loc_pk city) d la lo]
             | _, _ => r = Raise ValueError /\ job_locations db' = job_locations db
             end
         end.
Proof.
  intros Hloc. rewrite upsert_location_some with (s := s) by exact Hloc.
  intros H d c lat lon. fold d c lat lon in H.
  unfold bind at 1, Location_get_or_create in H.
  destruct (find _ (locations db)) as [city|] eqn:Hcity; cbv beta iota in H;
    apply job_location_write_spec in H; destruct H as (Ht & Hj & Hl & H).
  - repeat split; auto. exists city. rewrite Hl. repeat split; auto.
    + exists []. rewrite app_nil_r. split; [reflexivity|].
      intros l Hl'. injection Hl' as ->. auto.
  - simpl in Ht, Hj, Hl. repeat split; auto.
    eexists. rewrite Hl. repeat split.
    + rewrite find_app_none by assumption. simpl.
      now rewrite String.eqb_refl.
    + eexists. split; [reflexivity|]. intros l Hl'. discriminate.
    + exact H.
Qed.

(** ** One record *)

Lemma process_record_eq d job_data db :
  process_record d job_data db =
  match upsert_job d job_data db with
  | (db1, Ret job) => upsert_location job job_data db1
  | (db1, Raise e) => (db1, Raise e)
  end.
Proof. reflexivity. Qed.

Lemma Job_get_In v db j : Job_get v db = Some j -> In j (jobs db).
Proof.
  unfold Job_get. destruct (char_value v); [|discriminate].
  intros H. now apply find_some in H.
Qed.

(** The first stage keeps the keys unique and the rows in place. *)
Lemma upsert_job_ext d job_data db db' r :
  upsert_job d job_data db = (db', r) ->
  wf db ->
  wf db' /\ ext db db' /\ job_locations db' = job_locations db.
Proof.
  intros H [Hj Hk]. apply upsert_job_spec in H.
  destruct H as (Hlocs & Hjls & [x [Htechs _]] & H).
  assert (Hgoal : (NoDup (map job_pk (jobs db'))
                   /\ exists y, map job_key (jobs db') = map job_key (jobs db) ++ y)
                  -> wf db' /\ ext db db' /\ job_locations db' = job_locations db).
  { intros [Hnd Hkeys]. unfold wf, ext. rewrite Hjls, Hlocs.
    repeat split; auto.
    - now exists x.
    - exists []. now rewrite app_nil_r.
    - exists []. now rewrite app_nil_r. }
  apply Hgoal. clear Hgoal.
  assert (Hsame : jobs db' = jobs db ->
            NoDup (map job_pk (jobs db'))
            /\ exists y, map job_key (jobs db') = map job_key (jobs db) ++ y).
  { intros ->. split; [assumption|]. exists []. now rewrite app_nil_r. }
  destruct (rec_company job_data); try (destruct H as [-> _]; now apply Hsame).
  destruct H as [tech [_ H]]. destruct (storable job_data).
  - destruct H as (job & j' & _ & _ & Hkey & _ & H).
    destruct (Job_get (rec_id job_data) db) as [j0|] eqn:Hget.
    + destruct H as (-> & _ & ->). apply Job_get_In in Hget.
      split.
      * rewrite (map_update_key job_pk job_pk); auto.
        now injection Hkey.
      * exists []. rewrite app_nil_r. now apply map_update_key.
    + destruct H as (_ & -> & Hpk). rewrite !map_app. simpl. split.
      * apply NoDup_snoc; [assumption|]. rewrite Hpk. apply next_pk_fresh.
      * now eexists.
  - apply Hsame, H.
Qed.

Lemma JobLocation_first_In job city d db jl :
  JobLocation_first job city d db = Some jl ->
  In jl (job_locations db) /\ jl_key jl = (job_pk job, loc_pk city, d).
Proof.
  unfold JobLocation_first. intros H. apply find_some in H.
  now rewrite <- job_loc_matches_key.
Qed.

Lemma JobLocation_first_none job city d db :
  JobLocation_first job city d db = None ->
  ~ In (job_pk job, loc_pk city, d) (map jl_key (job_locations db)).
Proof.
  unfold JobLocation_first. intros H Hin. apply in_map_iff in Hin.
  destruct Hin as [jl [Hkey Hin]]. apply (find_none _ _ H) in Hin.
  apply job_loc_matches_key in Hkey. congruence.
Qed.

(** The second stage keeps the keys unique, the rows in place, and at
    most one JobLocation per (job, location, district). *)
Lemma upsert_location_ext job job_data db db' r :
  upsert_location job job_data db = (db', r) ->
  wf db ->
  wf db' /\ ext db db' /\ (distinct_job_locations db -> distinct_job_locations db').
Proof.
  intros H Hwf. destruct (rec_location job_data) as [s|] eqn:Hloc.
  2:{ destruct (@upsert_location_none job job_data db Hloc) as [r' Hr].
      rewrite Hr in H. injection H as <- _.
      split; [exact Hwf | split; [apply ext_refl | auto]]. }
  apply (@upsert_location_spec job job_data s db db' r Hloc) in H. cbv zeta in H.
  destruct Hwf as [Hj Hk].
  destruct H as (Htechs & Hjobs & city & _ & [x [Hlocs _]] & H).
  assert (Hgoal :
            (NoDup (map jl_pk (job_locations db'))
             /\ (exists y, map jl_key (job_locations db')
                           = map jl_key (job_locations db) ++ y)
             /\ (distinct_job_locations db -> distinct_job_locations db'))
            -> wf db' /\ ext db db'
               /\ (distinct_job_locations db -> distinct_job_locations db')).
  { intros (Hnd & Hkeys & Hdist). unfold wf, ext. rewrite Htechs, Hjobs.
    repeat split; auto.
    - exists []. now rewrite app_nil_r.
    - now exists x.
    - exists []. now rewrite app_nil_r. }
  apply Hgoal. clear Hgoal.
  assert (Hsame : job_locations db' = job_locations db ->
            NoDup (map jl_pk (job_locations db'))
            /\ (exists y, map jl_key (job_locations db')
                          = map jl_key (job_locations db) ++ y)
            /\ (distinct_job_locations db -> distinct_job_locations db')).
  { unfold distinct_job_locations. intros ->. repeat split; auto.
    exists []. now rewrite app_nil_r. }
  destruct (JobLocation_first job city _ db) as [jl|] eqn:Hfirst.
  - apply JobLocation_first_In in Hfirst. destruct Hfirst as [Hin Hkey].
    destruct (set_coord _ _ || set_coord _ _); [|apply Hsame, H].
    destruct (new_coord (jl_latitude jl) _) as [la|]; [|apply Hsame, H].
    destruct (new_coord (jl_longitude jl) _) as [lo|]; [|apply Hsame, H].
    unfold distinct_job_locations. destruct H as [_ ->].
    rewrite (map_update_key jl_pk jl_pk), (map_update_key jl_pk jl_key); auto.
    repeat split; auto. exists []. now rewrite app_nil_r.
  - apply JobLocation_first_none in Hfirst.
    destruct (float_value _) as [la|]; [|apply Hsame, H].
    destruct (float_value _) as [lo|]; [|apply Hsame, H].
    unfold distinct_job_locations. destruct H as [_ ->].
    rewrite !map_app. simpl. repeat split.
    + apply NoDup_snoc; [assumption | apply next_pk_fresh].
    + now eexists.
    + intros Hd. now apply NoDup_snoc.
Qed.

Lemma process_record_ext d job_data db :
  wf db ->
  wf (fst (process_record d job_data db))
  /\ ext db (fst (process_record d job_data db))
  /\ (distinct_job_locations db ->
      distinct_job_locations (fst (process_record d job_data db))).
Proof.
  intros Hwf. rewrite process_record_eq.
  destruct (upsert_job d job_data db) as [db1 [job|e]] eqn:H1;
    destruct (@upsert_job_ext d job_data db db1 _ H1 Hwf) as (Hwf1 & Hext1 & Hjls1).
  - destruct (upsert_location job job_data db1) as [db2 r2] eqn:H2.
    destruct (@upsert_location_ext job job_data db1 db2 r2 H2 Hwf1) as (Hwf2 & Hext2 & Hd2).
    simpl. split; [exact Hwf2 | split].
    + eapply ext_trans; eassumption.
    + intros Hd. apply Hd2. unfold distinct_job_locations in *. now rewrite Hjls1.
  - simpl. split; [exact Hwf1 | split; [exact Hext1|]].
    unfold distinct_job_locations. now rewrite Hjls1.
Qed.

(** After the second stage nothing is left to create for the location. *)
Lemma upsert_location_sat job job_data db db' r :
  upsert_location job job_data db = (db', r) ->
  location_sat job job_data db'.
Proof.
  intros H. unfold location_sat.
  destruct (rec_location job_data) as [s|] eqn:Hloc; [|exact I].
  apply (@upsert_location_spec job job_data s db db' r Hloc) in H. cbv zeta in H.
  destruct H as (_ & _ & city & Hcity & _ & H).
  exists city. split; [exact Hcity|].
  destruct (JobLocation_first job city _ db) as [jl|] eqn:Hfirst.
  - right.
    assert (Hsame : job_locations db' = job_locations db ->
              exists jl', JobLocation_first job city (fst (split_location s)) db'
                          = Some jl').
    { intros Heq. exists jl. rewrite <- Hfirst.
      now apply JobLocation_first_pks. }
    destruct (set_coord _ _ || set_coord _ _); [|apply Hsame, H].
    destruct (new_coord (jl_latitude jl) _) as [la|]; [|apply Hsame, H].
    destruct (new_coord (jl_longitude jl) _) as [lo|]; [|apply Hsame, H].
    destruct H as [_ Hjls]. eexists. unfold JobLocation_first in *.
    rewrite Hjls. apply find_update with (pk := jl_pk); [exact Hfirst|].
    apply find_some in Hfirst. destruct Hfirst as [_ Hm].
    apply job_loc_matches_key in Hm. now apply job_loc_matches_key.
  - unfold coords_ok.
    destruct (float_value (dict_get job_data "latitude" JNull)) as [la|];
      [|now left].
    destruct (float_value (dict_get job_data "longitude" JNull)) as [lo|];
      [|now left].
    right. destruct H as [_ Hjls]. eexists. unfold JobLocation_first in *.
    rewrite Hjls, find_app_none by assumption. simpl.
    match goal with
    | |- context [job_loc_matches ?j ?c ?d ?x] =>
        assert (Hm : job_loc_matches j c d x = true)
          by (now apply job_loc_matches_key)
    end.
    rewrite Hm. reflexivity.
Qed.

Lemma upsert_location_frame job job_data db db' r :
  upsert_location job job_data db = (db', r) ->
  techs db' = techs db /\ jobs db' = jobs db.
Proof.
  intros H. destruct (rec_location job_data) as [s|] eqn:Hloc.
  - apply (@upsert_location_spec job job_data s db db' r Hloc) in H. tauto.
  - destruct (@upsert_location_none job job_data db Hloc) as [r' Hr].
    rewrite Hr in H. injection H as <- _. auto.
Qed.

Lemma location_sat_ext job job' job_data db db' :
  ext db db' -> job_pk job' = job_pk job ->
  location_sat job job_data db -> location_sat job' job_data db'.
Proof.
  intros (_ & [x Hlocs] & _ & [y Hkeys]) Hpk. unfold location_sat.
  destruct (rec_location job_data) as [s|]; [|auto].
  intros (city & Hcity & H). exists city. split.
  - rewrite Hlocs. now apply find_app_some.
  - destruct H as [H|[jl Hjl]]; [now left | right].
    unfold JobLocation_first in *.
    set (d := fst (split_location s)) in *.
    set (p := fun key : nat * nat * option string =>
                let '(a, b, c) := key in
                (a =? job_pk job) && (b =? loc_pk city) && district_matches c d).
    change (find (fun r => p (jl_key r)) (job_locations db) = Some jl) in Hjl.
    destruct (@find_key_prefix _ _ jl_key p _ _ _ _ Hkeys Hjl) as [jl' [Hjl' _]].
    exists jl'. rewrite <- Hjl'. unfold job_loc_matches. rewrite Hpk.
    reflexivity.
Qed.

(** Rows that come later leave nothing to create for a record that had
    nothing left to create. *)
Lemma sat_ext db db' job_data :
  ext db db' -> sat db job_data -> sat db' job_data.
Proof.
  intros Hext [Htech Hjob]. pose proof Hext as ([x Htechs] & _ & [y Hkeys] & _).
  split.
  - intros c Hc. destruct (Htech c Hc) as [t Ht]. exists t.
    rewrite Htechs. now apply find_app_some.
  - destruct Hjob as [Hst|[j [Hget Hsat]]]; [now left | right].
    unfold Job_get in *.
    destruct (char_value (rec_id job_data)) as [k|]; [|discriminate].
    set (p := fun key : nat * string => String.eqb (snd key) k).
    change (find (fun r => p (job_key r)) (jobs db) = Some j) in Hget.
    destruct (@find_key_prefix _ _ job_key p _ _ _ _ Hkeys Hget) as [j' [Hget' Hkey]].
    exists j'. split; [exact Hget'|].
    eapply location_sat_ext; [exact Hext | | exact Hsat].
    now injection Hkey.
Qed.

(** Once processed, a record has nothing left to create. *)
Lemma process_record_sat d job_data db :
  sat (fst (process_record d job_data db)) job_data.
Proof.
  rewrite process_record_eq.
  destruct (upsert_job d job_data db) as [db1 r1] eqn:H1.
  apply upsert_job_spec in H1. destruct H1 as (_ & _ & _ & H1).
  destruct (rec_company job_data) as [| | | | |c] eqn:Hc;
    try (destruct H1 as [-> ->]; simpl; split;
         [intros c Hc'; congruence
         | left; unfold storable; now rewrite Hc]).
  destruct H1 as (tech & Htech & H1).
  destruct (storable job_data) eqn:Hst.
  - destruct H1 as (job & j' & -> & Hget & Hkey & _).
    destruct (upsert_location job job_data db1) as [db2 r2] eqn:H2. simpl.
    destruct (@upsert_location_frame job job_data db1 db2 r2 H2) as [Htechs Hjobs].
    split.
    + intros _ _. exists tech. now rewrite Htechs.
    + right. exists j'. split.
      * rewrite (@Job_get_jobs (rec_id job_data) db1 db2 Hjobs). exact Hget.
      * apply upsert_location_sat in H2.
        eapply location_sat_ext; [apply ext_refl | | exact H2].
        now injection Hkey.
  - destruct H1 as [-> _]. simpl. split; [|now left].
    intros _ _. now exists tech.
Qed.

Lemma location_sat_tables job job_data db db' :
  locations db' = locations db -> job_locations db' = job_locations db ->
  location_sat job job_data db -> location_sat job job_data db'.
Proof.
  unfold location_sat, JobLocation_first. now intros -> ->.
Qed.

Lemma location_sat_quiet job job_data db db' r :
  location_sat job job_data db ->
  upsert_location job job_data db = (db', r) ->
  length (locations db') = length (locations db)
  /\ length (job_locations db') = length (job_locations db).
Proof.
  unfold location_sat. intros Hsat H.
  destruct (rec_location job_data) as [s|] eqn:Hloc.
  2:{ destruct (@upsert_location_none job job_data db Hloc) as [r' Hr].
      rewrite Hr in H. injection H as <- _. auto. }
  apply (@upsert_location_spec job job_data s db db' r Hloc) in H. cbv zeta in H.
  destruct H as (_ & _ & city & _ & [x [Hlocs Hx]] & H).
  destruct Hsat as (city0 & Hcity0 & Hsat).
  destruct (Hx _ Hcity0) as [-> ->]. rewrite app_nil_r in Hlocs.
  rewrite Hlocs. split; [reflexivity|].
  assert (Hsame : job_locations db' = job_locations db ->
                  length (job_locations db') = length (job_locations db))
    by now intros ->.
  destruct (JobLocation_first job city _ db) as [jl|] eqn:Hfirst.
  - destruct (set_coord _ _ || set_coord _ _); [|apply Hsame, H].
    destruct (new_coord (jl_latitude jl) _) as [la|]; [|apply Hsame, H].
    destruct (new_coord (jl_longitude jl) _) as [lo|]; [|apply Hsame, H].
    destruct H as [_ ->]. apply length_map.
  - destruct Hsat as [Hco|[jl Hjl]]; [|discriminate].
    unfold coords_ok in Hco.
    destruct (float_value (dict_get job_data "latitude" JNull)) as [la|];
      [|apply Hsame, H].
    destruct (float_value (dict_get job_data "longitude" JNull)) as [lo|];
      [discriminate | apply Hsame, H].
Qed.

(** A record with nothing left to create adds no row to any table. *)
Lemma sat_quiet d job_data db :
  sat db job_data ->
  row_counts (fst (process_record d job_data db)) = row_counts db.
Proof.
  intros [Htech Hjob]. rewrite process_record_eq.
  destruct (upsert_job d job_data db) as [db1 r1] eqn:H1.
  apply upsert_job_spec in H1.
  destruct H1 as (Hlocs & Hjls & [x [Htechs Hx]] & H1).
  destruct (rec_company job_data) as [| | | | |c] eqn:Hc;
    try (destruct H1 as [-> ->]; reflexivity).
  rewrite (Hx (Htech c eq_refl)), app_nil_r in Htechs.
  destruct H1 as (tech & _ & H1).
  destruct (storable job_data) eqn:Hst.
  - destruct Hjob as [Hjob|[j [Hget Hsat]]]; [discriminate|].
    destruct H1 as (job & j' & -> & _ & _ & _ & H1).
    rewrite Hget in H1. destruct H1 as (-> & _ & Hjobs).
    destruct (upsert_location j job_data db1) as [db2 r2] eqn:H2. simpl.
    destruct (@upsert_location_frame j job_data db1 db2 r2 H2) as [Ht2 Hj2].
    apply (@location_sat_tables j job_data db db1 Hlocs Hjls) in Hsat.
    destruct (@location_sat_quiet j job_data db1 db2 r2 Hsat H2) as [Hl2 Hk2].
    unfold row_counts. rewrite Hj2, Ht2, Hl2, Hk2, Hjobs, Htechs, Hlocs, Hjls.
    now rewrite length_map.
  - destruct H1 as [-> Hjobs]. simpl. unfold row_counts.
    now rewrite Hjobs, Htechs, Hlocs, Hjls.
Qed.

(** ** The loop and the import *)

Local Abbreviation step d :=
  (fun db job_data => fst (process_record d job_data db)).

Lemma import_loop_db d jobs_data :
  forall db log,
    fst (fst (import_loop d jobs_data db log))
    = fold_left (step d) (processed jobs_data) db.
Proof.
  induction jobs_data as [|item rest IH]; intros db log; [reflexivity|].
  destruct item as [| | | | |job_data]; try reflexivity.
  simpl. destruct (process_record d job_data db) as [db1 [u|[]]]; apply IH.
Qed.

Lemma run_ext d records :
  forall db,
    wf db ->
    wf (fold_left (step d) records db)
    /\ ext db (fold_left (step d) records db)
    /\ (distinct_job_locations db ->
        distinct_job_locations (fold_left (step d) records db)).
Proof.
  induction records as [|job_data rest IH]; intros db Hwf; simpl.
  - split; [assumption | split; [apply ext_refl | auto]].
  - destruct (process_record_ext d job_data Hwf) as (Hwf1 & Hext1 & Hd1).
    destruct (IH _ Hwf1) as (Hwf2 & Hext2 & Hd2).
    split; [assumption | split; [eapply ext_trans; eassumption | auto]].
Qed.

Lemma run_sat d records :
  forall db,
    wf db ->
    Forall (sat (fold_left (step d) records db)) records.
Proof.
  induction records as [|job_data rest IH]; intros db Hwf; simpl;
    constructor.
  - destruct (process_record_ext d job_data Hwf) as (Hwf1 & _).
    destruct (run_ext d rest Hwf1) as (_ & Hext & _).
    eapply sat_ext; [exact Hext|]. apply process_record_sat.
  - apply IH. apply (process_record_ext d job_data Hwf).
Qed.

Lemma run_quiet d records :
  forall db,
    wf db ->
    Forall (sat db) records ->
    row_counts (fold_left (step d) records db) = row_counts db.
Proof.
  induction records as [|job_data rest IH]; intros db Hwf Hsat; simpl;
    [reflexivity|].
  inversion Hsat as [|? ? Hhd Htl]; subst.
  destruct (process_record_ext d job_data Hwf) as (Hwf1 & Hext1 & _).
  rewrite IH; [now apply sat_quiet | assumption |].
  eapply Forall_impl; [|exact Htl]. intros a. now apply sat_ext.
Qed.

Lemma loop_db_idempotent d jobs_data db :
  wf db ->
  row_counts (loop_db d jobs_data (loop_db d jobs_data db))
  = row_counts (loop_db d jobs_data db).
Proof.
  intros Hwf. unfold loop_db. rewrite !import_loop_db.
  apply run_quiet; [apply run_ext, Hwf | apply run_sat, Hwf].
Qed.

(** What the import leaves in the store: the store of the loop, or the
    store as it was when the import gives up before the loop. *)
Lemma imported_cases fs json_path db :
  imported fs json_path db = db
  \/ exists d jobs_data,
      forall db0, imported fs json_path db0 = loop_db d jobs_data db0.
Proof.
  unfold imported, import_jobs_from_json.
  destruct (match Re.search date_re json_path with
            | Some text => match strptime text with
                           | Some d => Ret (Some d)
                           | None => Raise ValueError
                           end
            | None => Ret None
            end) as [d|e]; [|now left].
  destruct (fs json_path) as [| | |v]; try now left.
  destruct (iter_items v) as [items|]; [|now left].
  right. exists d, items. intros db0. unfold loop_db.
  rewrite import_loop_db.
  destruct (import_loop d items db0 _) as [[db1 log1] [|]] eqn:Hloop;
    simpl; rewrite <- (import_loop_db d items db0
      (match d with None => [WarnNoDate json_path] | Some _ => [] end));
    now rewrite Hloop.
Qed.


Lemma imported_ext fs json_path db :
  wf db ->
  wf (imported fs json_path db)
  /\ ext db (imported fs json_path db)
  /\ (distinct_job_locations db ->
      distinct_job_locations (imported fs json_path db)).
Proof.
  intros Hwf. destruct (imported_cases fs json_path db) as [H|[d [items H]]].
  - rewrite H. split; [assumption | split; [apply ext_refl | auto]].
  - rewrite H. unfold loop_db. rewrite import_loop_db. now apply run_ext.
Qed.

Lemma db_eq db db' :
  techs db' = techs db -> locations db' = locations db ->
  jobs db' = jobs db -> job_locations db' = job_locations db -> db' = db.
Proof. destruct db, db'. simpl. now intros -> -> -> ->. Qed.

(** The re-import of a record whose JobLocation exists. *)
Lemma upsert_location_existing job job_data s city jl db db' r :
  rec_location job_data = Some s ->
  find (fun l => String.eqb (loc_display_name l) (snd (split_location s)))
       (locations db) = Some city ->
  JobLocation_first job city (fst (split_location s)) db = Some jl ->
  upsert_location job job_data db = (db', r) ->
  let lat := dict_get job_data "latitude" JNull in
  let lon := dict_get job_data "longitude" JNull in
  length (job_locations db') = length (job_locations db)
  /\ (set_coord (jl_latitude jl) lat = false ->
      set_coord (jl_longitude jl) lon = false -> db' = db /\ r = Ret tt)
  /\ (r = Ret tt ->
      exists jl',
        JobLocation_first job city (fst (split_location s)) db' = Some jl'
        /\ new_coord (jl_latitude jl) lat = Ret (jl_latitude jl')
        /\ new_coord (jl_longitude jl) lon = Ret (jl_longitude jl'))
  /\ (r <> Ret tt -> db' = db).
Proof.
  intros Hloc Hcity Hfirst H lat lon.
  apply (@upsert_location_spec job job_data s db db' r Hloc) in H. cbv zeta in H.
  fold lat lon in H.
  destruct H as (Htechs & Hjobs & city' & _ & [x [Hlocs Hx]] & H).
  destruct (Hx _ Hcity) as [-> ->]. rewrite app_nil_r in Hlocs.
  rewrite Hfirst in H.
  assert (Hsame : job_locations db' = job_locations db -> db' = db)
    by (now apply db_eq).
  assert (Hkeep : forall la lo,
             job_loc_matches job city' (fst (split_location s))
               (mkJobLocation (jl_pk jl) (jl_job jl) (jl_location jl)
                              (jl_district jl) la lo) = true).
  { intros la lo. unfold JobLocation_first in Hfirst.
    apply find_some in Hfirst. destruct Hfirst as [_ Hm].
    apply job_loc_matches_key in Hm. now apply job_loc_matches_key. }
  destruct (set_coord (jl_latitude jl) lat || set_coord (jl_longitude jl) lon)
    eqn:Hset.
  - assert (Hnot : set_coord (jl_latitude jl) lat = false ->
                   set_coord (jl_longitude jl) lon = false -> db' = db /\ r = Ret tt).
    { intros H1 H2. rewrite H1, H2 in Hset. discriminate. }
    destruct (new_coord (jl_latitude jl) lat) as [la|e1] eqn:Hla;
      [destruct (new_coord (jl_longitude jl) lon) as [lo|e2] eqn:Hlo|];
      destruct H as [-> Hjls].
    + split; [rewrite Hjls; apply length_map|].
      split; [exact Hnot|]. split; [|congruence].
      intros _.
      exists (mkJobLocation (jl_pk jl) (jl_job jl) (jl_location jl)
                            (jl_district jl) la lo).
      split; [|split; reflexivity].
      unfold JobLocation_first in *. rewrite Hjls.
      apply find_update with (pk := jl_pk); [exact Hfirst | apply Hkeep].
    + split; [now rewrite Hjls|]. split; [exact Hnot|].
      split; [discriminate | auto].
    + split; [now rewrite Hjls|]. split; [exact Hnot|].
      split; [discriminate | auto].
  - destruct H as [-> Hjls]. apply orb_false_elim in Hset.
    destruct Hset as [Hslat Hslon].
    split; [now rewrite Hjls|]. split; [auto|]. split; [|congruence].
    intros _. exists jl. unfold new_coord. rewrite Hslat, Hslon.
    split; [|now split]. rewrite <- Hfirst. now apply JobLocation_first_pks.
Qed.

(** C2. The importer keeps at most one JobLocation per (job, location,
    district): an import leaves the triples pairwise distinct when they
    were.  The lookup takes a row exactly when its triple is the one
    asked for, the district compared as a value of its own, null equal to
    null only.  On the re-import of a triple that exists, no row is
    added; a coordinate is rewritten only when the incoming value is not
    null and differs from the stored one, and the store is left as it
    was when that holds of neither coordinate. *)
Theorem job_location_identity fs json_path db :
  wf db ->
  distinct_job_locations db ->
  distinct_job_locations (imported fs json_path db)
  /\ (forall job city d jl,
         job_loc_matches job city d jl = true
         <-> jl_key jl = (job_pk job, loc_pk city, d))
  /\ (forall job city d db0,
         JobLocation_first job city d db0 = None
         <-> ~ In (job_pk job, loc_pk city, d) (map jl_key (job_locations db0)))
  /\ (forall job job_data s city jl db0 db' r,
         rec_location job_data = Some s ->
         find (fun l => String.eqb (loc_display_name l) (snd (split_location s)))
              (locations db0) = Some city ->
         JobLocation_first job city (fst (split_location s)) db0 = Some jl ->
         upsert_location job job_data db0 = (db', r) ->
         let lat := dict_get job_data "latitude" JNull in
         let lon := dict_get job_data "longitude" JNull in
         length (job_locations db') = length (job_locations db0)
         /\ (set_coord (jl_latitude jl) lat = false ->
             set_coord (jl_longitude jl) lon = false -> db' = db0 /\ r = Ret tt)
         /\ (r = Ret tt ->
             exists jl',
               JobLocation_first job city (fst (split_location s)) db' = Some jl'
               /\ new_coord (jl_latitude jl) lat = Ret (jl_latitude jl')
               /\ new_coord (jl_longitude jl) lon = Ret (jl_longitude jl'))
         /\ (r <> Ret tt -> db' = db0)).
Proof.
  intros Hwf Hd. split; [now apply imported_ext|].
  split; [exact job_loc_matches_key|]. split.
  - intros job city d db0. split; [apply JobLocation_first_none|].
    intros Hnot. destruct (JobLocation_first job city d db0) as [jl|] eqn:H;
      [|reflexivity].
    exfalso. apply Hnot. apply JobLocation_first_In in H.
    destruct H as [Hin <-]. now apply in_map.
  - intros job job_data s city jl db0 db' r.
    apply upsert_location_existing.
Qed.

(** ** The Job row of a record *)

Lemma process_record_job d job_data db c :
  rec_company job_data = JDict c ->
  storable job_data = true ->
  exists j' tech,
    Job_get (rec_id job_data) (fst (process_record d job_data db)) = Some j'
    /\ find (fun t => String.eqb (tech_name t) (rec_tech_name job_data))
            (techs (fst (process_record d job_data db))) = Some tech
    /\ stored_from (rec_args job_data (dict_get c "display_name" (JStr "")) tech) j'
    /\ match Job_get (rec_id job_data) db with
       | Some j0 => job_key j' = job_key j0 /\ job_date j' = job_date j0
       | None => job_date j' = d
       end.
Proof.
  intros Hc Hst. rewrite process_record_eq.
  destruct (upsert_job d job_data db) as [db1 r1] eqn:H1.
  apply upsert_job_spec in H1. destruct H1 as (_ & _ & _ & H1).
  rewrite Hc, Hst in H1.
  destruct H1 as (tech & Htech & job & j' & -> & Hget & Hkey & Hsf & H1).
  destruct (upsert_location job job_data db1) as [db2 r2] eqn:H2. simpl.
  destruct (@upsert_location_frame job job_data db1 db2 r2 H2) as [Ht2 Hj2].
  exists j', tech. rewrite (@Job_get_jobs (rec_id job_data) db1 db2 Hj2), Ht2.
  repeat (split; [assumption|]).
  destruct (Job_get (rec_id job_data) db) as [j0|].
  - destruct H1 as (-> & Hd & _). auto.
  - tauto.
Qed.

Lemma process_record_not_storable d job_data db :
  storable job_data = false ->
  jobs (fst (process_record d job_data db)) = jobs db.
Proof.
  intros Hst. rewrite process_record_eq.
  destruct (upsert_job d job_data db) as [db1 r1] eqn:H1.
  apply upsert_job_spec in H1. destruct H1 as (_ & _ & _ & H1).
  rewrite Hst in H1.
  destruct (rec_company job_data);
    try (destruct H1 as [-> ->]; reflexivity).
  destruct H1 as (tech & _ & -> & Hjobs). exact Hjobs.
Qed.

Lemma storable_company job_data :
  storable job_data = true -> exists c, rec_company job_data = JDict c.
Proof.
  unfold storable. destruct (rec_company job_data); try discriminate. eauto.
Qed.

Lemma eq_str_dict_get job_data key s :
  eq_str (dict_get job_data key JNull) s = true
  <-> dict_lookup job_data key = Some (JStr s).
Proof.
  unfold dict_get. destruct (dict_lookup job_data key) as [v|]; simpl.
  - destruct v; simpl; split; intros H; try discriminate.
    + apply String.eqb_eq in H. now subst.
    + injection H as ->. apply String.eqb_refl.
  - split; discriminate.
Qed.

(** C8. A record whose external identifier is already in the store
    overwrites the title, the description, the salary-predicted flag, the
    redirect URL, the company and the Tech reference of that Job and
    leaves its posting date, its key and its identifier as they were;
    a record that cannot be written leaves the Jobs untouched. *)
Theorem update_keeps_first_seen_date d job_data db j0 :
  Job_get (rec_id job_data) db = Some j0 ->
  (storable job_data = false ->
   jobs (fst (process_record d job_data db)) = jobs db)
  /\ (forall c,
         rec_company job_data = JDict c ->
         storable job_data = true ->
         exists j' tech,
           Job_get (rec_id job_data) (fst (process_record d job_data db)) = Some j'
           /\ find (fun t => String.eqb (tech_name t) (rec_tech_name job_data))
                   (techs (fst (process_record d job_data db))) = Some tech
           /\ char_value (dict_get job_data "title" (JStr "")) = Some (job_title j')
           /\ char_value (dict_get job_data "description" (JStr ""))
              = Some (job_description j')
           /\ job_salary_is_predicted j'
              = eq_str (dict_get job_data "salary_is_predicted" JNull) "1"
           /\ char_value (dict_get job_data "redirect_url" (JStr ""))
              = Some (job_redirect_url j')
           /\ char_value (dict_get c "display_name" (JStr "")) = Some (job_company j')
           /\ job_tech j' = tech_pk tech
           /\ job_pk j' = job_pk j0
           /\ job_id j' = job_id j0
           /\ job_date j' = job_date j0).
Proof.
  intros Hget. split; [apply process_record_not_storable|].
  intros c Hc Hst.
  destruct (@process_record_job d job_data db c Hc Hst) as (j' & tech & Hget' & Htech & Hsf & H).
  rewrite Hget in H. destruct H as [Hkey Hd]. injection Hkey as Hpk Hid.
  exists j', tech. unfold stored_from in Hsf. simpl in Hsf. tauto.
Qed.

(** C10. The salary-predicted flag of the Job a record writes is true
    exactly when the record has a field salary_is_predicted that is the
    string "1": an absent field, the string "0", a boolean or a value of
    any other type gives false. *)
Theorem salary_is_predicted_only_for_string_1 d job_data db :
  storable job_data = true ->
  exists j',
    Job_get (rec_id job_data) (fst (process_record d job_data db)) = Some j'
    /\ (job_salary_is_predicted j' = true
        <-> dict_lookup job_data "salary_is_predicted" = Some (JStr "1")).
Proof.
  intros Hst. destruct (@storable_company job_data Hst) as [c Hc].
  destruct (@process_record_job d job_data db c Hc Hst) as (j' & tech & Hget' & _ & Hsf & _).
  exists j'. split; [exact Hget'|].
  destruct Hsf as (_ & _ & Hflag & _). rewrite Hflag. simpl.
  apply eq_str_dict_get.
Qed.

(** ** The location of a record *)

Lemma rec_location_iff job_data s :
  rec_location job_data = Some s
  <-> exists loc,
      dict_get job_data "location" (JDict []) = JDict loc
      /\ dict_get loc "display_name" JNull = JStr s
      /\ s <> "" /\ s <> "Deutschland".
Proof.
  unfold rec_location, rec_display_name. split.
  - destruct (dict_get job_data "location" (JDict [])) as [| | | | |loc];
      try discriminate.
    destruct (dict_get loc "display_name" JNull) as [| | |t| |] eqn:Hd;
      try discriminate.
    destruct (String.eqb t "") eqn:H1; cbn [negb andb]; [discriminate|].
    destruct (String.eqb t "Deutschland") eqn:H2; cbn [negb andb]; [discriminate|].
    intros H. injection H as ->. exists loc.
    apply String.eqb_neq in H1, H2. auto.
  - intros (loc & -> & -> & H1 & H2).
    apply String.eqb_neq in H1, H2. now rewrite H1, H2.
Qed.

(** When the second stage returns, the JobLocation of the record is in
    the store. *)
Lemma upsert_location_ret job job_data s db db' :
  rec_location job_data = Some s ->
  upsert_location job job_data db = (db', Ret tt) ->
  exists city jl,
    find (fun l => String.eqb (loc_display_name l) (snd (split_location s)))
         (locations db') = Some city
    /\ JobLocation_first job city (fst (split_location s)) db' = Some jl.
Proof.
  intros Hloc H.
  apply (@upsert_location_spec job job_data s db db' _ Hloc) in H. cbv zeta in H.
  destruct H as (_ & _ & city & Hcity & _ & H).
  exists city.
  destruct (JobLocation_first job city _ db) as [jl|] eqn:Hfirst.
  - assert (Hsame : job_locations db' = job_locations db ->
              exists jl', find (fun l => String.eqb (loc_display_name l)
                                                    (snd (split_location s)))
                               (locations db') = Some city
                          /\ JobLocation_first job city (fst (split_location s)) db'
                             = Some jl').
    { intros Heq. exists jl. split; [exact Hcity|]. rewrite <- Hfirst.
      now apply JobLocation_first_pks. }
    destruct (set_coord _ _ || set_coord _ _); [|apply Hsame, H].
    destruct (new_coord (jl_latitude jl) _) as [la|]; [|apply Hsame, H].
    destruct (new_coord (jl_longitude jl) _) as [lo|]; [|apply Hsame, H].
    destruct H as [_ Hjls]. eexists. split; [exact Hcity|].
    unfold JobLocation_first in *.
    rewrite Hjls. apply find_update with (pk := jl_pk); [exact Hfirst|].
    apply find_some in Hfirst. destruct Hfirst as [_ Hm].
    apply job_loc_matches_key in Hm. now apply job_loc_matches_key.
  - destruct (float_value (dict_get job_data "latitude" JNull)) as [la|];
      [|destruct H; discriminate].
    destruct (float_value (dict_get job_data "longitude" JNull)) as [lo|];
      [|destruct H; discriminate].
    destruct H as [_ Hjls]. eexists. split; [exact Hcity|].
    unfold JobLocation_first in *.
    rewrite Hjls, find_app_none by assumption. simpl.
    match goal with
    | |- context [job_loc_matches ?j ?c ?d ?x] =>
        assert (Hm : job_loc_matches j c d x = true)
          by (now apply job_loc_matches_key)
    end.
    rewrite Hm. reflexivity.
Qed.

(** C6, as the code has it.  A location name that is a non-empty string
    other than "Deutschland" is split on its commas and each part is
    stripped: with no comma the stripped name is the city and the
    district is absent; with exactly one comma the first part is the
    district and the second the city; with two commas or more the FIRST
    part is the city and the district is absent.  The Location of that
    city is in the store afterwards, and so is, when the record goes
    through, the JobLocation of the Job with that Location and that
    district. *)
Theorem location_name_split job job_data loc s db :
  dict_get job_data "location" (JDict []) = JDict loc ->
  dict_get loc "display_name" JNull = JStr s ->
  s <> "" -> s <> "Deutschland" ->
  (PyStr.mem_char ","%char s = false ->
   split_location s = (None, PyStr.strip s))
  /\ (forall a b,
         s = (a ++ String "," b)%string ->
         PyStr.mem_char ","%char a = false ->
         PyStr.mem_char ","%char b = false ->
         split_location s = (Some (PyStr.strip a), PyStr.strip b))
  /\ (forall a b,
         s = (a ++ String "," b)%string ->
         PyStr.mem_char ","%char a = false ->
         PyStr.mem_char ","%char b = true ->
         split_location s = (None, PyStr.strip a))
  /\ (exists city,
         find (fun l => String.eqb (loc_display_name l) (snd (split_location s)))
              (locations (fst (upsert_location job job_data db))) = Some city)
  /\ (snd (upsert_location job job_data db) = Ret tt ->
      exists city jl,
        find (fun l => String.eqb (loc_display_name l) (snd (split_location s)))
             (locations (fst (upsert_location job job_data db))) = Some city
        /\ In jl (job_locations (fst (upsert_location job job_data db)))
        /\ jl_key jl = (job_pk job, loc_pk city, fst (split_location s))).
Proof.
  intros H1 H2 H3 H4.
  assert (Hloc : rec_location job_data = Some s)
    by (apply rec_location_iff; eauto).
  destruct (split_location_parts s) as (Ha & Hb & Hc).
  repeat (split; [assumption|]).
  destruct (upsert_location job job_data db) as [db' r] eqn:H. simpl. split.
  - apply (@upsert_location_spec job job_data s db db' r Hloc) in H.
    cbv zeta in H. destruct H as (_ & _ & city & Hcity & _). eauto.
  - intros ->. destruct (@upsert_location_ret job job_data s db db' Hloc H)
      as (city & jl & Hcity & Hjl).
    exists city, jl. split; [exact Hcity|]. now apply JobLocation_first_In.
Qed.

(** ** What the import reports *)

Lemma import_loop_completes d jobs_data :
  (forall item, In item jobs_data -> exists job_data, item = JDict job_data) ->
  forall db log, snd (import_loop d jobs_data db log) = true.
Proof.
  induction jobs_data as [|item rest IH]; intros Hall db log; [reflexivity|].
  destruct (Hall item (or_introl eq_refl)) as [job_data ->].
  assert (Hrest : forall i, In i rest -> exists jd, i = JDict jd)
    by (intros i Hi; apply Hall; now right).
  simpl. destruct (process_record d job_data db) as [db1 [u|[]]];
    now apply IH.
Qed.

(** C3, as the code has it.  [import_jobs_from_json] returns None on
    every path: no report of counts reaches its caller.  What it reports
    it logs: when the date derivation does not raise, the file is read
    and every element is a mapping, the last entry of the log is "Job
    import completed successfully.", whatever records were skipped. *)
Theorem import_returns_none fs json_path db :
  snd (import_jobs_from_json text_of float_of fs json_path db) = None
  /\ (forall v jobs_data,
         (Re.search date_re json_path = None
          \/ exists text d, Re.search date_re json_path = Some text
                            /\ strptime text = Some d) ->
         fs json_path = Json v ->
         iter_items v = Some jobs_data ->
         (forall item, In item jobs_data -> exists job_data, item = JDict job_data) ->
         exists log,
           snd (fst (import_jobs_from_json text_of float_of fs json_path db))
           = log ++ [InfoCompleted]).
Proof.
  split.
  - unfold import_jobs_from_json.
    destruct (Re.search date_re json_path) as [text|];
      [destruct (strptime text)|]; try reflexivity;
      destruct (fs json_path) as [| | |v]; try reflexivity;
      destruct (iter_items v) as [items|]; try reflexivity;
      match goal with
      | |- context [import_loop ?d ?i ?b ?l] =>
          destruct (import_loop d i b l) as [[db1 log1] [|]]
      end; reflexivity.
  - intros v jobs_data Hdate Hfile Hiter Hall. unfold import_jobs_from_json.
    rewrite Hfile, Hiter.
    destruct Hdate as [->|(text & d & -> & ->)];
      match goal with
      | |- context [import_loop ?d ?i ?b ?l] =>
          pose proof (@import_loop_completes d i Hall b l) as Hdone;
          destruct (import_loop d i b l) as [[db1 log1] done]
      end; simpl in Hdone; subst done; now exists log1.
Qed.

(** Whenever the path holds a text of the form dddd-dd-dd that is no
    date, [strptime] raises ValueError out of the expression that derives
    the date; the handler of unexpected errors logs it and the import
    ends there: no record is processed. *)
Lemma import_unparseable_date fs json_path text db :
  Re.search date_re json_path = Some text ->
  strptime text = None ->
  import_jobs_from_json text_of float_of fs json_path db
  = (db, [ExcUnexpected json_path], None).
Proof.
  intros Hs Hp. unfold import_jobs_from_json. now rewrite Hs, Hp.
Qed.

(** C7, at the failing input.  The path "all_jobs_2025-13-45.json" holds
    a text of the form dddd-dd-dd that is no date.  Whatever the file
    holds and whatever the store, the import ends with the entry
    "Unexpected error while importing jobs from ..." as its whole log and
    the store untouched: no record is processed and no warning "Failed to
    extract date from ..." is logged.  The claim, and the docstring of
    the function, ask for a null date, the warning and the import going
    on. *)
Theorem unparseable_date_aborts_import fs db :
  import_jobs_from_json text_of float_of fs "all_jobs_2025-13-45.json" db
  = (db, [ExcUnexpected "all_jobs_2025-13-45.json"], None).
Proof.
  apply import_unparseable_date with (text := "2025-13-45"); reflexivity.
Qed.

(** The half of C7 that holds: without a text of the form dddd-dd-dd in
    the path the warning is logged first and the import goes on with a
    null date. *)
Lemma import_absent_date fs json_path v jobs_data db :
  Re.search date_re json_path = None ->
  fs json_path = Json v ->
  iter_items v = Some jobs_data ->
  exists log,
    snd (fst (import_jobs_from_json text_of float_of fs json_path db))
    = WarnNoDate json_path :: log
    /\ imported fs json_path db = loop_db None jobs_data db.
Proof.
  intros Hs Hf Hi. unfold imported, import_jobs_from_json, loop_db.
  rewrite Hs, Hf, Hi.
  rewrite (import_loop_db None jobs_data db []).
  pose proof (import_loop_db None jobs_data db [WarnNoDate json_path]) as Hdb.
  assert (Hlog : forall items db0 log0,
             exists l, snd (fst (import_loop None items db0 log0)) = log0 ++ l).
  { induction items as [|item rest IH]; intros db0 log0.
    - exists []. simpl. now rewrite app_nil_r.
    - destruct item as [| | | | |jd];
        try (exists []; simpl; now rewrite app_nil_r).
      simpl. destruct (process_record None jd db0) as [db1 [u|[]]].
      + apply IH.
      + destruct (IH db1 (log0 ++ [WarnIntegrity (dict_lookup jd "id")]))
          as [l Hl]. rewrite Hl, <- app_assoc. eauto.
      + destruct (IH db1 (log0 ++ [ExcRecord (dict_lookup jd "id")]))
          as [l Hl]. rewrite Hl, <- app_assoc. eauto.
      + destruct (IH db1 (log0 ++ [ExcRecord (dict_lookup jd "id")]))
          as [l Hl]. rewrite Hl, <- app_assoc. eauto. }
  destruct (Hlog jobs_data db [WarnNoDate json_path]) as [l Hl].
  destruct (import_loop None jobs_data db [WarnNoDate json_path])
    as [[db1 log1] [|]]; simpl in *; subst; eexists;
    (split; reflexivity).
Qed.

End ImporterFacts.

(** ** The properties on the sample snapshot *)

Lemma wf_empty_db : wf empty_db.
Proof. split; constructor. Qed.

Example sample_row_counts : row_counts sample_db = (2, 3, 1, 2).
Proof. vm_compute. reflexivity. Qed.


Lemma job_location_identity_witness :
  wf empty_db /\ distinct_job_locations empty_db
  /\ distinct_job_locations sample_db
  /\ map jl_key (job_locations sample_db) = [(1, 1, Some "Mitte"); (1, 1, None)].
Proof.
  split; [exact wf_empty_db|]. split; [constructor|]. split; [|reflexivity].
  exact (proj1 (job_location_identity sample_text_of sample_float_of
                  (sample_fs sample_snapshot) sample_path
                  wf_empty_db (NoDup_nil _))).
Defined.

(** C3 as stated fails: the import of the sample snapshot runs to its end
    and hands None to its caller, no report. *)
Lemma import_hands_back_no_report :
  snd (import_jobs_from_json sample_text_of sample_float_of
         (sample_fs sample_snapshot) sample_path empty_db) = None
  /\ ~ (exists report : ImportReport,
           snd (import_jobs_from_json sample_text_of sample_float_of
                  (sample_fs sample_snapshot) sample_path empty_db)
           = Some report).
Proof.
  split; [reflexivity|]. intros [report H]. vm_compute in H. discriminate.
Qed.

Lemma import_returns_none_witness :
  exists log,
    snd (fst (import_jobs_from_json sample_text_of sample_float_of
                (sample_fs sample_snapshot) sample_path empty_db))
    = log ++ [InfoCompleted].
Proof.
  apply (proj2 (import_returns_none sample_text_of sample_float_of
                  (sample_fs sample_snapshot) sample_path empty_db))
    with (v := sample_snapshot)
         (jobs_data := match sample_snapshot with JList l => l | _ => [] end).
  - right. exists "2025-09-08", (mkDate 2025 9 8). split; reflexivity.
  - reflexivity.
  - reflexivity.
  - intros item Hin. simpl in Hin.
    repeat (destruct Hin as [<-|Hin]; [eexists; reflexivity|]). contradiction.
Defined.

(** C6 as stated fails: of a name with three parts the city is the first
    part, not the whole name. *)
Lemma three_part_name_city_is_first_part :
  split_location "Mitte, Berlin, Deutschland" = (None, "Mitte")
  /\ snd (split_location "Mitte, Berlin, Deutschland")
     <> "Mitte, Berlin, Deutschland"
  /\ map loc_display_name
         (locations
            (imported sample_text_of sample_float_of
               (sample_fs (JList [posting (JStr "job_2") (JStr "Rust Developer")
                                          (JStr "0") "Mitte, Berlin, Deutschland"
                                          JNull JNull]))
               sample_path empty_db))
     = ["Mitte"].
Proof.
  split; [reflexivity|]. split; [|reflexivity]. discriminate.
Qed.

Lemma location_name_split_witness :
  split_location "Altona, Hamburg" = (Some "Altona", "Hamburg")
  /\ exists city,
      find (fun l => String.eqb (loc_display_name l) "Hamburg")
           (locations
              (fst (upsert_location sample_float_of
                      (mkJob 1 "job_1" "" "" false "" "" 1 None)
                      [("location", JDict [("display_name", JStr "Altona, Hamburg")])]
                      sample_db)))
      = Some city.
Proof.
  pose proof (@location_name_split sample_float_of
                (mkJob 1 "job_1" "" "" false "" "" 1 None)
                [("location", JDict [("display_name", JStr "Altona, Hamburg")])]
                [("display_name", JStr "Altona, Hamburg")]
                "Altona, Hamburg" sample_db eq_refl eq_refl)
    as H.
  assert (H1 : "Altona, Hamburg" <> "") by discriminate.
  assert (H2 : "Altona, Hamburg" <> "Deutschland") by discriminate.
  destruct (H H1 H2) as (_ & Hb & _ & Hcity & _).
  split; [|exact Hcity].
  apply (Hb "Altona" " Hamburg"); reflexivity.
Defined.

Lemma update_keeps_first_seen_date_witness :
  exists j',
    Job_get sample_text_of (JStr "job_1")
      (fst (process_record sample_text_of sample_float_of
              (Some (mkDate 2025 9 9))
              [("id", JStr "job_1"); ("title", JStr "Kotlin Developer")]
              sample_db)) = Some j'
    /\ job_title j' = "Kotlin Developer"
    /\ job_date j' = Some (mkDate 2025 9 8).
Proof.
  destruct (proj2 (@update_keeps_first_seen_date sample_text_of sample_float_of
                     (Some (mkDate 2025 9 9))
                     [("id", JStr "job_1"); ("title", JStr "Kotlin Developer")]
                     sample_db
                     (mkJob 1 "job_1" "Senior Python Entwickler" "Test job" true
                            "http://example.com" "ExampleCo" 1
                            (Some (mkDate 2025 9 8)))
                     eq_refl)
                  [] eq_refl eq_refl)
    as (j' & tech & Hget & _ & Htitle & _ & _ & _ & _ & _ & _ & _ & Hdate).
  exists j'. split; [exact Hget|]. split; [|exact Hdate].
  simpl in Htitle. now injection Htitle.
Defined.

Lemma salary_is_predicted_only_for_string_1_witness :
  storable [("id", JStr "job_9"); ("salary_is_predicted", JBool true)] = true
  /\ exists j',
      Job_get sample_text_of (JStr "job_9")
        (fst (process_record sample_text_of sample_float_of None
                [("id", JStr "job_9"); ("salary_is_predicted", JBool true)]
                empty_db)) = Some j'
      /\ job_salary_is_predicted j' <> true.
Proof.
  split; [reflexivity|].
  destruct (@salary_is_predicted_only_for_string_1 sample_text_of sample_float_of
              None [("id", JStr "job_9"); ("salary_is_predicted", JBool true)]
              empty_db eq_refl) as (j' & Hget & Hiff).
  exists j'. split; [exact Hget|]. intros Htrue. apply Hiff in Htrue. discriminate.
Defined.

(** ** The fetcher *)

Lemma fetch_pages_continue fuel api page all_jobs tr items :
  page_jobs (api page) = Some items ->
  fetch_pages (S fuel) api page all_jobs tr
  = fetch_pages fuel api (S page) (all_jobs ++ items)
      (tr ++ [Get page; LogPageLoaded page (length items); Sleep 1]).
Proof.
  unfold page_jobs. simpl.
  destruct (api page) as [| |data]; try discriminate.
  destruct data as [| | | | |kvs]; try discriminate.
  cbv zeta. destruct (truthy (dict_get kvs "results" (JList []))); [|discriminate].
  simpl. now intros ->.
Qed.

Lemma fetch_pages_stop fuel api page all_jobs tr e :
  page_stops (api page) = Some e ->
  fetch_pages (S fuel) api page all_jobs tr
  = Some (Break all_jobs, tr ++ [Get page; e]).
Proof.
  unfold page_stops, page_empty. simpl.
  destruct (api page) as [| |data]; try discriminate.
  - intros H. now injection H as <-.
  - destruct data as [| | | | |kvs]; try discriminate.
    destruct (truthy (dict_get kvs "results" (JList []))); [discriminate|].
    simpl. intros H. now injection H as <-.
Qed.

(** The loop over [n] pages that keep it going and one that stops it. *)
Lemma fetch_pages_run api e n :
  forall page all_jobs tr fuel,
    (forall q, page <= q < page + n -> page_jobs (api q) <> None) ->
    page_stops (api (page + n)) = Some e ->
    n < fuel ->
    fetch_pages fuel api page all_jobs tr
    = Some (Break (all_jobs ++ collect api page n),
            tr ++ page_events api page n ++ [Get (page + n); e]).
Proof.
  induction n as [|n IH]; intros page all_jobs tr fuel Hgo Hstop Hfuel;
    (destruct fuel as [|fuel]; [lia|]).
  - rewrite Nat.add_0_r in *. unfold collect, page_events. simpl.
    rewrite app_nil_r. now apply fetch_pages_stop.
  - destruct (page_jobs (api page)) as [items|] eqn:Hp;
      [|exfalso; apply (Hgo page); [lia | assumption]].
    rewrite (@fetch_pages_continue fuel api page all_jobs tr items Hp).
    rewrite IH; [| intros q Hq; apply Hgo; lia
                 | now rewrite Nat.add_succ_l, <- Nat.add_succ_r
                 | lia].
    unfold collect, page_events. cbn [seq flat_map]. rewrite Hp.
    rewrite Nat.add_succ_l, <- Nat.add_succ_r.
    now rewrite <- !app_assoc.
Qed.

Lemma requests_app tr1 tr2 : requests (tr1 ++ tr2) = requests tr1 ++ requests tr2.
Proof. unfold requests. apply flat_map_app. Qed.

Lemma requests_page_events api n :
  forall first,
    (forall q, first <= q < first + n -> page_jobs (api q) <> None) ->
    requests (page_events api first n) = seq first n.
Proof.
  induction n as [|n IH]; intros first Hgo; [reflexivity|].
  unfold page_events. cbn [seq flat_map].
  destruct (page_jobs (api first)) as [items|] eqn:Hp;
    [|exfalso; apply (Hgo first); [lia | assumption]].
  rewrite requests_app. simpl. f_equal. apply IH. intros q Hq. apply Hgo. lia.
Qed.

Lemma page_stops_event r e :
  page_stops r = Some e -> e = LogRequestError \/ e = LogNoMoreJobs.
Proof.
  unfold page_stops. destruct r; try destruct (page_empty _); intros H;
    try discriminate; injection H as <-; auto.
Qed.

(** The loop leaves through a [break] only at a page that stops it, every
    page before having kept it going. *)
Lemma fetch_pages_break_inv api fuel :
  forall page all_jobs tr all_jobs' tr',
    fetch_pages fuel api page all_jobs tr = Some (Break all_jobs', tr') ->
    exists n e,
      n < fuel
      /\ (forall q, page <= q < page + n -> page_jobs (api q) <> None)
      /\ page_stops (api (page + n)) = Some e.
Proof.
  induction fuel as [|fuel IH]; intros page all_jobs tr all_jobs' tr' H;
    [discriminate|].
  destruct (page_stops (api page)) as [e|] eqn:Hstop.
  { exists 0, e. rewrite Nat.add_0_r. split; [lia|]. split; [|assumption].
    intros q Hq. lia. }
  destruct (page_jobs (api page)) as [items|] eqn:Hp.
  - rewrite (@fetch_pages_continue fuel api page all_jobs tr items Hp) in H.
    apply IH in H. destruct H as (n & e & Hn & Hgo & He).
    exists (S n), e. split; [lia|]. split.
    + intros q Hq. destruct (Nat.eq_dec q page) as [->|Hne]; [congruence|].
      apply Hgo. lia.
    + now rewrite Nat.add_succ_r, <- Nat.add_succ_l.
  - exfalso. unfold page_stops, page_empty, page_jobs in *. simpl in H.
    destruct (api page) as [| |data]; try discriminate.
    destruct data as [| | | | |kvs]; try discriminate.
    destruct (truthy (dict_get kvs "results" (JList []))); simpl in *;
      [|discriminate].
    rewrite Hp in H. discriminate.
Qed.



(** A request that fails on page 3 after two full pages: the postings of
    the two pages are written all the same. *)
Example fetch_partial_after_request_error :
  let api := fun page => if page <=? 2 then fake_api 1 else RequestException in
  option_map (fun res => (returned res, option_map (fun w => length (snd w)) (written res),
                          requests (events res), existsb (fun e => match e with LogRequestError => true | _ => false end) (events res)))
             (fetch_jobs 10 (mkEnv (Some "i") (Some "k") api "2025-09-08" true))
  = Some (Some "all_jobs_2025-09-08.json", Some 4, [1; 2; 3], true).
Proof. vm_compute. reflexivity. Qed.

(** A page that is no JSON mapping is neither: the exception leaves the
    loop and the function, and nothing is written. *)
Example fetch_gives_up_on_malformed_page :
  option_map (fun res => (returned res, written res, requests (events res)))
             (fetch_jobs 10 (mkEnv (Some "i") (Some "k")
                                   (fun page => if page =? 1 then fake_api 1 else BadBody)
                                   "2025-09-08" true))
  = Some (None, None, [1; 2]).
Proof. vm_compute. reflexivity. Qed.

(** * Further properties *)

Unset Implicit Arguments.

(** ** The cleaning step, position by position *)

Lemma rmatch_suffix r :
  forall k,
    (forall s rest, k s = Some rest -> String.length rest <= String.length s) ->
    forall s rest,
      Re.rmatch r k s = Some rest -> String.length rest <= String.length s.
Proof.
  induction r as [p|p|r1 IH1 r2 IH2|r1 IH1 r2 IH2]; intros k Hk s rest H.
  - destruct s as [|c s]; [discriminate|]. simpl in H.
    destruct (Re.cset_mem p c); [|discriminate].
    apply Hk in H. simpl. lia.
  - simpl in H. revert rest H. induction s as [|c s IHs]; intros rest H; simpl in H.
    + destruct (k EmptyString) eqn:Hke; [|discriminate].
      injection H as <-. now apply Hk in Hke.
    + destruct (k (String c s)) eqn:Hke.
      * injection H as <-. now apply Hk in Hke.
      * destruct (Re.cset_mem p c); [|discriminate].
        apply IHs in H. simpl. lia.
  - simpl in H. eapply IH1; [|exact H]. intros s' rest' H'.
    eapply IH2; eassumption.
  - simpl in H. destruct (Re.rmatch r1 k s) eqn:H1.
    + injection H as <-. eapply IH1; eassumption.
    + eapply IH2; eassumption.
Qed.

Lemma rmatch_alt r1 r2 k s rest :
  Re.rmatch (Re.RAlt r1 r2) k s = Some rest ->
  Re.rmatch r1 k s = Some rest \/ Re.rmatch r2 k s = Some rest.
Proof.
  simpl. destruct (Re.rmatch r1 k s); [intros H; now left | now right].
Qed.

Lemma rmatch_atom_first p r k s rest :
  (forall s0 r0, k s0 = Some r0 -> String.length r0 <= String.length s0) ->
  Re.rmatch (Re.RSeq (Re.RAtom p) r) k s = Some rest ->
  String.length rest < String.length s.
Proof.
  intros Hk H. destruct s as [|c s]; [discriminate|]. simpl in H.
  destruct (Re.cset_mem p c); [|discriminate].
  apply (rmatch_suffix r k Hk) in H. simpl. lia.
Qed.

(** A match of the noise pattern takes at least one character. *)
Lemma title_noise_consumes s rest :
  Re.match_at title_noise s = Some rest ->
  String.length rest < String.length s.
Proof.
  assert (Hid : forall s0 r0, Some s0 = Some r0 ->
                              String.length r0 <= String.length s0)
    by (intros s0 r0 H; injection H as <-; lia).
  unfold Re.match_at, title_noise. intros H.
  apply rmatch_alt in H. destruct H as [H|H].
  - now apply rmatch_atom_first in H.
  - apply rmatch_alt in H. destruct H as [H|H].
    + now apply rmatch_atom_first in H.
    + unfold sep_alt in H. destruct s as [|c s]; [discriminate|]. simpl in H.
      destruct (_ || _); [|discriminate]. injection H as <-. simpl. lia.
Qed.

(** The scan of [re.sub] does not depend on the fuel, once there is enough. *)
Lemma clean_from_stable n :
  forall s fuel1 fuel2,
    String.length s <= n ->
    String.length s < fuel1 -> String.length s < fuel2 ->
    Re.sub_from fuel1 title_noise " " s = Re.sub_from fuel2 title_noise " " s.
Proof.
  induction n as [|n IH]; intros s fuel1 fuel2 Hn H1 H2;
    (destruct fuel1 as [|fuel1]; [lia|]); (destruct fuel2 as [|fuel2]; [lia|]);
    cbn [Re.sub_from].
  - destruct s; [|simpl in Hn; lia]. reflexivity.
  - destruct (Re.match_at title_noise s) as [rest|] eqn:Hm.
    + pose proof (title_noise_consumes _ _ Hm) as Hlt.
      apply Nat.ltb_lt in Hlt. rewrite Hlt. apply Nat.ltb_lt in Hlt.
      f_equal. apply IH; lia.
    + destruct s as [|c s]; [reflexivity|]. simpl in Hn, H1, H2.
      f_equal. apply IH; lia.
Qed.

Lemma sub_from_S fuel r repl s :
  Re.sub_from (S fuel) r repl s =
  match Re.match_at r s with
  | Some rest =>
      if String.length rest <? String.length s
      then (repl ++ Re.sub_from fuel r repl rest)%string
      else match s with
           | String c s' => (repl ++ String c (Re.sub_from fuel r repl s'))%string
           | EmptyString => repl
           end
  | None =>
      match s with
      | String c s' => String c (Re.sub_from fuel r repl s')
      | EmptyString => EmptyString
      end
  end.
Proof. reflexivity. Qed.

(** The cleaning step as a scan from the left. *)
Lemma clean_title_nil : clean_title "" = "".
Proof. reflexivity. Qed.

Lemma clean_title_match s rest :
  Re.match_at title_noise s = Some rest ->
  clean_title s = String " " (clean_title rest).
Proof.
  intros Hm. pose proof (title_noise_consumes _ _ Hm) as Hlt.
  unfold clean_title, Re.sub. rewrite (sub_from_S (String.length s)), Hm.
  apply Nat.ltb_lt in Hlt. rewrite Hlt. apply Nat.ltb_lt in Hlt.
  cbn [String.append]. f_equal.
  apply clean_from_stable with (n := String.length rest); lia.
Qed.

Lemma clean_title_copy c s :
  Re.match_at title_noise (String c s) = None ->
  clean_title (String c s) = String c (clean_title s).
Proof.
  intros Hm. unfold clean_title, Re.sub.
  rewrite (sub_from_S (String.length (String c s))), Hm.
  reflexivity.
Qed.

Lemma clean_title_scan (P : string -> string -> Prop) :
  P "" "" ->
  (forall s rest,
      Re.match_at title_noise s = Some rest ->
      P rest (clean_title rest) -> P s (String " " (clean_title rest))) ->
  (forall c s,
      Re.match_at title_noise (String c s) = None ->
      P s (clean_title s) -> P (String c s) (String c (clean_title s))) ->
  forall s, P s (clean_title s).
Proof.
  intros Hnil Hmatch Hcopy.
  assert (H : forall n s, String.length s <= n -> P s (clean_title s)).
  { induction n as [|n IH]; intros s Hn.
    - destruct s; [exact Hnil | simpl in Hn; lia].
    - destruct (Re.match_at title_noise s) as [rest|] eqn:Hm.
      + rewrite (clean_title_match _ _ Hm). apply Hmatch; [exact Hm|].
        apply IH. pose proof (title_noise_consumes _ _ Hm). lia.
      + destruct s as [|c s]; [exact Hnil|].
        rewrite (clean_title_copy _ _ Hm). apply Hcopy; [exact Hm|].
        apply IH. simpl in Hn. lia. }
  intros s. now apply (H (String.length s)).
Qed.

(** ** What the classifier can return *)

Lemma scan_words_result techs words :
  scan_words techs words = "Other"
  \/ exists word tech,
      In word words /\ In tech techs /\ word = PyStr.lower tech
      /\ scan_words techs words = tech.
Proof.
  induction words as [|w words IH]; [now left|].
  rewrite scan_words_cons.
  destruct (PyStr.mem_string w IGNORE_WORDS).
  - destruct IH as [IH|(w' & t & Hw & Ht & Hl & Hs)]; [now left | right].
    exists w', t. simpl. auto.
  - destruct (find _ techs) as [t|] eqn:Hf.
    + right. apply find_some in Hf. destruct Hf as [Ht Heq].
      apply String.eqb_eq in Heq. exists w, t. simpl. auto.
    + destruct IH as [IH|(w' & t & Hw & Ht & Hl & Hs)]; [now left | right].
      exists w', t. simpl. auto.
Qed.

(** X1. Whatever the title and the order of the vocabulary, the classifier
    returns a member of the vocabulary or "Other", never anything else;
    with KNOWN_TECHS the label is not empty, so that the [or "Other"] of
    the importer never acts. *)
Theorem extract_tech_closed_vocabulary :
  (forall techs title, In (extract_tech_in techs title) ("Other" :: techs))
  /\ (forall title, extract_tech title <> "").
Proof.
  assert (H : forall techs title, In (extract_tech_in techs title) ("Other" :: techs)).
  { intros techs title. unfold extract_tech_in.
    destruct (scan_words_result techs
                (PyStr.split_ws (PyStr.lower (clean_title title))))
      as [->|(w & t & _ & Ht & _ & ->)]; simpl; auto. }
  split; [exact H|].
  intros title Hempty. specialize (H KNOWN_TECHS title).
  unfold extract_tech in Hempty. rewrite Hempty in H.
  simpl in H. repeat (destruct H as [H|H]; [discriminate|]). exact H.
Qed.

(** ** Characters of the tokens *)

Lemma rev_string_chars c s :
  forall acc,
    PyStr.mem_char c (PyStr.rev_string acc s)
    = PyStr.mem_char c acc || PyStr.mem_char c s.
Proof.
  induction s as [|d s IH]; intros acc; simpl.
  - now rewrite orb_false_r.
  - rewrite IH. simpl. destruct (Ascii.eqb c d), (PyStr.mem_char c acc),
      (PyStr.mem_char c s); reflexivity.
Qed.

Lemma flush_chars c acc ws w :
  In w (PyStr.flush acc ws) ->
  PyStr.mem_char c w = true ->
  PyStr.mem_char c acc = true \/ (In w ws).
Proof.
  unfold PyStr.flush. destruct acc as [|d acc]; [auto|].
  intros [<-|Hin] Hc; [|auto].
  left. rewrite rev_string_chars in Hc. exact Hc.
Qed.

(** A character of a token is a character of the string. *)
Lemma split_ws_chars c w s :
  In w (PyStr.split_ws s) ->
  PyStr.mem_char c w = true -> PyStr.mem_char c s = true.
Proof.
  unfold PyStr.split_ws.
  assert (H : forall s acc,
             In w (PyStr.split_ws_aux acc s) ->
             PyStr.mem_char c w = true ->
             PyStr.mem_char c acc = true \/ PyStr.mem_char c s = true).
  { induction s0 as [|d s0 IH]; intros acc Hin Hc; simpl in Hin.
    - destruct (flush_chars c acc [] w Hin Hc) as [H|[]]. now left.
    - destruct (PyStr.is_space d).
      + destruct (flush_chars c acc _ w Hin Hc) as [H|H]; [now left|].
        destruct (IH _ H Hc) as [H'|H']; [discriminate|].
        right. simpl. rewrite H'. apply orb_true_r.
      + destruct (IH _ Hin Hc) as [H'|H'].
        * simpl in H'. apply orb_true_iff in H'. destruct H' as [H'|H'].
          -- right. simpl. now rewrite H'.
          -- now left.
        * right. simpl. rewrite H'. apply orb_true_r. }
  intros Hin Hc. destruct (H s EmptyString Hin Hc) as [H'|H']; [discriminate|exact H'].
Qed.

Lemma lower_char_slash c :
  Ascii.eqb "/" (PyStr.lower_char c) = Ascii.eqb "/" c.
Proof. destruct c as [[] [] [] [] [] [] [] []]; reflexivity. Qed.

Lemma lower_slash s :
  PyStr.mem_char "/" (PyStr.lower s) = PyStr.mem_char "/" s.
Proof.
  induction s as [|c s IH]; [reflexivity|].
  cbn [PyStr.lower PyStr.mem_char]. now rewrite lower_char_slash, IH.
Qed.

(** Every slash of a title is cleaned away. *)
Lemma clean_title_no_slash s : PyStr.mem_char "/" (clean_title s) = false.
Proof.
  apply (clean_title_scan (fun _ out => PyStr.mem_char "/" out = false)).
  - reflexivity.
  - intros s0 rest _ IH. cbn [PyStr.mem_char]. now rewrite IH.
  - intros c s0 Hm IH. cbn [PyStr.mem_char]. rewrite IH, orb_false_r.
    destruct (Ascii.eqb "/" c) eqn:Hc; [|reflexivity].
    apply Ascii.eqb_eq in Hc. subst c.
    rewrite title_noise_outside_parens in Hm by reflexivity.
    discriminate.
Qed.

(** X2. No token of a cleaned title holds a slash, so the classifier never
    returns a label with a slash in it: the member "PL/SQL" of the
    vocabulary is out of its reach, whatever the title. *)
Theorem extract_tech_never_a_slash :
  (forall techs title, PyStr.mem_char "/" (extract_tech_in techs title) = false)
  /\ (forall title, extract_tech title <> "PL/SQL").
Proof.
  assert (H : forall techs title,
             PyStr.mem_char "/" (extract_tech_in techs title) = false).
  { intros techs title. unfold extract_tech_in.
    destruct (scan_words_result techs
                (PyStr.split_ws (PyStr.lower (clean_title title))))
      as [->|(w & t & Hw & _ & Hl & ->)]; [reflexivity|].
    destruct (PyStr.mem_char "/" t) eqn:Ht; [|reflexivity].
    rewrite <- lower_slash, <- Hl in Ht.
    apply (split_ws_chars _ _ _ Hw) in Ht.
    rewrite lower_slash, clean_title_no_slash in Ht. discriminate. }
  split; [exact H|].
  intros title Heq. specialize (H KNOWN_TECHS title).
  unfold extract_tech in Heq. rewrite Heq in H. discriminate.
Qed.

(** ** Parenthesised text *)

Lemma lazy_star_until_paren b c :
  PyStr.mem_char ")" b = false ->
  PyStr.mem_char "010" b = false ->
  Re.lazy_star Re.CDot (Re.rmatch (Re.RAtom (Re.CChar ")")) Some)
               (b ++ String ")" c)
  = Some c.
Proof.
  induction b as [|x b IH]; intros Hp Hn.
  - cbn. reflexivity.
  - cbn [PyStr.mem_char] in Hp, Hn.
    apply orb_false_elim in Hp. destruct Hp as [Hx Hp].
    apply orb_false_elim in Hn. destruct Hn as [Hy Hn].
    rewrite Ascii.eqb_sym in Hx. rewrite Ascii.eqb_sym in Hy.
    cbn [String.append Re.lazy_star Re.rmatch Re.cset_mem].
    rewrite Hx, Hy. cbn [negb]. now apply IH.
Qed.

Lemma paren_segment_match b c :
  PyStr.mem_char ")" b = false ->
  PyStr.mem_char "010" b = false ->
  Re.match_at title_noise (String "(" (b ++ String ")" c)) = Some c.
Proof.
  intros Hp Hn. unfold Re.match_at, title_noise, paren_alt.
  cbn [Re.rmatch Re.cset_mem]. rewrite Ascii.eqb_refl.
  now rewrite lazy_star_until_paren.
Qed.

Lemma clean_title_app a rest :
  PyStr.mem_char "(" a = false ->
  clean_title (a ++ rest) = (map_chars noise_to_space a ++ clean_title rest)%string.
Proof.
  induction a as [|x a IH]; intros Ha; [reflexivity|].
  cbn [PyStr.mem_char] in Ha. apply orb_false_elim in Ha.
  destruct Ha as [Hx Ha]. rewrite Ascii.eqb_sym in Hx.
  cbn [String.append map_chars].
  pose proof (title_noise_outside_parens x (a ++ rest) Hx) as Hm.
  unfold noise_to_space at 1. destruct (PyStr.mem_char x "/-,").
  - rewrite (clean_title_match _ _ Hm). now rewrite IH.
  - rewrite (clean_title_copy _ _ Hm). now rewrite IH.
Qed.

Lemma clean_title_paren a b c :
  PyStr.mem_char "(" a = false ->
  PyStr.mem_char ")" b = false ->
  PyStr.mem_char "010" b = false ->
  clean_title (a ++ String "(" (b ++ String ")" c))
  = clean_title (a ++ String " " c).
Proof.
  intros Ha Hp Hn. rewrite !clean_title_app by assumption. f_equal.
  rewrite (clean_title_match _ _ (paren_segment_match b c Hp Hn)).
  now rewrite clean_title_copy by reflexivity.
Qed.

(** X3. What a title holds between an opening parenthesis and the next
    closing one, on one line, does not reach the classifier: the title
    gives the label it gives with a space in place of the segment.  A
    technology named in parentheses only is not found. *)
Theorem extract_tech_ignores_parenthesised (techs : list string) (a b c : string) :
  PyStr.mem_char "(" a = false ->
  PyStr.mem_char ")" b = false ->
  PyStr.mem_char "010" b = false ->
  extract_tech_in techs (a ++ String "(" (b ++ String ")" c))
  = extract_tech_in techs (a ++ String " " c).
Proof.
  intros Ha Hp Hn. unfold extract_tech_in.
  now rewrite clean_title_paren.
Qed.

Lemma extract_tech_ignores_parenthesised_witness :
  extract_tech "Softwareentwickler (Java) Berlin" = "Other".
Proof.
  exact (extract_tech_ignores_parenthesised KNOWN_TECHS "Softwareentwickler " "Java"
           " Berlin" eq_refl eq_refl eq_refl).
Defined.

(** ** Upper and lower case *)

Lemma lower_is_map_chars s : PyStr.lower s = map_chars PyStr.lower_char s.
Proof. induction s as [|c s IH]; [reflexivity|]. simpl. now rewrite IH. Qed.

Lemma lazy_star_eq p k s :
  Re.lazy_star p k s =
  match k s with
  | Some rest => Some rest
  | None =>
      match s with
      | String c s' => if Re.cset_mem p c then Re.lazy_star p k s' else None
      | EmptyString => None
      end
  end.
Proof. destruct s; reflexivity. Qed.

Lemma rmatch_map_chars f r :
  atoms_respected f r ->
  forall k k',
    (forall s, k' (map_chars f s) = option_map (map_chars f) (k s)) ->
    forall s,
      Re.rmatch r k' (map_chars f s) = option_map (map_chars f) (Re.rmatch r k s).
Proof.
  induction r as [p|p|r1 IH1 r2 IH2|r1 IH1 r2 IH2]; intros Hf k k' Hk s.
  - destruct s as [|c s]; [reflexivity|]. cbn [map_chars Re.rmatch].
    rewrite (Hf c). destruct (Re.cset_mem p c); [apply Hk | reflexivity].
  - cbn [Re.rmatch]. induction s as [|c s IHs];
      rewrite (lazy_star_eq p k'), (lazy_star_eq p k), Hk.
    + now destruct (k EmptyString).
    + destruct (k (String c s)); [reflexivity|].
      cbn [option_map map_chars]. rewrite (Hf c).
      destruct (Re.cset_mem p c); [exact IHs | reflexivity].
  - destruct Hf as [Hf1 Hf2]. cbn [Re.rmatch].
    apply IH1; [exact Hf1|]. intros s'. now apply IH2.
  - destruct Hf as [Hf1 Hf2]. cbn [Re.rmatch].
    rewrite (IH1 Hf1 k k' Hk s). destruct (Re.rmatch r1 k s); [reflexivity|].
    cbn [option_map]. now apply IH2.
Qed.

Lemma lower_char_respects_noise : atoms_respected PyStr.lower_char title_noise.
Proof.
  unfold title_noise, paren_alt, slash_alt, sep_alt. cbn [atoms_respected].
  repeat split; intros c; destruct c as [[] [] [] [] [] [] [] []]; reflexivity.
Qed.

Lemma title_noise_lower s :
  Re.match_at title_noise (PyStr.lower s)
  = option_map PyStr.lower (Re.match_at title_noise s).
Proof.
  unfold Re.match_at. rewrite lower_is_map_chars.
  rewrite (rmatch_map_chars PyStr.lower_char title_noise lower_char_respects_noise
             Some Some) by reflexivity.
  destruct (Re.rmatch title_noise Some s); [|reflexivity].
  simpl. now rewrite lower_is_map_chars.
Qed.

Lemma clean_title_lower s :
  clean_title (PyStr.lower s) = PyStr.lower (clean_title s).
Proof.
  apply (clean_title_scan
           (fun s out => clean_title (PyStr.lower s) = PyStr.lower out)).
  - reflexivity.
  - intros s0 rest Hm IH.
    assert (Hm' : Re.match_at title_noise (PyStr.lower s0) = Some (PyStr.lower rest))
      by (now rewrite title_noise_lower, Hm).
    rewrite (clean_title_match _ _ Hm'), IH. reflexivity.
  - intros c s0 Hm IH.
    assert (Hm' : Re.match_at title_noise (PyStr.lower (String c s0)) = None)
      by (now rewrite title_noise_lower, Hm).
    cbn [PyStr.lower] in Hm' |- *.
    rewrite (clean_title_copy _ _ Hm'), IH. reflexivity.
Qed.

Lemma lower_char_idempotent c :
  PyStr.lower_char (PyStr.lower_char c) = PyStr.lower_char c.
Proof. destruct c as [[] [] [] [] [] [] [] []]; reflexivity. Qed.

Lemma lower_idempotent s : PyStr.lower (PyStr.lower s) = PyStr.lower s.
Proof.
  induction s as [|c s IH]; [reflexivity|].
  cbn [PyStr.lower]. now rewrite lower_char_idempotent, IH.
Qed.

Lemma title_tokens_lower s : title_tokens (PyStr.lower s) = title_tokens s.
Proof.
  unfold title_tokens. now rewrite clean_title_lower, lower_idempotent.
Qed.

(** X4. The classifier does not see the case of the letters: two titles
    with the same lower-cased form get the same label. *)
Theorem extract_tech_case_insensitive (techs : list string) (title title' : string) :
  PyStr.lower title = PyStr.lower title' ->
  extract_tech_in techs title = extract_tech_in techs title'.
Proof.
  intros H. unfold extract_tech_in.
  fold (title_tokens title). fold (title_tokens title').
  now rewrite <- (title_tokens_lower title), <- (title_tokens_lower title'), H.
Qed.

Lemma extract_tech_case_insensitive_witness :
  extract_tech "SENIOR KOTLIN ENTWICKLER" = extract_tech "senior Kotlin Entwickler".
Proof.
  exact (extract_tech_case_insensitive KNOWN_TECHS "SENIOR KOTLIN ENTWICKLER"
           "senior Kotlin Entwickler" eq_refl).
Defined.

(** ** What a record changes in each table *)

Section ImporterInvariants.

Variable text_of : json -> string.
Variable float_of : json -> option Z.

Local Abbreviation Job_get := (Job_get text_of).
Local Abbreviation upsert_job := (upsert_job text_of).
Local Abbreviation upsert_location := (upsert_location float_of).
Local Abbreviation process_record := (process_record text_of float_of).
Local Abbreviation import_loop := (import_loop text_of float_of).
Local Abbreviation loop_db := (loop_db text_of float_of).
Local Abbreviation imported := (imported text_of float_of).
Local Abbreviation import_jobs_from_json := (import_jobs_from_json text_of float_of).
Local Abbreviation step d :=
  (fun db job_data => fst (process_record d job_data db)).

Lemma find_none_names {A} (name : A -> string) (n : string) (l : list A) :
  find (fun a => String.eqb (name a) n) l = None -> ~ In n (map name l).
Proof.
  intros Hf Hin. apply in_map_iff in Hin. destruct Hin as [a [Hn Ha]].
  apply (find_none _ _ Hf) in Ha. rewrite Hn, String.eqb_refl in Ha. discriminate.
Qed.

(** The first stage adds at most the Tech of the record. *)
Lemma upsert_job_techs d job_data db db' r :
  upsert_job d job_data db = (db', r) ->
  techs db' = techs db
  \/ (find (fun t => String.eqb (tech_name t) (rec_tech_name job_data)) (techs db) = None
      /\ techs db' = techs db ++ [mkTech (next_pk (map tech_pk (techs db)))
                                         (rec_tech_name job_data)]).
Proof.
  rewrite upsert_job_eq. unfold bind at 1, attr_get.
  destruct (rec_company job_data) as [| | | | |c];
    try (unfold raise; intros H; injection H as <- _; now left).
  unfold ret at 1. unfold bind at 1, Tech_get_or_create.
  destruct (find _ (techs db)) as [t|] eqn:Ht; cbv beta iota; intros H;
    apply (@job_write_spec text_of float_of) in H; destruct H as (Htechs & _).
  - now left.
  - right. split; [first [reflexivity | exact Ht] | exact Htechs].
Qed.

(** The second stage adds at most the Location of the record. *)
Lemma upsert_location_locations job job_data db db' r :
  upsert_location job job_data db = (db', r) ->
  locations db' = locations db
  \/ exists s,
      rec_location job_data = Some s
      /\ find (fun l => String.eqb (loc_display_name l) (snd (split_location s)))
              (locations db) = None
      /\ locations db' = locations db
                         ++ [mkLocation (next_pk (map loc_pk (locations db)))
                                        (snd (split_location s))].
Proof.
  intros H. destruct (rec_location job_data) as [s|] eqn:Hloc.
  2:{ destruct (@upsert_location_none float_of job job_data db Hloc) as [r' Hr].
      rewrite Hr in H. injection H as <- _. now left. }
  rewrite (@upsert_location_some float_of job job_data s db Hloc) in H.
  unfold bind at 1, Location_get_or_create in H.
  destruct (find _ (locations db)) as [city|] eqn:Hcity; cbv beta iota in H;
    apply (@job_location_write_spec float_of) in H; destruct H as (_ & _ & Hl & _).
  - now left.
  - right. exists s. split; [reflexivity|]. split; [exact Hcity | exact Hl].
Qed.

(** What one record does to the Jobs: nothing, an update in place of the
    row of its identifier, or one row appended under a fresh identifier. *)
Lemma upsert_job_jobs d job_data db db' r :
  upsert_job d job_data db = (db', r) ->
  jobs db' = jobs db
  \/ (exists j0 j',
         In j0 (jobs db) /\ job_key j' = job_key j0 /\ job_date j' = job_date j0
         /\ In (job_tech j') (map tech_pk (techs db'))
         /\ jobs db' = map (fun x => if job_pk x =? job_pk j0 then j' else x) (jobs db))
  \/ (exists j',
         ~ In (job_id j') (map job_id (jobs db))
         /\ job_pk j' = next_pk (map job_pk (jobs db))
         /\ job_date j' = d
         /\ In (job_tech j') (map tech_pk (techs db'))
         /\ jobs db' = jobs db ++ [j']).
Proof.
  intros H. apply (@upsert_job_spec text_of float_of) in H.
  destruct H as (_ & _ & _ & H).
  destruct (rec_company job_data) as [| | | | |c];
    try (destruct H as [-> _]; now left).
  destruct H as (tech & Htech & H). apply find_some in Htech.
  destruct Htech as [Htech _].
  destruct (storable job_data); [|left; apply H].
  destruct H as (job & j' & _ & Hget' & Hkey & Hsf & H).
  assert (Hfk : In (job_tech j') (map tech_pk (techs db'))).
  { destruct Hsf as (_ & _ & _ & _ & _ & ->). simpl. now apply in_map. }
  destruct (Job_get (rec_id job_data) db) as [j0|] eqn:Hget.
  - destruct H as (-> & Hd & Hjobs). right. left. exists j0, j'.
    apply (@Job_get_In text_of) in Hget. auto.
  - destruct H as (Hd & Hjobs & Hpk). right. right. exists j'.
    split; [|auto]. unfold Job_get in Hget, Hget'.
    destruct (char_value text_of (rec_id job_data)) as [k|]; [|discriminate].
    apply find_some in Hget'. destruct Hget' as [_ Hk].
    apply String.eqb_eq in Hk. rewrite Hk.
    now apply (find_none_names job_id).
Qed.

(** What one record does to the JobLocations: nothing, an update in place
    of the row of its triple, or one row appended for the Job and the
    Location of the record. *)
Lemma upsert_location_job_locations job job_data db db' r :
  upsert_location job job_data db = (db', r) ->
  job_locations db' = job_locations db
  \/ (exists jl jl',
         In jl (job_locations db) /\ jl_pk jl' = jl_pk jl /\ jl_key jl' = jl_key jl
         /\ job_locations db'
            = map (fun x => if jl_pk x =? jl_pk jl then jl' else x) (job_locations db))
  \/ (exists jl' city,
         In city (locations db')
         /\ jl_key jl' = (job_pk job, loc_pk city, jl_district jl')
         /\ ~ In (jl_key jl') (map jl_key (job_locations db))
         /\ jl_pk jl' = next_pk (map jl_pk (job_locations db))
         /\ job_locations db' = job_locations db ++ [jl']).
Proof.
  intros H. destruct (rec_location job_data) as [s|] eqn:Hloc.
  2:{ destruct (@upsert_location_none float_of job job_data db Hloc) as [r' Hr].
      rewrite Hr in H. injection H as <- _. now left. }
  apply (@upsert_location_spec float_of job job_data s db db' r Hloc) in H.
  cbv zeta in H. destruct H as (_ & _ & city & Hcity & _ & H).
  apply find_some in Hcity. destruct Hcity as [Hcity _].
  destruct (JobLocation_first job city _ db) as [jl|] eqn:Hfirst.
  - apply JobLocation_first_In in Hfirst. destruct Hfirst as [Hin Hkey].
    destruct (_ || _); [|left; apply H].
    destruct (new_coord float_of (jl_latitude jl) _) as [la|]; [|left; apply H].
    destruct (new_coord float_of (jl_longitude jl) _) as [lo|]; [|left; apply H].
    destruct H as [_ H]. right. left.
    exists jl, (mkJobLocation (jl_pk jl) (jl_job jl) (jl_location jl)
                              (jl_district jl) la lo).
    split; [exact Hin|]. split; [|split; [|exact H]]; reflexivity.
  - apply JobLocation_first_none in Hfirst.
    destruct (float_value float_of _) as [la|]; [|left; apply H].
    destruct (float_value float_of _) as [lo|]; [|left; apply H].
    destruct H as [_ H]. right. right.
    exists (mkJobLocation (next_pk (map jl_pk (job_locations db))) (job_pk job)
                          (loc_pk city) (fst (split_location s)) la lo), city.
    split; [exact Hcity|]. split; [reflexivity|]. split; [exact Hfirst|].
    split; [reflexivity | exact H].
Qed.

(** The Job the first stage hands on is a row of the store. *)
Lemma upsert_job_ret_pk d job_data db db' job :
  upsert_job d job_data db = (db', Ret job) ->
  In (job_pk job) (map job_pk (jobs db')).
Proof.
  intros H. apply (@upsert_job_spec text_of float_of) in H.
  destruct H as (_ & _ & _ & H).
  destruct (rec_company job_data) as [| | | | |c];
    try (destruct H as [_ H]; discriminate).
  destruct H as (tech & _ & H).
  destruct (storable job_data); [|destruct H; discriminate].
  destruct H as (job' & j' & Hr & Hget & Hkey & _). injection Hr as <-.
  apply (@Job_get_In text_of) in Hget. injection Hkey as Hpk _.
  rewrite <- Hpk. now apply in_map.
Qed.

Lemma map_update_pk {A} (pk : A -> nat) (l : list A) (a a' : A) :
  pk a' = pk a ->
  map pk (map (fun r => if pk r =? pk a then a' else r) l) = map pk l.
Proof.
  intros Hpk. rewrite map_map. apply map_ext. intros r.
  destruct (pk r =? pk a) eqn:H; [|reflexivity].
  apply Nat.eqb_eq in H. congruence.
Qed.

(** ** Invariants of one record *)

Lemma process_record_tech_names d job_data db :
  tech_names_unique db -> tech_names_unique (fst (process_record d job_data db)).
Proof.
  unfold tech_names_unique. intros Hnd. rewrite process_record_eq.
  destruct (upsert_job d job_data db) as [db1 r1] eqn:H1.
  assert (H1' : NoDup (map tech_name (techs db1))).
  { destruct (upsert_job_techs _ _ _ _ _ H1) as [->|[Hf ->]]; [assumption|].
    rewrite map_app. apply NoDup_snoc; [assumption|].
    now apply (find_none_names tech_name). }
  destruct r1 as [job|e]; [|exact H1'].
  destruct (upsert_location job job_data db1) as [db2 r2] eqn:H2. simpl.
  destruct (@upsert_location_frame float_of job job_data db1 db2 r2 H2) as [-> _].
  exact H1'.
Qed.

Lemma process_record_location_names d job_data db :
  location_names_unique db ->
  location_names_unique (fst (process_record d job_data db)).
Proof.
  unfold location_names_unique. intros Hnd. rewrite process_record_eq.
  destruct (upsert_job d job_data db) as [db1 r1] eqn:H1.
  apply (@upsert_job_spec text_of float_of) in H1. destruct H1 as (Hl1 & _).
  destruct r1 as [job|e]; [|simpl; now rewrite Hl1].
  destruct (upsert_location job job_data db1) as [db2 r2] eqn:H2. simpl.
  destruct (upsert_location_locations _ _ _ _ _ H2) as [->|(s & _ & Hf & ->)];
    rewrite Hl1 in *; [assumption|].
  rewrite map_app. apply NoDup_snoc; [assumption|].
  now apply (find_none_names loc_display_name).
Qed.

Lemma process_record_job_ids d job_data db :
  wf db -> job_ids_unique db ->
  job_ids_unique (fst (process_record d job_data db)).
Proof.
  unfold job_ids_unique. intros [Hpk _] Hnd. rewrite process_record_eq.
  destruct (upsert_job d job_data db) as [db1 r1] eqn:H1.
  assert (H1' : NoDup (map job_id (jobs db1))).
  { destruct (upsert_job_jobs _ _ _ _ _ H1)
      as [->|[(j0 & j' & Hin & Hkey & _ & _ & ->)|(j' & Hid & _ & _ & _ & ->)]].
    - assumption.
    - rewrite (map_update_key job_pk job_id); auto. now injection Hkey.
    - rewrite map_app. now apply NoDup_snoc. }
  destruct r1 as [job|e]; [|exact H1'].
  destruct (upsert_location job job_data db1) as [db2 r2] eqn:H2. simpl.
  destruct (@upsert_location_frame float_of job job_data db1 db2 r2 H2) as [_ ->].
  exact H1'.
Qed.

Lemma in_map_update {A} (c : A -> bool) (a' x : A) (l : list A) :
  In x (map (fun r => if c r then a' else r) l) -> x = a' \/ In x l.
Proof.
  intros H. apply in_map_iff in H. destruct H as [r [Hr Hin]].
  destruct (c r); subst; auto.
Qed.

Lemma process_record_fk d job_data db :
  fk_valid db -> fk_valid (fst (process_record d job_data db)).
Proof.
  intros [HJ HL]. rewrite process_record_eq.
  destruct (upsert_job d job_data db) as [db1 r1] eqn:H1.
  pose proof (@upsert_job_spec text_of float_of _ _ _ _ _ H1) as (Hl1 & Hk1 & _).
  assert (Htechs : incl (map tech_pk (techs db)) (map tech_pk (techs db1))).
  { destruct (upsert_job_techs _ _ _ _ _ H1) as [->|[_ ->]];
      [apply incl_refl|]. rewrite map_app. now apply incl_appl, incl_refl. }
  assert (Hfk1 : fk_valid db1).
  { destruct (upsert_job_jobs _ _ _ _ _ H1)
      as [Hj|[(j0 & j' & Hin & Hkey & _ & Hfk & Hj)|(j' & _ & _ & _ & Hfk & Hj)]];
      split.
    - rewrite Hj. intros j Hjn. apply Htechs. now apply HJ.
    - rewrite Hk1, Hl1, Hj. exact HL.
    - rewrite Hj. intros j Hjn. apply in_map_update in Hjn.
      destruct Hjn as [->|Hjn]; [exact Hfk | apply Htechs; now apply HJ].
    - rewrite Hk1, Hl1, Hj. rewrite (map_update_pk job_pk); [exact HL|].
      now injection Hkey.
    - rewrite Hj. intros j Hjn. apply in_app_iff in Hjn.
      destruct Hjn as [Hjn|[<-|[]]]; [apply Htechs; now apply HJ | exact Hfk].
    - rewrite Hk1, Hl1, Hj. intros jl Hjl. destruct (HL jl Hjl) as [Ha Hb].
      split; [|exact Hb]. rewrite map_app. apply in_app_iff. now left. }
  destruct r1 as [job|e]; [|exact Hfk1].
  pose proof (upsert_job_ret_pk _ _ _ _ _ H1) as Hjob.
  destruct (upsert_location job job_data db1) as [db2 r2] eqn:H2. simpl.
  destruct Hfk1 as [HJ1 HL1].
  destruct (@upsert_location_frame float_of job job_data db1 db2 r2 H2) as [Ht2 Hj2].
  assert (Hlocs : incl (map loc_pk (locations db1)) (map loc_pk (locations db2))).
  { destruct (upsert_location_locations _ _ _ _ _ H2) as [->|(s & _ & _ & ->)];
      [apply incl_refl|]. rewrite map_app. now apply incl_appl, incl_refl. }
  split; [rewrite Ht2, Hj2; exact HJ1|]. rewrite Hj2.
  assert (Hold : forall jl, In jl (job_locations db1) ->
                            In (jl_job jl) (map job_pk (jobs db1))
                            /\ In (jl_location jl) (map loc_pk (locations db2))).
  { intros jl Hjl. destruct (HL1 jl Hjl). split; [assumption|]. now apply Hlocs. }
  destruct (upsert_location_job_locations _ _ _ _ _ H2)
    as [->|[(jl & jl' & Hin & _ & Hkey & ->)|(jl' & city & Hcity & Hkey & _ & _ & ->)]].
  - exact Hold.
  - intros x Hx. apply in_map_update in Hx. destruct Hx as [->|Hx]; [|now apply Hold].
    injection Hkey as -> -> _. now apply Hold.
  - intros x Hx. apply in_app_iff in Hx. destruct Hx as [Hx|[<-|[]]]; [now apply Hold|].
    injection Hkey as -> ->. split; [exact Hjob | now apply in_map].
Qed.

Lemma rec_tech_name_label job_data :
  In (rec_tech_name job_data) ("Other" :: KNOWN_TECHS).
Proof.
  unfold rec_tech_name, extract_tech_value.
  destruct (dict_get job_data "title" (JStr "")) as [| | |s| |];
    try (simpl; now left).
  unfold extract_tech, extract_tech_in.
  destruct (scan_words_result KNOWN_TECHS
              (PyStr.split_ws (PyStr.lower (clean_title s))))
    as [->|(w & t & _ & Ht & _ & ->)]; [simpl; now left|].
  destruct (String.eqb t ""); [now left | now right].
Qed.

Lemma process_record_labels d job_data db :
  labels_closed db -> labels_closed (fst (process_record d job_data db)).
Proof.
  unfold labels_closed. intros Hl. rewrite process_record_eq.
  destruct (upsert_job d job_data db) as [db1 r1] eqn:H1.
  assert (H1' : forall t, In t (techs db1) ->
                          In (tech_name t) ("Other" :: KNOWN_TECHS)).
  { destruct (upsert_job_techs _ _ _ _ _ H1) as [->|[_ ->]]; [assumption|].
    intros t Ht. apply in_app_iff in Ht. destruct Ht as [Ht|[<-|[]]]; [auto|].
    apply rec_tech_name_label. }
  destruct r1 as [job|e]; [|exact H1'].
  destruct (upsert_location job job_data db1) as [db2 r2] eqn:H2. simpl.
  destruct (@upsert_location_frame float_of job job_data db1 db2 r2 H2) as [-> _].
  exact H1'.
Qed.

Lemma process_record_dates d job_data db :
  wf db ->
  exists n,
    map job_date (jobs (fst (process_record d job_data db)))
    = map job_date (jobs db) ++ repeat d n.
Proof.
  intros [Hpk _]. rewrite process_record_eq.
  destruct (upsert_job d job_data db) as [db1 r1] eqn:H1.
  assert (H1' : exists n, map job_date (jobs db1) = map job_date (jobs db) ++ repeat d n).
  { destruct (upsert_job_jobs _ _ _ _ _ H1)
      as [->|[(j0 & j' & Hin & Hkey & Hd & _ & ->)|(j' & _ & _ & Hd & _ & ->)]].
    - exists 0. simpl. now rewrite app_nil_r.
    - exists 0. simpl. rewrite app_nil_r. now apply map_update_key.
    - exists 1. rewrite map_app. simpl. now rewrite Hd. }
  destruct r1 as [job|e]; [|exact H1'].
  destruct (upsert_location job job_data db1) as [db2 r2] eqn:H2. simpl.
  destruct (@upsert_location_frame float_of job job_data db1 db2 r2 H2) as [_ ->].
  exact H1'.
Qed.

(** ** From one record to the import *)

Lemma run_preserves (I : DB -> Prop) d :
  (forall job_data db, I db -> I (fst (process_record d job_data db))) ->
  forall records db, I db -> I (fold_left (step d) records db).
Proof.
  intros Hstep. induction records as [|job_data rest IH]; intros db HI; simpl; auto.
Qed.

Lemma imported_preserves (I : DB -> Prop) :
  (forall d job_data db, I db -> I (fst (process_record d job_data db))) ->
  forall fs json_path db, I db -> I (imported fs json_path db).
Proof.
  intros Hstep fs json_path db HI.
  destruct (@imported_cases text_of float_of fs json_path db) as [->|(d & items & ->)];
    [assumption|].
  unfold loop_db. rewrite (@import_loop_db text_of float_of).
  apply run_preserves; [apply Hstep | assumption].
Qed.

Lemma imported_cases_date fs json_path db :
  imported fs json_path db = db
  \/ exists jobs_data,
      forall db0, imported fs json_path db0 = loop_db (path_date json_path) jobs_data db0.
Proof.
  unfold imported, import_jobs_from_json, path_date.
  assert (Hrun : forall d items log,
             (forall db0,
                 fst (fst (match import_loop d items db0 log with
                           | (db', log', true) => (db', log' ++ [InfoCompleted], None)
                           | (db', log', false) =>
                               (db', log' ++ [ExcUnexpected json_path],
                                @None ImportReport)
                           end))
                 = loop_db d items db0)).
  { intros d items log db0. unfold loop_db.
    rewrite (@import_loop_db text_of float_of d items db0 []).
    rewrite <- (@import_loop_db text_of float_of d items db0 log).
    now destruct (import_loop d items db0 log) as [[db1 log1] [|]]. }
  destruct (Re.search date_re json_path) as [text|];
    [destruct (strptime text) as [d|]; [|now left]|];
    (destruct (fs json_path) as [| | |v]; try (now left));
    (destruct (iter_items v) as [items|]; [|now left]);
    right; exists items; intros db0; apply Hrun.
Qed.

(** X5. A record whose location has no display name, a null or an empty
    one, or the name "Deutschland", adds no Location and no JobLocation. *)
Theorem no_job_location_without_a_place d job_data db :
  (forall loc,
      dict_get job_data "location" (JDict []) = JDict loc ->
      dict_get loc "display_name" JNull = JNull
      \/ dict_get loc "display_name" JNull = JStr ""
      \/ dict_get loc "display_name" JNull = JStr "Deutschland") ->
  locations (fst (process_record d job_data db)) = locations db
  /\ job_locations (fst (process_record d job_data db)) = job_locations db.
Proof.
  intros Hname.
  assert (Hloc : rec_location job_data = None).
  { unfold rec_location, rec_display_name.
    destruct (dict_get job_data "location" (JDict [])) as [| | | | |loc];
      try reflexivity.
    destruct (Hname loc eq_refl) as [->|[->| ->]]; reflexivity. }
  rewrite process_record_eq.
  destruct (upsert_job d job_data db) as [db1 r1] eqn:H1.
  apply (@upsert_job_spec text_of float_of) in H1. destruct H1 as (Hl1 & Hk1 & _).
  destruct r1 as [job|e]; [|now split].
  destruct (@upsert_location_none float_of job job_data db1 Hloc) as [r' ->].
  now split.
Qed.


(** X7. An import keeps the Techs deduplicated by name. *)
Theorem import_keeps_tech_names_unique fs json_path db :
  tech_names_unique db -> tech_names_unique (imported fs json_path db).
Proof.
  apply (imported_preserves tech_names_unique). intros d job_data db0.
  apply process_record_tech_names.
Qed.

(** X8. An import keeps the Locations deduplicated by display name. *)
Theorem import_keeps_location_names_unique fs json_path db :
  location_names_unique db -> location_names_unique (imported fs json_path db).
Proof.
  apply (imported_preserves location_names_unique). intros d job_data db0.
  apply process_record_location_names.
Qed.

(** X9. An import keeps the external identifiers of the Jobs pairwise
    distinct, the primary keys being unique: no posting gets a second
    Job. *)
Theorem import_keeps_job_ids_unique fs json_path db :
  wf db -> job_ids_unique db -> job_ids_unique (imported fs json_path db).
Proof.
  intros Hwf Hids.
  apply (imported_preserves (fun db0 => wf db0 /\ job_ids_unique db0));
    [|now split].
  intros d job_data db0 [Hwf0 Hids0]. split.
  - apply (@process_record_ext text_of float_of d job_data db0 Hwf0).
  - now apply process_record_job_ids.
Qed.

(** X10. An import gives no Tech a name of its own making: every Tech it
    adds carries a member of the vocabulary or "Other". *)
Theorem import_keeps_labels_closed fs json_path db :
  labels_closed db -> labels_closed (imported fs json_path db).
Proof.
  apply (imported_preserves labels_closed). intros d job_data db0.
  apply process_record_labels.
Qed.

(** X11. An import keeps the references whole: the Tech of every Job, and
    the Job and the Location of every JobLocation, are rows of the store. *)
Theorem import_keeps_references fs json_path db :
  fk_valid db -> fk_valid (imported fs json_path db).
Proof.
  apply (imported_preserves fk_valid). intros d job_data db0.
  apply process_record_fk.
Qed.

Lemma run_dates d records :
  forall db,
    wf db ->
    exists n,
      map job_date (jobs (fold_left (step d) records db))
      = map job_date (jobs db) ++ repeat d n.
Proof.
  induction records as [|job_data rest IH]; intros db Hwf; simpl.
  - exists 0. simpl. now rewrite app_nil_r.
  - destruct (process_record_dates d job_data db Hwf) as [n Hn].
    destruct (IH _ (proj1 (@process_record_ext text_of float_of d job_data db Hwf)))
      as [m Hm].
    exists (n + m). now rewrite Hm, Hn, <- app_assoc, repeat_app.
Qed.

(** X12. The posting date is the date of the first sighting: an import
    leaves the date of every Job of the store as it is, and each Job it
    adds carries the date the path of the artifact holds, none when it
    holds none (the primary keys being unique). *)
Theorem import_dates_only_new_jobs fs json_path db :
  wf db ->
  exists n,
    map job_date (jobs (imported fs json_path db))
    = map job_date (jobs db) ++ repeat (path_date json_path) n.
Proof.
  intros Hwf. destruct (imported_cases_date fs json_path db) as [->|(items & ->)].
  - exists 0. simpl. now rewrite app_nil_r.
  - unfold loop_db. rewrite (@import_loop_db text_of float_of).
    now apply run_dates.
Qed.

(** ** Elements that are no mappings, and records that fail *)

Lemma import_loop_app d items1 :
  (forall item, In item items1 -> exists job_data, item = JDict job_data) ->
  forall items2 db log,
    import_loop d (items1 ++ items2) db log
    = import_loop d items2 (fst (fst (import_loop d items1 db log)))
                  (snd (fst (import_loop d items1 db log))).
Proof.
  induction items1 as [|item rest IH]; intros Hall items2 db log; [reflexivity|].
  destruct (Hall item (or_introl eq_refl)) as [job_data ->].
  assert (Hrest : forall i, In i rest -> exists jd, i = JDict jd)
    by (intros i Hi; apply Hall; now right).
  simpl. destruct (process_record d job_data db) as [db1 [u|[]]]; now apply IH.
Qed.

(** X13. The loop goes on behind a record that fails: when the elements
    of a first part are all mappings, importing the list is importing the
    first part and then, from the store and the log it leaves, the rest;
    no failure in the first part keeps a later record from its turn. *)
Theorem import_continues_after_failed_records d items1 items2 db log :
  (forall item, In item items1 -> exists job_data, item = JDict job_data) ->
  import_loop d (items1 ++ items2) db log
  = import_loop d items2 (fst (fst (import_loop d items1 db log)))
                (snd (fst (import_loop d items1 db log))).
Proof. intros Hall. now apply import_loop_app. Qed.

(** X14. An element that is no mapping ends the loop: the records behind
    it are not processed, the store and the log stay as the records in
    front of it left them, and the loop reports that it did not run to its
    end. *)
Theorem import_stops_at_non_mapping d items1 x items2 db log :
  (forall item, In item items1 -> exists job_data, item = JDict job_data) ->
  (forall job_data, x <> JDict job_data) ->
  import_loop d (items1 ++ x :: items2) db log
  = (fst (fst (import_loop d items1 db log)),
     snd (fst (import_loop d items1 db log)), false).
Proof.
  intros Hall Hx. rewrite import_loop_app by assumption.
  destruct x; try reflexivity. now contradiction (Hx kvs).
Qed.

End ImporterInvariants.

(** ** The invariants on the sample snapshot *)

Lemma no_job_location_without_a_place_witness :
  let job_data :=
    [("id", JStr "job_3"); ("title", JStr "Rust Developer");
     ("location", JDict [("display_name", JStr "Deutschland")])] in
  locations (fst (process_record sample_text_of sample_float_of None job_data sample_db))
  = locations sample_db
  /\ job_locations (fst (process_record sample_text_of sample_float_of None job_data
                           sample_db))
     = job_locations sample_db.
Proof.
  apply no_job_location_without_a_place.
  intros loc H. injection H as <-. right. right. reflexivity.
Defined.


Lemma import_keeps_tech_names_unique_witness :
  tech_names_unique empty_db /\ tech_names_unique sample_db.
Proof.
  assert (H : tech_names_unique empty_db) by constructor.
  split; [exact H|].
  exact (import_keeps_tech_names_unique sample_text_of sample_float_of
           (sample_fs sample_snapshot) sample_path empty_db H).
Defined.

Lemma import_keeps_location_names_unique_witness :
  location_names_unique empty_db /\ location_names_unique sample_db.
Proof.
  assert (H : location_names_unique empty_db) by constructor.
  split; [exact H|].
  exact (import_keeps_location_names_unique sample_text_of sample_float_of
           (sample_fs sample_snapshot) sample_path empty_db H).
Defined.

Lemma import_keeps_job_ids_unique_witness :
  wf empty_db /\ job_ids_unique empty_db /\ job_ids_unique sample_db.
Proof.
  assert (H : job_ids_unique empty_db) by constructor.
  split; [exact wf_empty_db|]. split; [exact H|].
  exact (import_keeps_job_ids_unique sample_text_of sample_float_of
           (sample_fs sample_snapshot) sample_path empty_db wf_empty_db H).
Defined.

Lemma import_keeps_labels_closed_witness :
  labels_closed empty_db /\ labels_closed sample_db.
Proof.
  assert (H : labels_closed empty_db) by (intros t []).
  split; [exact H|].
  exact (import_keeps_labels_closed sample_text_of sample_float_of
           (sample_fs sample_snapshot) sample_path empty_db H).
Defined.

Lemma import_keeps_references_witness :
  fk_valid empty_db /\ fk_valid sample_db.
Proof.
  assert (H : fk_valid empty_db) by (split; intros x []).
  split; [exact H|].
  exact (import_keeps_references sample_text_of sample_float_of
           (sample_fs sample_snapshot) sample_path empty_db H).
Defined.

Lemma import_dates_only_new_jobs_witness :
  wf empty_db
  /\ exists n,
      map job_date (jobs sample_db)
      = map job_date (jobs empty_db) ++ repeat (path_date sample_path) n.
Proof.
  split; [exact wf_empty_db|].
  exact (import_dates_only_new_jobs sample_text_of sample_float_of
           (sample_fs sample_snapshot) sample_path empty_db wf_empty_db).
Defined.

Lemma import_continues_after_failed_records_witness :
  let bad := posting JNull (JStr "Java Developer") (JStr "0") "Hamburg" JNull JNull in
  let good := posting (JStr "job_4") (JStr "Go Developer") (JStr "0") "Bonn" JNull JNull in
  import_loop sample_text_of sample_float_of None ([bad] ++ [good]) empty_db []
  = import_loop sample_text_of sample_float_of None [good]
      (fst (fst (import_loop sample_text_of sample_float_of None [bad] empty_db [])))
      (snd (fst (import_loop sample_text_of sample_float_of None [bad] empty_db []))).
Proof.
  apply import_continues_after_failed_records.
  intros item [<-|[]]. eexists. reflexivity.
Defined.

Lemma import_stops_at_non_mapping_witness :
  let good := posting (JStr "job_4") (JStr "Go Developer") (JStr "0") "Bonn" JNull JNull in
  import_loop sample_text_of sample_float_of None ([good] ++ JStr "oops" :: [good])
              empty_db []
  = (fst (fst (import_loop sample_text_of sample_float_of None [good] empty_db [])),
     snd (fst (import_loop sample_text_of sample_float_of None [good] empty_db [])),
     false).
Proof.
  apply import_stops_at_non_mapping.
  - intros item [<-|[]]. eexists. reflexivity.
  - intros job_data. discriminate.
Defined.

(** ** From the fetcher to the importer *)

Lemma is_digit_digit_char n : Re.is_digit (digit_char n) = true.
Proof.
  unfold digit_char. pose proof (Nat.mod_upper_bound n 10 ltac:(lia)) as H.
  destruct (n mod 10) as [|[|[|[|[|[|[|[|[|[|k]]]]]]]]]]; try reflexivity. lia.
Qed.

Lemma digit_val_digit_char n : digit_val (digit_char n) = n mod 10.
Proof.
  unfold digit_char. pose proof (Nat.mod_upper_bound n 10 ltac:(lia)) as H.
  destruct (n mod 10) as [|[|[|[|[|[|[|[|[|[|k]]]]]]]]]]; try reflexivity. lia.
Qed.

Lemma four_digits_value n :
  n <= 9999 ->
  (n / 1000) mod 10 * 1000 + (n / 100) mod 10 * 100 + (n / 10) mod 10 * 10 + n mod 10
  = n.
Proof.
  intros H.
  assert (E : 9999 = 9 * 1000 + 999) by reflexivity. rewrite E in H. clear E.
  pose proof (Nat.div_mod_eq n 10). pose proof (Nat.div_mod_eq (n / 10) 10).
  pose proof (Nat.div_mod_eq (n / 100) 10).
  assert (n / 100 = n / 10 / 10) by (rewrite Nat.Div0.div_div; reflexivity).
  assert (n / 1000 = n / 100 / 10) by (rewrite Nat.Div0.div_div; reflexivity).
  assert (n / 1000 < 10) by (apply Nat.Div0.div_lt_upper_bound; lia).
  assert ((n / 1000) mod 10 = n / 1000) by (now apply Nat.mod_small).
  lia.
Qed.

Lemma two_digits_value n :
  n <= 99 -> (n / 10) mod 10 * 10 + n mod 10 = n.
Proof.
  intros H. pose proof (Nat.div_mod_eq n 10).
  assert (n / 10 < 10) by (apply Nat.Div0.div_lt_upper_bound; lia).
  assert ((n / 10) mod 10 = n / 10) by (now apply Nat.mod_small).
  lia.
Qed.

Lemma days_in_month_le y m : days_in_month y m <= 31.
Proof.
  unfold days_in_month.
  destruct m as [|[|[|[|[|[|[|[|[|[|[|[|m]]]]]]]]]]]];
    try destruct (is_leap y); lia.
Qed.

(** [strptime] reads back what [strftime] wrote. *)
Lemma strptime_strftime d : calendar_date d -> strptime (strftime d) = Some d.
Proof.
  intros ([Hy1 Hy2] & [Hm1 Hm2] & [Hd1 Hd2]).
  assert (E : 9999 = 9 * 1000 + 999) by reflexivity.
  pose proof (days_in_month_le (year d) (month d)) as Hdim.
  unfold strftime, four_digits, two_digits, strptime. cbn [String.append].
  rewrite !digit_val_digit_char.
  rewrite (four_digits_value (year d)) by exact Hy2.
  rewrite (two_digits_value (month d)) by lia.
  rewrite (two_digits_value (day d)) by lia.
  assert (Hok : ((1 <=? year d) && (1 <=? month d) && (month d <=? 12)
                 && (1 <=? day d) && (day d <=? days_in_month (year d) (month d)))
                = true).
  { repeat (apply andb_true_intro; split); apply Nat.leb_le; lia. }
  rewrite Hok. now destruct d.
Qed.

Lemma match_date_nondigit c s :
  Re.is_digit c = false -> Re.match_at date_re (String c s) = None.
Proof.
  intros H. unfold Re.match_at, date_re. cbn [Re.rmatch Re.cset_mem].
  now rewrite H.
Qed.

Lemma search_date_skip c s :
  Re.is_digit c = false ->
  Re.search date_re (String c s) = Re.search date_re s.
Proof.
  intros H. cbn [Re.search]. now rewrite (match_date_nondigit c s H).
Qed.

Lemma take_length_app (t rest : string) :
  Re.take (String.length (t ++ rest) - String.length rest) (t ++ rest) = t.
Proof.
  induction t as [|c t IH]; cbn [String.append String.length].
  - rewrite Nat.sub_diag. now destruct rest.
  - assert (Hlen : String.length (t ++ rest) = String.length t + String.length rest).
    { clear. induction t as [|c t IH]; cbn [String.append String.length]; [reflexivity|].
      now rewrite IH. }
    replace (S (String.length (t ++ rest)) - String.length rest)
      with (S (String.length (t ++ rest) - String.length rest)) by lia.
    cbn [Re.take]. now rewrite IH.
Qed.

Lemma search_date_here d rest :
  Re.search date_re (strftime d ++ rest) = Some (strftime d).
Proof.
  assert (Hm : Re.match_at date_re (strftime d ++ rest) = Some rest).
  { unfold strftime, four_digits, two_digits, Re.match_at, date_re.
    cbn [String.append Re.rmatch Re.cset_mem].
    rewrite !is_digit_digit_char. reflexivity. }
  assert (Hs : forall s, Re.search date_re s
               = match Re.match_at date_re s with
                 | Some rest => Some (Re.take (String.length s - String.length rest) s)
                 | None => match s with
                           | String _ s' => Re.search date_re s'
                           | EmptyString => None
                           end
                 end) by (intros [|? ?]; reflexivity).
  rewrite Hs, Hm. now rewrite take_length_app.
Qed.

(** [re.search] finds the date in the name of the artifact. *)
Lemma search_artifact_name d :
  Re.search date_re (artifact_name (strftime d)) = Some (strftime d).
Proof.
  unfold artifact_name. cbn [String.append].
  do 9 (rewrite search_date_skip by reflexivity).
  apply search_date_here.
Qed.

(** The importer reads from the name of the artifact the day the fetcher
    wrote into it. *)
Lemma path_date_artifact_name d :
  calendar_date d -> path_date (artifact_name (strftime d)) = Some d.
Proof.
  intros H. unfold path_date. rewrite search_artifact_name.
  now apply strptime_strftime.
Qed.

(** ** The fetcher and the scheduled job *)

Lemma artifact_name_not_empty s : String.eqb (artifact_name s) "" = false.
Proof. reflexivity. Qed.

Lemma fetch_jobs_break fuel env all_jobs tr :
  falsy_str (app_id env) = false -> falsy_str (app_key env) = false ->
  fetch_pages fuel (api env) 1 [] [] = Some (Break all_jobs, tr) ->
  can_write env = true ->
  fetch_jobs fuel env
  = Some (mkResult (Some (artifact_name (current_date env)))
                   (Some (artifact_name (current_date env), all_jobs))
                   (tr ++ [PrintTotal (length all_jobs)])).
Proof.
  intros Hid Hkey Hp Hw. unfold fetch_jobs. rewrite Hid, Hkey, Hp, Hw.
  reflexivity.
Qed.

(** A name [fetch_jobs] returns is the name of its artifact, and the
    artifact holds what the loop gathered. *)
Lemma fetch_jobs_returned fuel env res name :
  fetch_jobs fuel env = Some res -> returned res = Some name ->
  name = artifact_name (current_date env)
  /\ exists all_jobs, written res = Some (name, all_jobs).
Proof.
  unfold fetch_jobs.
  destruct (falsy_str (app_id env) || falsy_str (app_key env)).
  { intros H. injection H as <-. discriminate. }
  destruct (fetch_pages fuel (api env) 1 [] []) as [[[all_jobs|] tr]|];
    try discriminate.
  - destruct (can_write env); intros H; injection H as <-; cbn [returned written];
      intros Hn; [|discriminate].
    injection Hn as <-. split; [reflexivity|]. now exists all_jobs.
  - intros H. injection H as <-. discriminate.
Qed.

(** X15. The day [fetch_jobs] writes into the name it returns is the day
    [import_jobs_from_json] reads out of it: whenever the fetcher returns
    a name on a calendar day with a year of four digits, the importer
    dates the Jobs it creates with that day. *)
Theorem fetched_name_carries_its_date fuel env res name today :
  calendar_date today ->
  current_date env = strftime today ->
  fetch_jobs fuel env = Some res ->
  returned res = Some name ->
  path_date name = Some today.
Proof.
  intros Hcal Hdate Hf Hn.
  destruct (fetch_jobs_returned fuel env res name Hf Hn) as [-> _].
  rewrite Hdate. now apply path_date_artifact_name.
Qed.

Lemma fetch_pages_endless api :
  (forall q, page_jobs (api q) <> None) ->
  forall fuel page all_jobs tr, fetch_pages fuel api page all_jobs tr = None.
Proof.
  intros Hgo. induction fuel as [|fuel IH]; intros page all_jobs tr; [reflexivity|].
  destruct (page_jobs (api page)) as [items|] eqn:Hp; [|now apply Hgo in Hp].
  rewrite (@fetch_pages_continue fuel api page all_jobs tr items Hp). apply IH.
Qed.

(** X16. The pagination has no page limit: against an endpoint whose every
    page holds postings, [fetch_jobs] with credentials never returns,
    whatever the number of loop steps it is given. *)
Theorem fetch_never_returns_on_endless_pages env :
  falsy_str (app_id env) = false -> falsy_str (app_key env) = false ->
  (forall q, page_jobs (api env q) <> None) ->
  forall fuel, fetch_jobs fuel env = None.
Proof.
  intros Hid Hkey Hgo fuel. unfold fetch_jobs. rewrite Hid, Hkey. cbn [orb].
  now rewrite (fetch_pages_endless (api env) Hgo).
Qed.

Lemma fetch_pages_crash fuel api page all_jobs tr :
  page_crashes (api page) = true ->
  fetch_pages (S fuel) api page all_jobs tr = Some (Crash, tr ++ [Get page]).
Proof.
  unfold page_crashes. cbn [fetch_pages].
  destruct (api page) as [| |data]; try discriminate; [reflexivity|].
  destruct data as [| | | | |kvs]; try reflexivity.
  cbv zeta. destruct (truthy (dict_get kvs "results" (JList []))); [|discriminate].
  cbn [negb andb]. destruct (iter_items _); [discriminate | reflexivity].
Qed.

Lemma fetch_pages_crash_run api n :
  forall page all_jobs tr fuel,
    (forall q, page <= q < page + n -> page_jobs (api q) <> None) ->
    page_crashes (api (page + n)) = true ->
    n < fuel ->
    fetch_pages fuel api page all_jobs tr
    = Some (Crash, tr ++ page_events api page n ++ [Get (page + n)]).
Proof.
  induction n as [|n IH]; intros page all_jobs tr fuel Hgo Hstop Hfuel;
    (destruct fuel as [|fuel]; [lia|]).
  - rewrite Nat.add_0_r in *. unfold page_events. cbn [seq flat_map app].
    now apply fetch_pages_crash.
  - destruct (page_jobs (api page)) as [items|] eqn:Hp;
      [|exfalso; apply (Hgo page); [lia | assumption]].
    rewrite (@fetch_pages_continue fuel api page all_jobs tr items Hp).
    rewrite IH; [| intros q Hq; apply Hgo; lia
                 | now rewrite Nat.add_succ_l, <- Nat.add_succ_r
                 | lia].
    unfold page_events. cbn [seq flat_map]. rewrite Hp.
    rewrite Nat.add_succ_l, <- Nat.add_succ_r.
    now rewrite <- !app_assoc.
Qed.

Section SchedulerProperties.

Variable text_of : json -> string.
Variable float_of : json -> option Z.

Local Abbreviation job := (job text_of float_of).
Local Abbreviation loop_db := (loop_db text_of float_of).
Local Abbreviation imported := (imported text_of float_of).

(** The store after a run of [job] that imported. *)
Lemma job_imported fuel env fs db res name :
  fetch_jobs fuel env = Some res -> returned res = Some name ->
  exists r,
    job fuel env fs db = Some r
    /\ run_db r = imported (write_artifact fs (written res)) name db
    /\ run_files r = write_artifact fs (written res)
    /\ run_sched r = [InfoStarted; InfoTablesCreated; InfoFinished].
Proof.
  intros Hf Hn. destruct (fetch_jobs_returned fuel env res name Hf Hn) as [Hname _].
  subst name. unfold job, imported. rewrite Hf, Hn.
  rewrite artifact_name_not_empty. cbn [create_tables].
  destruct (import_jobs_from_json text_of float_of
              (write_artifact fs (written res))
              (artifact_name (current_date env)) db) as [[db2 log] ret].
  eexists. split; [reflexivity|]. cbn [run_db run_files run_sched fst].
  repeat split.
Qed.

(** The store after a run of [job] whose fetch returned no name. *)
Lemma job_skipped fuel env fs db res :
  fetch_jobs fuel env = Some res -> returned res = None ->
  job fuel env fs db
  = Some (mkRun db (write_artifact fs (written res)) (events res) []
                [InfoStarted; ErrFetchFailed]).
Proof. intros Hf Hn. unfold job. now rewrite Hf, Hn. Qed.
Lemma imported_of_list fs json_path db d items :
  path_date json_path = Some d ->
  fs json_path = Json (JList items) ->
  imported fs json_path db = loop_db (Some d) items db.
Proof.
  unfold path_date, imported, import_jobs_from_json. intros Hd Hfs.
  destruct (Re.search date_re json_path) as [text|]; [|discriminate].
  rewrite Hd, Hfs. cbn [iter_items app]. unfold loop_db.
  destruct (import_loop text_of float_of (Some d) items db [])
    as [[db1 log1] [|]]; reflexivity.
Qed.

Lemma imported_file_only fs fs' json_path db :
  fs json_path = fs' json_path ->
  imported fs json_path db = imported fs' json_path db.
Proof.
  intros H. unfold imported, import_jobs_from_json. now rewrite H.
Qed.

Lemma imported_twice fs json_path db :
  wf db ->
  row_counts (imported fs json_path (imported fs json_path db))
  = row_counts (imported fs json_path db).
Proof.
  intros Hwf.
  destruct (@imported_cases text_of float_of fs json_path db) as [H|[d [items H]]].
  - now rewrite !H.
  - rewrite !H. now apply loop_db_idempotent.
Qed.

Lemma write_artifact_at fs name all_jobs :
  write_artifact fs (Some (name, all_jobs)) name = Json (JList all_jobs).
Proof. cbn [write_artifact]. now rewrite String.eqb_refl. Qed.

(** X17. One run of the scheduled job on a day whose pages 1..n hold
    postings and whose page n+1 stops the pagination: the store it leaves is
    the store of the import loop over the postings of those n pages, each
    new Job dated with the day of the run, and the three log lines of a
    finished run are written. *)
Theorem job_imports_the_fetched_postings fuel env fs db today n e :
  falsy_str (app_id env) = false ->
  falsy_str (app_key env) = false ->
  can_write env = true ->
  calendar_date today ->
  current_date env = strftime today ->
  (forall q, 1 <= q < 1 + n -> page_jobs (api env q) <> None) ->
  page_stops (api env (1 + n)) = Some e ->
  n < fuel ->
  exists r,
    job fuel env fs db = Some r
    /\ run_db r = loop_db (Some today) (collect (api env) 1 n) db
    /\ run_sched r = [InfoStarted; InfoTablesCreated; InfoFinished].
Proof.
  intros Hid Hkey Hw Hcal Hdate Hgo Hstop Hfuel.
  pose proof (@fetch_pages_run (api env) e n 1 [] [] fuel Hgo Hstop Hfuel) as Hp.
  cbn [app] in Hp.
  pose proof (fetch_jobs_break fuel env _ _ Hid Hkey Hp Hw) as Hf.
  destruct (job_imported fuel env fs db _ (artifact_name (current_date env))
              Hf eq_refl) as (r & Hr & Hdb & _ & Hs).
  exists r. split; [exact Hr|]. split; [|exact Hs].
  rewrite Hdb. cbn [written]. apply imported_of_list.
  - rewrite Hdate. now apply path_date_artifact_name.
  - apply write_artifact_at.
Qed.



(** X20. A malformed page discards the whole run: when the pages 1..n
    hold postings and page n+1 has a body that is not JSON, not a
    mapping, or whose "results" cannot be iterated, the job requests the
    pages 1..n+1, writes no artifact, skips the import and leaves the store
    as it was; the postings of the n pages are lost. *)
Theorem malformed_page_discards_the_run fuel env fs db n :
  falsy_str (app_id env) = false ->
  falsy_str (app_key env) = false ->
  (forall q, 1 <= q < 1 + n -> page_jobs (api env q) <> None) ->
  page_crashes (api env (1 + n)) = true ->
  n < fuel ->
  exists r,
    job fuel env fs db = Some r
    /\ run_db r = db
    /\ run_files r = fs
    /\ requests (run_fetch r) = seq 1 (S n)
    /\ run_import r = []
    /\ run_sched r = [InfoStarted; ErrFetchFailed].
Proof.
  intros Hid Hkey Hgo Hcrash Hfuel.
  pose proof (fetch_pages_crash_run (api env) n 1 [] [] fuel Hgo Hcrash Hfuel) as Hp.
  cbn [app] in Hp.
  assert (Hf : fetch_jobs fuel env
               = Some (mkResult None None
                         ((page_events (api env) 1 n ++ [Get (1 + n)])
                          ++ [LogException]))).
  { unfold fetch_jobs. rewrite Hid, Hkey, Hp. reflexivity. }
  eexists. split; [apply (job_skipped fuel env fs db _ Hf eq_refl)|].
  cbn [run_db run_files run_fetch run_import run_sched written events write_artifact].
  repeat split.
  rewrite !requests_app, (@requests_page_events (api env) n 1 Hgo).
  cbn [requests flat_map app]. rewrite app_nil_r.
  rewrite seq_S. reflexivity.
Qed.

End SchedulerProperties.

(** ** The loader *)

Lemma flat_map_nil {A B} (f : A -> list B) l :
  (forall a, In a l -> f a = []) -> flat_map f l = [].
Proof.
  induction l as [|a l IH]; intros H; [reflexivity|]. cbn [flat_map].
  rewrite (H a (or_introl eq_refl)), IH; [reflexivity|].
  intros b Hb. apply H. now right.
Qed.

Lemma flat_map_split {A B} (g h : A -> list B) l :
  Permutation (flat_map (fun a => g a ++ h a) l) (flat_map g l ++ flat_map h l).
Proof.
  induction l as [|a l IH]; [constructor|]. cbn [flat_map].
  rewrite IH, <- !app_assoc. apply Permutation_app_head.
  rewrite !app_assoc. apply Permutation_app_tail. apply Permutation_app_comm.
Qed.

Lemma flat_map_swap {A B C} (f : A -> B -> list C) la lb :
  Permutation (flat_map (fun a => flat_map (f a) lb) la)
              (flat_map (fun b => flat_map (fun a => f a b) la) lb).
Proof.
  induction la as [|a la IH]; cbn [flat_map].
  - rewrite flat_map_nil; [constructor | reflexivity].
  - rewrite flat_map_split. now apply Permutation_app_head.
Qed.

Lemma find_key_none {A} (pk : A -> nat) k l :
  ~ In k (map pk l) -> find (fun a => k =? pk a) l = None.
Proof.
  induction l as [|a l IH]; intros H; [reflexivity|]. cbn [find].
  destruct (Nat.eqb_spec k (pk a)) as [->|_].
  - exfalso. apply H. now left.
  - apply IH. intros Hin. apply H. now right.
Qed.

(** A scan for a key that is unique finds what a lookup finds. *)
Lemma flat_map_key {A C} (pk : A -> nat) k (g : A -> list C) l :
  NoDup (map pk l) ->
  flat_map (fun a => if k =? pk a then g a else []) l
  = match find (fun a => k =? pk a) l with Some a => g a | None => [] end.
Proof.
  induction l as [|a l IH]; intros Hnd; [reflexivity|].
  cbn [map] in Hnd. inversion Hnd as [|x xs Hnotin Hnd']; subst.
  cbn [flat_map find]. specialize (IH Hnd').
  destruct (Nat.eqb_spec k (pk a)) as [->|_].
  - rewrite IH, (find_key_none pk (pk a) l Hnotin). apply app_nil_r.
  - exact IH.
Qed.

Lemma row_of_length db jl : length (row_of db jl) <= 1.
Proof.
  unfold row_of.
  destruct (find _ (jobs db)) as [j|]; [|cbn; lia].
  destruct (find _ (locations db)) as [l|]; [|cbn; lia].
  destruct (find _ (techs db)) as [t|]; [|cbn; lia].
  destruct (shown t l); cbn; lia.
Qed.

Lemma flat_map_length_le {A B} (f : A -> list B) l :
  (forall a, length (f a) <= 1) -> length (flat_map f l) <= length l.
Proof.
  intros H. induction l as [|a l IH]; [cbn; lia|].
  cbn [flat_map length]. rewrite length_app. specialize (H a). lia.
Qed.

Lemma query_rows_row_of db :
  NoDup (map job_pk (jobs db)) ->
  NoDup (map loc_pk (locations db)) ->
  NoDup (map tech_pk (techs db)) ->
  Permutation (query_rows db) (flat_map (row_of db) (job_locations db)).
Proof.
  intros Hj Hl Ht. unfold query_rows.
  rewrite flat_map_swap.
  erewrite flat_map_ext; [reflexivity|]. intros jl.
  rewrite (flat_map_key job_pk (jl_job jl) _ (jobs db) Hj).
  unfold row_of. destruct (find _ (jobs db)) as [j|]; [|reflexivity].
  rewrite (flat_map_key loc_pk (jl_location jl) _ (locations db) Hl).
  destruct (find _ (locations db)) as [l|]; [|reflexivity].
  now rewrite (flat_map_key tech_pk (job_tech j) _ (techs db) Ht).
Qed.

(** X21. The rows the dashboard loads are, row for row, the JobLocations
    whose Job has a Tech other than "Other" and whose Location is not
    "Deutschland": over primary keys that are unique the three joins give
    each such JobLocation exactly one row, in some order, so that the frame
    never has more rows than the table JobLocation. *)
Theorem load_query_one_row_per_job_location db :
  NoDup (map job_pk (jobs db)) ->
  NoDup (map loc_pk (locations db)) ->
  NoDup (map tech_pk (techs db)) ->
  Permutation (query_rows db) (flat_map (row_of db) (job_locations db))
  /\ length (query_rows db) <= length (job_locations db).
Proof.
  intros Hj Hl Ht.
  pose proof (query_rows_row_of db Hj Hl Ht) as HP. split; [exact HP|].
  rewrite (Permutation_length HP).
  apply flat_map_length_le. apply row_of_length.
Qed.

Lemma query_rows_nil db :
  job_locations db = []
  \/ (forall t, In t (techs db) -> tech_name t = "Other"%string)
  \/ (forall l, In l (locations db) -> loc_display_name l = "Deutschland"%string) ->
  query_rows db = [].
Proof.
  intros H. unfold query_rows.
  apply flat_map_nil. intros j _. apply flat_map_nil. intros jl Hjl.
  destruct (jl_job jl =? job_pk j); [|reflexivity].
  apply flat_map_nil. intros l Hl.
  destruct (jl_location jl =? loc_pk l); [|reflexivity].
  apply flat_map_nil. intros t Ht.
  destruct (job_tech j =? tech_pk t); [|reflexivity].
  unfold shown. destruct H as [H|[H|H]].
  - rewrite H in Hjl. destruct Hjl.
  - now rewrite (H t Ht).
  - rewrite (H l Hl). cbn. now rewrite andb_false_r.
Qed.

(** X22. [load_jobs] raises KeyError instead of returning an empty frame:
    on a store with no JobLocation (a fresh one, say), or whose Techs are
    all "Other", or whose Locations are all "Deutschland", the query has no
    row, the frame no column, and [df['date']] fails, whatever
    [pd.to_datetime] would do. *)
Theorem load_jobs_raises_on_empty_result
        (stamp : Type) (to_datetime : option date -> option stamp) db :
  job_locations db = []
  \/ (forall t, In t (techs db) -> tech_name t = "Other"%string)
  \/ (forall l, In l (locations db) -> loc_display_name l = "Deutschland"%string) ->
  @load_jobs stamp to_datetime db = inl KeyError.
Proof.
  intros H. unfold load_jobs. now rewrite (query_rows_nil db H).
Qed.

Lemma in_query_rows db r :
  In r (query_rows db) ->
  exists j jl l t,
    In j (jobs db) /\ In jl (job_locations db) /\ In l (locations db)
    /\ In t (techs db)
    /\ jl_job jl = job_pk j /\ jl_location jl = loc_pk l
    /\ job_tech j = tech_pk t /\ shown t l = true
    /\ r = joined_row j jl l t.
Proof.
  unfold query_rows. intros H.
  apply in_flat_map in H. destruct H as (j & Hj & H).
  apply in_flat_map in H. destruct H as (jl & Hjl & H).
  destruct (Nat.eqb_spec (jl_job jl) (job_pk j)) as [E1|_]; [|destruct H].
  apply in_flat_map in H. destruct H as (l & Hl & H).
  destruct (Nat.eqb_spec (jl_location jl) (loc_pk l)) as [E2|_]; [|destruct H].
  apply in_flat_map in H. destruct H as (t & Ht & H).
  destruct (Nat.eqb_spec (job_tech j) (tech_pk t)) as [E3|_]; [|destruct H].
  destruct (shown t l) eqn:Hs; [|destruct H].
  destruct H as [<-|[]]. exists j, jl, l, t. repeat split; assumption.
Qed.

(** X23. Over a store whose Techs carry labels of the classifier, as the
    importer leaves it, every row the dashboard loads names one of the 28
    known technologies, and no row has the city "Deutschland". *)
Theorem loaded_rows_name_known_techs db r :
  labels_closed db ->
  In r (query_rows db) ->
  In (r_tech r) KNOWN_TECHS /\ r_city r <> "Deutschland"%string.
Proof.
  intros Hlab H. apply in_query_rows in H.
  destruct H as (j & jl & l & t & _ & _ & _ & Ht & _ & _ & _ & Hs & ->).
  cbn [joined_row r_tech r_city]. unfold shown in Hs.
  apply andb_prop in Hs. destruct Hs as [Hs1 Hs2].
  apply negb_true_iff in Hs1, Hs2. apply String.eqb_neq in Hs1, Hs2.
  split; [|exact Hs2].
  destruct (Hlab t Ht) as [E|Hin]; [|exact Hin].
  exfalso. apply Hs1. now symmetry.
Qed.

(** ** The fetcher, the job and the loader on the samples *)

Lemma calendar_date_sample : calendar_date (mkDate 2025 9 8).
Proof. unfold calendar_date. cbn. repeat split; apply Nat.leb_le; reflexivity. Qed.

Lemma fake_env_pages :
  forall q, 1 <= q < 1 + 1 -> page_jobs (api fake_env q) <> None.
Proof. intros q Hq. assert (q = 1) as -> by lia. discriminate. Qed.

Lemma fetched_name_carries_its_date_witness :
  path_date "all_jobs_2025-09-08.json" = Some (mkDate 2025 9 8).
Proof.
  eapply (fetched_name_carries_its_date 3 fake_env _ _ (mkDate 2025 9 8)
            calendar_date_sample eq_refl); reflexivity.
Defined.

Lemma fetch_never_returns_on_endless_pages_witness :
  fetch_jobs 100
    (mkEnv (Some "fake_id") (Some "fake_key") (fun _ => fake_api 1)
           "2025-09-08" true)
  = None.
Proof.
  apply (fetch_never_returns_on_endless_pages
           (mkEnv (Some "fake_id") (Some "fake_key") (fun _ => fake_api 1)
                  "2025-09-08" true)
           eq_refl eq_refl);
    intros q; discriminate.
Defined.

Lemma job_imports_the_fetched_postings_witness :
  exists r,
    job sample_text_of sample_float_of 3 fake_env (fun _ => NoFile) empty_db = Some r
    /\ run_db r = loop_db sample_text_of sample_float_of (Some (mkDate 2025 9 8))
                          (collect (api fake_env) 1 1) empty_db
    /\ run_sched r = [InfoStarted; InfoTablesCreated; InfoFinished].
Proof.
  apply (job_imports_the_fetched_postings sample_text_of sample_float_of
           3 fake_env (fun _ => NoFile) empty_db (mkDate 2025 9 8) 1 LogNoMoreJobs
           eq_refl eq_refl eq_refl calendar_date_sample eq_refl fake_env_pages
           eq_refl).
  lia.
Defined.


Lemma malformed_page_discards_the_run_witness :
  exists r,
    job sample_text_of sample_float_of 3
        (mkEnv (Some "fake_id") (Some "fake_key")
               (fun page => if page =? 1 then fake_api 1 else BadBody)
               "2025-09-08" true)
        (fun _ => NoFile) empty_db
    = Some r
    /\ run_db r = empty_db
    /\ run_files r = (fun _ => NoFile)
    /\ requests (run_fetch r) = seq 1 2
    /\ run_import r = []
    /\ run_sched r = [InfoStarted; ErrFetchFailed].
Proof.
  apply (malformed_page_discards_the_run sample_text_of sample_float_of 3
           (mkEnv (Some "fake_id") (Some "fake_key")
                  (fun page => if page =? 1 then fake_api 1 else BadBody)
                  "2025-09-08" true)
           (fun _ => NoFile) empty_db 1 eq_refl eq_refl).
  - intros q Hq. assert (q = 1) as -> by lia. discriminate.
  - reflexivity.
  - lia.
Defined.

Ltac nodup_by_computation :=
  vm_compute; repeat (constructor; [cbn; intuition discriminate|]); constructor.

Lemma load_query_one_row_per_job_location_witness :
  Permutation (query_rows sample_db)
              (flat_map (row_of sample_db) (job_locations sample_db))
  /\ length (query_rows sample_db) <= length (job_locations sample_db).
Proof.
  apply load_query_one_row_per_job_location; nodup_by_computation.
Defined.

Lemma load_jobs_raises_on_empty_result_witness :
  @load_jobs (option date) (fun d => Some d) empty_db = inl KeyError.
Proof.
  apply load_jobs_raises_on_empty_result. left. reflexivity.
Defined.

Lemma loaded_rows_name_known_techs_witness :
  let r := mkRow (Some (mkDate 2025 9 8)) "Senior Python Entwickler" "ExampleCo"
                 true "http://example.com" (Some 5252%Z) (Some 13405%Z)
                 "Berlin" (Some "Mitte"%string) "Python" in
  labels_closed sample_db
  /\ In r (query_rows sample_db)
  /\ In (r_tech r) KNOWN_TECHS /\ r_city r <> "Deutschland"%string.
Proof.
  intros r.
  assert (Hlab : labels_closed sample_db).
  { intros t Ht. vm_compute in Ht.
    destruct Ht as [<-|[<-|[<-|[]]]]; vm_compute;
      repeat first [left; reflexivity | right]. }
  assert (Hin : In r (query_rows sample_db)) by (vm_compute; left; reflexivity).
  split; [exact Hlab|]. split; [exact Hin|].
  exact (loaded_rows_name_known_techs sample_db r Hlab Hin).
Defined.
